(** * beads_viewer: the graph analysis engine

    A shallow embedding of the analysis pipeline of beads_viewer

      - [loader.toModelIssue]         wire record -> issue model
      - [analysis.NewAnalyzer]        issues -> gonum directed graph
      - [analysis.Analyze]            degrees, topological order, heights
      - [analysis.computeHeights]     critical-path score
      - [analysis.GenerateInsights]   top-N lists
      - [analysis.getTopItems]

    followed by the properties of the specification that concern them.

    Conventions.
      - Go [int64]/[int] values are [Z]; the node counter never comes near
        2^63 (a Go slice has fewer elements), so no wrap-around is written.
      - Go maps are [gmap]s.  Reading a missing key yields the zero value,
        written [default z (m !! k)].  The order in which [range] visits a
        map is left open by Go; wherever the source ranges over a map the
        embedding takes the visiting order as an explicit list that is a
        permutation of the map's entries.
      - [float64] metric values are exact rationals [Q].  The embedded code
        only compares them with [>] and adds [1.0] to a height, which is
        exact on the integer-valued heights that occur.
      - A Go panic is the [None] of an [option]. *)

From Stdlib Require Import ZArith QArith Qcanon Lia Lqa.
From stdpp Require Import gmap strings list fin_maps relations sorting.

Close Scope Qc_scope.
Close Scope Q_scope.
Open Scope Z_scope.

(** ** Package model *)

Module model.

(** Modelled from the spec: package [model] (the declarations of [Issue],
    [Dependency] and the open string enums) is not part of the sources;
    the fields are those the spec lists and the code reads. *)
Definition Status := string.
Definition IssueType := string.
Definition DependencyType := string.

Definition StatusOpen : Status := "open".
Definition StatusInProgress : Status := "in_progress".
Definition StatusBlocked : Status := "blocked".
Definition StatusDeferred : Status := "deferred".
Definition StatusPinned : Status := "pinned".
Definition StatusHooked : Status := "hooked".
Definition StatusClosed : Status := "closed".
Definition StatusTombstone : Status := "tombstone".

Definition TypeTask : IssueType := "task".
Definition TypeBug : IssueType := "bug".
Definition TypeFeature : IssueType := "feature".
Definition TypeEpic : IssueType := "epic".
Definition TypeChore : IssueType := "chore".

Definition DepBlocks : DependencyType := "blocks".
Definition DepParentChild : DependencyType := "parent-child".
Definition DepRelated : DependencyType := "related".
Definition DepDiscoveredFrom : DependencyType := "discovered-from".

(** A point in time, as an offset from Go's zero [time.Time{}]. *)
Definition Time := Z.
Definition zeroTime : Time := 0.

Record Dependency := {
  IssueID : string;
  DependsOnID : string;
  Type_ : DependencyType
}.

Record Issue := {
  ID : string;
  Title : string;
  Description : string;
  Status_ : Status;
  IssueType_ : IssueType;
  Priority : Z;
  CreatedAt : Time;
  UpdatedAt : Time;
  ClosedAt : option Time;
  Assignee : string;
  Labels : list string;
  Dependencies : list Dependency
}.

Global Instance Dependency_eq_dec : EqDecision Dependency.
Proof. solve_decision. Defined.

End model.

Import model.

(** ** gonum: [graph/simple.DirectedGraph]

    The library is not part of the repository; the four operations the
    analyzer calls are written out from gonum's [simple/directed.go]. *)

Module simple.

(** [simple.Edge{F, T}]: an edge carries its two end points, nothing else. *)
Record Edge := { F : Z; T : Z }.

Global Instance Edge_eq_dec : EqDecision Edge.
Proof. solve_decision. Defined.

(** [nodes] is the key set of [g.nodes]; [from] and [to] are the two
    adjacency maps [map[int64]map[int64]graph.Edge]; [maxID] is the
    [uid.Set] counter ([-1] when fresh).  Nodes are never removed, so the
    free list of the [uid.Set] stays empty and is left out. *)
Record DirectedGraph := {
  nodes : gset Z;
  from : gmap Z (gmap Z Edge);
  to : gmap Z (gmap Z Edge);
  maxID : Z
}.

Definition NewDirectedGraph : DirectedGraph :=
  {| nodes := ∅; from := ∅; to := ∅; maxID := -1 |}.

(** [g.NewNode()]: [Node(0)] on the empty graph, else [nodeIDs.NewID()]. *)
Definition NewNode (g : DirectedGraph) : Z :=
  if decide (size (nodes g) = 0%nat) then 0 else maxID g + 1.

(** [g.AddNode(n)]: panics on an ID collision. *)
Definition AddNode (g : DirectedGraph) (n : Z) : option DirectedGraph :=
  if decide (n ∈ nodes g) then None
  else Some {| nodes := {[n]} ∪ nodes g; from := from g; to := to g;
               maxID := Z.max (maxID g) n |}.

Definition NewEdge (u v : Z) : Edge := {| F := u; T := v |}.

Definition ensureNode (g : DirectedGraph) (n : Z) : option DirectedGraph :=
  if decide (n ∈ nodes g) then Some g else AddNode g n.

(** [g.SetEdge(e)]: panics with "simple: adding self edge" when both
    ends coincide; otherwise [from[fid][tid] = e] and [to[tid][fid] = e],
    replacing an edge already stored for the pair. *)
Definition SetEdge (g : DirectedGraph) (e : Edge) : option DirectedGraph :=
  if decide (F e = T e) then None
  else
    g1 ← ensureNode g (F e);
    g2 ← ensureNode g1 (T e);
    Some {| nodes := nodes g2;
            from := <[F e := <[T e := e]> (default ∅ (from g2 !! F e))]> (from g2);
            to := <[T e := <[F e := e]> (default ∅ (to g2 !! T e))]> (to g2);
            maxID := maxID g2 |}.

(** [g.From(id)] and [g.To(id)]: successors and predecessors.  gonum
    walks a Go map in no fixed order; the list here is the enumeration
    [map_to_list] gives. *)
Definition From (g : DirectedGraph) (id : Z) : list Z :=
  (map_to_list (default ∅ (from g !! id))).*1.

Definition To (g : DirectedGraph) (id : Z) : list Z :=
  (map_to_list (default ∅ (to g !! id))).*1.

(** [g.Edges()] *)
Definition Edges (g : DirectedGraph) : list Edge :=
  mjoin ((λ kv : Z * gmap Z Edge, (map_to_list kv.2).*2) <$> map_to_list (from g)).

(** [g.HasEdgeFromTo(u, v)] *)
Definition HasEdgeFromTo (g : DirectedGraph) (u v : Z) : Prop :=
  is_Some (default ∅ (from g !! u) !! v).

Global Instance HasEdgeFromTo_dec g u v : Decision (HasEdgeFromTo g u v).
Proof. unfold HasEdgeFromTo. apply _. Defined.

End simple.

Import simple.

(** ** Package analysis: the analyzer *)

Record Analyzer := {
  g : DirectedGraph;
  idToNode : gmap string Z;
  nodeToID : gmap Z string;
  issueMap : gmap string Issue
}.

(** Monadic left fold over [option]: a loop whose body may panic. *)
Fixpoint foldM {A B} (f : A → B → option A) (a : A) (l : list B) : option A :=
  match l with
  | [] => Some a
  | x :: l' => a' ← f a x; foldM f a' l'
  end.

(** Loop 1 of [NewAnalyzer]: one fresh node per issue of the slice. *)
Definition addIssueNode (a : Analyzer) (issue : Issue) : option Analyzer :=
  let n := NewNode (g a) in
  g' ← AddNode (g a) n;
  Some {| g := g';
          idToNode := <[ID issue := n]> (idToNode a);
          nodeToID := <[n := ID issue]> (nodeToID a);
          issueMap := <[ID issue := issue]> (issueMap a) |}.

(** The state of loop 2: the graph under construction and what the loop
    has reported so far. *)
Record Build := {
  graph : DirectedGraph;
  warnings : list string
}.

(** The body of the inner loop.  The type of [dep] is not read.  A target
    that is not an issue id takes the branch without [else]: the
    dependency is skipped and nothing is reported. *)
Definition addDepEdge (ids : gmap string Z) (u : Z) (b : Build) (dep : Dependency)
  : option Build :=
  match ids !! DependsOnID dep with
  | Some v =>
      g' ← SetEdge (graph b) (NewEdge u v);
      Some {| graph := g'; warnings := warnings b |}
  | None => Some b
  end.

Definition addIssueEdges (ids : gmap string Z) (b : Build) (issue : Issue)
  : option Build :=
  match ids !! ID issue with
  | None => Some b
  | Some u => foldM (addDepEdge ids u) b (Dependencies issue)
  end.

Definition emptyAnalyzer : Analyzer :=
  {| g := NewDirectedGraph; idToNode := ∅; nodeToID := ∅; issueMap := ∅ |}.

(** [NewAnalyzer] together with the warnings it reports. *)
Definition NewAnalyzer_run (issues : list Issue) : option (Analyzer * list string) :=
  a ← foldM addIssueNode emptyAnalyzer issues;
  b ← foldM (addIssueEdges (idToNode a)) {| graph := g a; warnings := [] |} issues;
  Some ({| g := graph b; idToNode := idToNode a; nodeToID := nodeToID a;
           issueMap := issueMap a |}, warnings b).

Definition NewAnalyzer (issues : list Issue) : option Analyzer :=
  fst <$> NewAnalyzer_run issues.

(** ** gonum: [graph/topo.Sort]

    [topo.Sort] walks Go maps, so the order it returns is one of the
    topological orders of the graph, not a fixed one.  Its result is taken
    as given and constrained by its contract: with [err == nil] the slice
    holds every node once and every edge goes from an earlier to a later
    position; [err != nil] is returned when the graph has a cycle. *)

Module topo.

Definition cyclic (g : DirectedGraph) : Prop :=
  ∃ u, tc (HasEdgeFromTo g) u u.

Definition acyclic (g : DirectedGraph) : Prop := ¬ cyclic g.

Definition ordered (g : DirectedGraph) (sorted : list Z) : Prop :=
  sorted ≡ₚ elements (nodes g) ∧
  ∀ i j u v, sorted !! i = Some u → sorted !! j = Some v →
             HasEdgeFromTo g u v → (i < j)%nat.

(** [Some sorted] stands for [(sorted, nil)], [None] for an [Unorderable]
    error. *)
Definition Sort_ok (g : DirectedGraph) (r : option (list Z)) : Prop :=
  match r with
  | Some sorted => ordered g sorted
  | None => cyclic g
  end.

End topo.

(** ** [Analyze] *)

Record GraphStats := {
  PageRank : gmap string Q;
  Betweenness : gmap string Q;
  Eigenvector : gmap string Q;
  Hubs : gmap string Q;
  Authorities : gmap string Q;
  OutDegree : gmap string Z;
  InDegree : gmap string Z;
  CriticalPathScore : gmap string Q;
  Cycles : list (list string);
  Density : Q;
  TopologicalOrder : list string
}.

(** What [Analyze] obtains from outside: the order in which [a.g.Nodes()]
    yields the nodes, the maps returned by the gonum kernels (as the entry
    lists [range] visits), the cycles of [topo.DirectedCyclesIn], and the
    results of the two calls of [topo.Sort], the one in [Analyze] with its
    error and the one in [computeHeights], whose error is discarded.  The
    kernels behind [Eigenvector], [Hubs] and [Authorities] are not in the
    sources. *)
Record Kernels := {
  k_Nodes : list Z;
  k_PageRank : list (Z * Q);
  k_Betweenness : list (Z * Q);
  k_Eigenvector : gmap string Q;
  k_Hubs : gmap string Q;
  k_Authorities : gmap string Q;
  k_Cycles : list (list Z);
  k_Sort : option (list Z);
  k_SortHeights : list Z
}.

Definition Kernels_ok (a : Analyzer) (k : Kernels) : Prop :=
  k_Nodes k ≡ₚ elements (nodes (g a)) ∧
  topo.Sort_ok (g a) (k_Sort k) ∧
  (topo.acyclic (g a) → topo.ordered (g a) (k_SortHeights k)).

(** [a.nodeToID[n]] *)
Definition idOf (a : Analyzer) (n : Z) : string := default "" (nodeToID a !! n).

Definition Qgtb (x y : Q) : bool := negb (Qle_bool x y).

(** The inner loop of [computeHeights] over [a.g.To(nid)]. *)
Definition maxParentHeight (heights : gmap Z Q) (parents : list Z) : Q :=
  foldl (λ mx p,
           match heights !! p with
           | Some h => if Qgtb h mx then h else mx
           | None => mx
           end) 0%Q parents.

Definition heightStep (a : Analyzer) (st : gmap Z Q * gmap string Q) (nid : Z)
  : gmap Z Q * gmap string Q :=
  let h := (1 + maxParentHeight st.1 (To (g a) nid))%Q in
  (<[nid := h]> st.1, <[idOf a nid := h]> st.2).

Definition computeHeights_loop (a : Analyzer) (sorted : list Z)
  : gmap Z Q * gmap string Q :=
  foldl (heightStep a) (∅, ∅) sorted.

Definition computeHeights (a : Analyzer) (sorted : list Z) : gmap string Q :=
  (computeHeights_loop a sorted).2.

Definition degreeStep (a : Analyzer) (st : gmap string Z * gmap string Z) (n : Z)
  : gmap string Z * gmap string Z :=
  (<[idOf a n := Z.of_nat (length (To (g a) n))]> st.1,
   <[idOf a n := Z.of_nat (length (From (g a) n))]> st.2).

Definition byID (a : Analyzer) (scores : list (Z * Q)) : gmap string Q :=
  foldl (λ m e, <[idOf a e.1 := e.2]> m) ∅ scores.

Definition density (n e : Q) : Q :=
  if Qgtb n 1 then (e / (n * (n - 1)))%Q else 0%Q.

Definition Analyze (a : Analyzer) (k : Kernels) : GraphStats :=
  let deg := foldl (degreeStep a) (∅, ∅) (k_Nodes k) in
  let pr := byID a (k_PageRank k) in
  {| PageRank := pr;
     Betweenness := byID a (k_Betweenness k);
     Eigenvector := k_Eigenvector k;
     Hubs := k_Hubs k;
     Authorities := k_Authorities k;
     InDegree := deg.1;
     OutDegree := deg.2;
     Cycles := (λ c : list Z, idOf a <$> c) <$> k_Cycles k;
     TopologicalOrder :=
       match k_Sort k with
       | Some sorted => idOf a <$> reverse sorted
       | None => []
       end;
     CriticalPathScore :=
       match k_Sort k with
       | Some _ => computeHeights a (k_SortHeights k)
       | None => ∅
       end;
     Density := density (inject_Z (Z.of_nat (size pr)))
                        (inject_Z (Z.of_nat (length (Edges (g a))))) |}.

(** [stats.CriticalPathScore[id]] *)
Definition score (s : GraphStats) (id : string) : Q :=
  default 0%Q (CriticalPathScore s !! id).

(** ** [GenerateInsights] and [getTopItems] *)

Record InsightItem := { ItemID : string; Value : Q }.

Record Insights := {
  Bottlenecks : list InsightItem;
  Keystones : list InsightItem;
  Influencers : list InsightItem;
  Hubs_ : list InsightItem;
  Authorities_ : list InsightItem;
  Orphans : list string;
  Cycles_ : list (list string);
  ClusterDensity : Q;
  Stats : GraphStats
}.

(** The local [kv] of [getTopItems] and the closure handed to
    [sort.Slice]: [ss[i].Value > ss[j].Value]. *)
Definition kv := (string * Q)%type.

Definition less (x y : kv) : bool := Qgtb x.2 y.2.

(** [for k, v := range m]: some enumeration of the entries. *)
Definition range_order (m : gmap string Q) (ss : list kv) : Prop :=
  ss ≡ₚ map_to_list m.

(** What [sort.Slice] promises: the same elements, none of them [less]
    than an earlier one.  Equal elements may end up in any order. *)
Definition sort_Slice_post {A} (less : A → A → bool) (before after : list A) : Prop :=
  after ≡ₚ before ∧ StronglySorted (λ x y, less y x = false) after.

(** What [sort.Slice] runs on slices of at most 12 elements,
    [insertionSortLessFunc]: each element in turn sinks towards the front
    while it is [less] than its left neighbour.  [sinkLeft] works on the
    reversed prefix. *)
Fixpoint sinkLeft {A} (less : A → A → bool) (x : A) (rp : list A) : list A :=
  match rp with
  | [] => [x]
  | y :: rp' => if less x y then y :: sinkLeft less x rp' else x :: rp
  end.

Definition insertionSort {A} (less : A → A → bool) (l : list A) : list A :=
  reverse (foldl (λ rp x, sinkLeft less x rp) [] l).

(** The copying loop [for i := 0; i < len(ss) && i < limit; i++]. *)
Definition firstN (limit : Z) (ss : list kv) : list InsightItem :=
  (λ e, {| ItemID := e.1; Value := e.2 |}) <$> take (Z.to_nat limit) ss.

Inductive getTopItems (m : gmap string Q) (limit : Z) : list InsightItem → Prop :=
| getTopItems_run ss sorted :
    range_order m ss →
    sort_Slice_post less ss sorted →
    getTopItems m limit (firstN limit sorted).

(** The run of [getTopItems] in which [range] visits the entries in the
    order [ss] and the slice is short enough for insertion sort. *)
Definition getTopItems_visiting (ss : list kv) (limit : Z) : list InsightItem :=
  firstN limit (insertionSort less ss).

(** [GenerateInsights]: the literal names eight of the nine fields;
    [Orphans] is not among them and keeps its zero value. *)
Inductive GenerateInsights (s : GraphStats) (limit : Z) : Insights → Prop :=
| GenerateInsights_run b k i h au :
    getTopItems (Betweenness s) limit b →
    getTopItems (CriticalPathScore s) limit k →
    getTopItems (Eigenvector s) limit i →
    getTopItems (Hubs s) limit h →
    getTopItems (Authorities s) limit au →
    GenerateInsights s limit
      {| Bottlenecks := b; Keystones := k; Influencers := i; Hubs_ := h;
         Authorities_ := au; Orphans := []; Cycles_ := Cycles s;
         ClusterDensity := Density s; Stats := s |}.

(** One run of the pipeline of [cmd/bv]: [NewAnalyzer], [Analyze],
    [GenerateInsights]. *)
Definition pipeline (issues : list Issue) (limit : Z) (out : Insights) : Prop :=
  ∃ a k, NewAnalyzer issues = Some a ∧ Kernels_ok a k ∧
         GenerateInsights (Analyze a k) limit out.

(** ** Package loader: [toModelIssue] *)

Module loader.

(** [protoIssue]: the JSON shape of the daemon's response. *)
Record protoIssue := {
  p_ID : string;
  p_Title : string;
  p_Description : string;
  p_Status : string;
  p_Type : string;
  p_Priority : Z;
  p_CreatedAt : string;
  p_UpdatedAt : string;
  p_ClosedAt : string;
  p_Parent : string;
  p_Assignee : string;
  p_CreatedBy : string;
  p_Labels : list string;
  p_Children : list string;
  p_DependsOn : list string;
  p_Blocks : list string;
  p_BlockedBy : list string;
  p_HookBead : string;
  p_AgentState : string
}.

(** The three [fmt.Errorf] results of [toModelIssue]. *)
Inductive error := InvalidCreatedAt | InvalidUpdatedAt | InvalidClosedAt.

Definition protoStatusMap : gmap string Status :=
  list_to_map
    [("ISSUE_STATUS_OPEN", StatusOpen);
     ("ISSUE_STATUS_IN_PROGRESS", StatusInProgress);
     ("ISSUE_STATUS_BLOCKED", StatusBlocked);
     ("ISSUE_STATUS_DEFERRED", StatusDeferred);
     ("ISSUE_STATUS_PINNED", StatusPinned);
     ("ISSUE_STATUS_HOOKED", StatusHooked);
     ("ISSUE_STATUS_CLOSED", StatusClosed);
     ("ISSUE_STATUS_TOMBSTONE", StatusTombstone)].

Definition protoTypeMap : gmap string IssueType :=
  list_to_map
    [("ISSUE_TYPE_TASK", TypeTask);
     ("ISSUE_TYPE_BUG", TypeBug);
     ("ISSUE_TYPE_FEATURE", TypeFeature);
     ("ISSUE_TYPE_EPIC", TypeEpic);
     ("ISSUE_TYPE_CHORE", TypeChore)].

(** [strings.TrimPrefix] *)
Definition TrimPrefix (s pre : string) : string :=
  if String.prefix pre s
  then String.substring (String.length pre) (String.length s - String.length pre) s
  else s.

(** [seen[dep]] on a [map[string]bool] *)
Definition seenHas (seen : gmap string bool) (dep : string) : bool :=
  default false (seen !! dep).

(** The body shared by the loops over [DependsOn] and [BlockedBy]. *)
Definition flattenStep (id : string) (st : gmap string bool * list Dependency)
    (dep : string) : gmap string bool * list Dependency :=
  if bool_decide (dep = "") || seenHas st.1 dep then st
  else (<[dep := true]> st.1,
        st.2 ++ [{| IssueID := id; DependsOnID := dep; Type_ := DepBlocks |}]).

Section toModel.

(** [time.Parse(time.RFC3339, s)] and [strings.ToLower] of the Go
    standard library. *)
Variable time_Parse_RFC3339 : string → option Time.
Variable strings_ToLower : string → string.

Definition mapProtoStatus (s : string) : Status :=
  match protoStatusMap !! s with
  | Some v => v
  | None => strings_ToLower (TrimPrefix s "ISSUE_STATUS_")
  end.

Definition mapProtoType (s : string) : IssueType :=
  match protoTypeMap !! s with
  | Some v => v
  | None => strings_ToLower (TrimPrefix s "ISSUE_TYPE_")
  end.

Definition parseProtoTime (s : string) : option Time :=
  if decide (s = "") then Some zeroTime else time_Parse_RFC3339 s.

Definition flatten (p : protoIssue) : list Dependency :=
  let st1 := foldl (flattenStep (p_ID p)) (∅, []) (p_DependsOn p) in
  let st2 := foldl (flattenStep (p_ID p)) st1 (p_BlockedBy p) in
  if bool_decide (p_Parent p ≠ "") && negb (seenHas st2.1 (p_Parent p))
  then st2.2 ++ [{| IssueID := p_ID p; DependsOnID := p_Parent p;
                    Type_ := DepParentChild |}]
  else st2.2.

Definition toModelIssue (p : protoIssue) : Issue + error :=
  match parseProtoTime (p_CreatedAt p) with
  | None => inr InvalidCreatedAt
  | Some createdAt =>
    match parseProtoTime (p_UpdatedAt p) with
    | None => inr InvalidUpdatedAt
    | Some updatedAt =>
      let closedAt :=
        if decide (p_ClosedAt p = "") then Some None
        else Some <$> parseProtoTime (p_ClosedAt p) in
      match closedAt with
      | None => inr InvalidClosedAt
      | Some closed =>
        inl {| ID := p_ID p;
               Title := p_Title p;
               Description := p_Description p;
               Status_ := mapProtoStatus (p_Status p);
               IssueType_ := mapProtoType (p_Type p);
               Priority := p_Priority p;
               CreatedAt := createdAt;
               UpdatedAt := updatedAt;
               ClosedAt := closed;
               Assignee := p_Assignee p;
               Labels := p_Labels p;
               Dependencies := flatten p |}
      end
    end
  end.

End toModel.

End loader.

(** ** Auxiliary notions used in the statements *)

(** The edge stored for the ordered pair [(u, v)] in [g.from], resp. in
    [g.to]. *)
Definition efrom (g : DirectedGraph) (u v : Z) : option Edge :=
  default ∅ (from g !! u) !! v.

Definition eto (g : DirectedGraph) (v u : Z) : option Edge :=
  default ∅ (to g !! v) !! u.

(** Consistency of the two adjacency maps of a gonum graph. *)
Record wf (g : DirectedGraph) : Prop := {
  wf_edge : ∀ u v e, efrom g u v = Some e →
                     e = NewEdge u v ∧ u ∈ nodes g ∧ v ∈ nodes g ∧ u ≠ v;
  wf_to : ∀ u v, eto g v u = efrom g u v
}.

(** The nodes [0, 1, ..., n-1]. *)
Definition firstNodes (n : nat) : gset Z :=
  list_to_set (Z.of_nat <$> seq 0 n).

(** An issue that lists itself among its dependencies. *)
Definition selfDependent (issue : Issue) : Prop :=
  ∃ dep, dep ∈ Dependencies issue ∧ DependsOnID dep = ID issue.

Global Instance selfDependent_dec issue : Decision (selfDependent issue).
Proof.
  unfold selfDependent.
  destruct (decide (Exists (λ dep, DependsOnID dep = ID issue) (Dependencies issue)))
    as [H|H]; [left|right]; rewrite Exists_exists in H; naive_solver.
Defined.

(** Some dependency of the input, of whatever type, leads from the
    issue of node [u] to the issue of node [v]. *)
Definition linked (issues : list Issue) (ids : gmap string Z) (u v : Z) : Prop :=
  ∃ issue dep, issue ∈ issues ∧ dep ∈ Dependencies issue ∧
               ids !! ID issue = Some u ∧ ids !! DependsOnID dep = Some v.

Definition withDeps (issue : Issue) (deps : list Dependency) : Issue :=
  {| ID := ID issue; Title := Title issue; Description := Description issue;
     Status_ := Status_ issue; IssueType_ := IssueType_ issue;
     Priority := Priority issue; CreatedAt := CreatedAt issue;
     UpdatedAt := UpdatedAt issue; ClosedAt := ClosedAt issue;
     Assignee := Assignee issue; Labels := Labels issue;
     Dependencies := deps |}.

(** What [NewAnalyzer] builds apart from [issueMap] (which stores the
    input records themselves), with the warnings reported. *)
Definition built (r : option (Analyzer * list string))
  : option (DirectedGraph * gmap string Z * gmap Z string * list string) :=
  (λ aw : Analyzer * list string,
     (g aw.1, idToNode aw.1, nodeToID aw.1, aw.2)) <$> r.

(** Number of edges from [u] to [v] that [g.Edges()] lists. *)
Definition edgeCount (g : DirectedGraph) (u v : Z) : nat :=
  length (filter (λ e, F e = u ∧ T e = v) (Edges g)).

(** What loop 1 of [NewAnalyzer] establishes: nodes [0 .. n-1], no edge
    yet, the two id maps. *)
Record nodesBuilt (issues : list Issue) (a : Analyzer) : Prop := {
  nb_nodes : nodes (g a) = firstNodes (length issues);
  nb_maxID : maxID (g a) = Z.of_nat (length issues) - 1;
  nb_from : from (g a) = ∅;
  nb_to : to (g a) = ∅;
  nb_nodeToID : ∀ i : nat, nodeToID a !! Z.of_nat i = ID <$> issues !! i;
  nb_range : ∀ z s, nodeToID a !! z = Some s → z ∈ firstNodes (length issues);
  nb_back : ∀ s z, idToNode a !! s = Some z → nodeToID a !! z = Some s;
  nb_dom : ∀ s, is_Some (idToNode a !! s) ↔ s ∈ ID <$> issues;
  nb_unique : NoDup (ID <$> issues) →
              ∀ z s, nodeToID a !! z = Some s → idToNode a !! s = Some z
}.

(** What [NewAnalyzer] establishes when it returns. *)
Record analyzerBuilt (issues : list Issue) (a : Analyzer) : Prop := {
  ab_nodes : nodes (g a) = firstNodes (length issues);
  ab_wf : wf (g a);
  ab_edges : ∀ x y, HasEdgeFromTo (g a) x y ↔ linked issues (idToNode a) x y;
  ab_nodeToID : ∀ i : nat, nodeToID a !! Z.of_nat i = ID <$> issues !! i;
  ab_range : ∀ z s, nodeToID a !! z = Some s → z ∈ firstNodes (length issues);
  ab_back : ∀ s z, idToNode a !! s = Some z → nodeToID a !! z = Some s;
  ab_dom : ∀ s, is_Some (idToNode a !! s) ↔ s ∈ ID <$> issues;
  ab_unique : NoDup (ID <$> issues) →
              ∀ z s, nodeToID a !! z = Some s → idToNode a !! s = Some z
}.

(** The reading of the graph builder in which only [blocks] and
    [parent-child] dependencies count. *)
Definition isGraphType (t : DependencyType) : Prop :=
  t = DepBlocks ∨ t = DepParentChild.

Definition linkedTyped (issues : list Issue) (ids : gmap string Z) (u v : Z) : Prop :=
  ∃ issue dep, issue ∈ issues ∧ dep ∈ Dependencies issue ∧
               isGraphType (Type_ dep) ∧
               ids !! ID issue = Some u ∧ ids !! DependsOnID dep = Some v.

(** The analyzer of an input on which [NewAnalyzer] returns. *)
Definition analyzerOf (issues : list Issue) : Analyzer :=
  default emptyAnalyzer (NewAnalyzer issues).

(** ** Sample inputs *)

Definition mkDep (u v : string) (t : DependencyType) : Dependency :=
  {| IssueID := u; DependsOnID := v; Type_ := t |}.

Definition mkIssue (id : string) (deps : list Dependency) : Issue :=
  {| ID := id; Title := ""; Description := ""; Status_ := StatusOpen;
     IssueType_ := TypeTask; Priority := 2; CreatedAt := zeroTime;
     UpdatedAt := zeroTime; ClosedAt := None; Assignee := ""; Labels := [];
     Dependencies := deps |}.

(** A depends on B through a [related] dependency. *)
Definition issuesRelated : list Issue :=
  [mkIssue "A" [mkDep "A" "B" DepRelated]; mkIssue "B" []].

(** A depends on itself. *)
Definition issuesSelf : list Issue :=
  [mkIssue "A" [mkDep "A" "A" DepBlocks]].

(** A both is blocked by B and is a child of B. *)
Definition issuesBoth : list Issue :=
  [mkIssue "A" [mkDep "A" "B" DepBlocks; mkDep "A" "B" DepParentChild];
   mkIssue "B" []].

(** A depends on an id that no issue has. *)
Definition issuesDangling : list Issue :=
  [mkIssue "A" [mkDep "A" "ghost" DepBlocks]].

(** A depends on B and on an id that no issue has. *)
Definition issuesGhost : list Issue :=
  [mkIssue "A" [mkDep "A" "B" DepBlocks; mkDep "A" "ghost" DepBlocks];
   mkIssue "B" []].

(** A depends on B. *)
Definition issuesAB : list Issue :=
  [mkIssue "A" [mkDep "A" "B" DepBlocks]; mkIssue "B" []].

(** The chain A -> B -> C. *)
Definition issuesChain : list Issue :=
  [mkIssue "A" [mkDep "A" "B" DepBlocks];
   mkIssue "B" [mkDep "B" "C" DepBlocks];
   mkIssue "C" []].

(** Two issues without dependencies. *)
Definition issuesTwo : list Issue := [mkIssue "a" []; mkIssue "b" []].

(** A single issue without dependencies. *)
Definition issuesW : list Issue := [mkIssue "W" []].

(** Kernel results with empty centrality maps. *)
Definition kernelsFor (ns : list Z) (sorted : option (list Z)) (sorted' : list Z)
  : Kernels :=
  {| k_Nodes := ns; k_PageRank := []; k_Betweenness := [];
     k_Eigenvector := ∅; k_Hubs := ∅; k_Authorities := ∅; k_Cycles := [];
     k_Sort := sorted; k_SortHeights := sorted' |}.

(** The state of the loop of [computeHeights] after the nodes [P]. *)
Record heightsInv (a : Analyzer) (P : list Z) (st : gmap Z Q * gmap string Q)
  : Prop := {
  hi_dom : ∀ n, is_Some (st.1 !! n) ↔ n ∈ P;
  hi_rec : ∀ n, n ∈ P →
           st.1 !! n = Some (1 + maxParentHeight st.1 (To (g a) n))%Q;
  hi_score : ∀ n, n ∈ P → st.2 !! idOf a n = st.1 !! n;
  hi_keys : ∀ s h, st.2 !! s = Some h → ∃ n, n ∈ P ∧ s = idOf a n;
  hi_pos : ∀ n h, st.1 !! n = Some h → (1 <= h)%Q
}.

(** [m] is the largest of the values [h u] over the edges [u -> v], and
    [0] when there is no such edge. *)
Definition maxOverParents (g : DirectedGraph) (h : Z → Q) (v : Z) (m : Q) : Prop :=
  (∀ u, HasEdgeFromTo g u v → (h u <= m)%Q) ∧
  ((m = 0%Q ∧ ∀ u, ¬ HasEdgeFromTo g u v) ∨
   (∃ u, HasEdgeFromTo g u v ∧ m = h u)).

(** A top-N list drawn from the metric map [m]: as many entries as the
    limit and the map allow, each an entry of [m], in order of
    non-increasing metric value. *)
Definition topN (m : gmap string Q) (limit : Z) (l : list InsightItem) : Prop :=
  length l = Nat.min (Z.to_nat limit) (size m) ∧
  (∀ x, x ∈ l → m !! ItemID x = Some (Value x)) ∧
  ∀ i j x y, l !! i = Some x → l !! j = Some y → (i < j)%nat →
             (Value y <= Value x)%Q.

(** The order with tie-break: metric value descending, and among equal
    values the issue id ascending in the byte-wise order of strings. *)
Definition sortedWithTieBreak (l : list InsightItem) : Prop :=
  ∀ i j x y, l !! i = Some x → l !! j = Some y → (i < j)%nat →
             (Value y < Value x)%Q ∨
             ((Value x == Value y)%Q ∧ String.ltb (ItemID x) (ItemID y) = true).

(** Two lists carry the same metric values, position by position. *)
Definition sameValues (l1 l2 : list InsightItem) : Prop :=
  Forall2 (λ x y, (Value x == Value y)%Q) l1 l2.

(** A graph in which A depends on B and B on A. *)
Definition issuesCycle : list Issue :=
  [mkIssue "A" [mkDep "A" "B" DepBlocks]; mkIssue "B" [mkDep "B" "A" DepBlocks]].

(** Kernel results for [issuesTwo]. *)
Definition kernelsTwo : Kernels := kernelsFor [0; 1] (Some [0; 1]) [0; 1].

(** The insights of [issuesTwo] in which [range] meets the critical-path
    scores in the order [first], [second]. *)
Definition insightsTwo (first second : string) : Insights :=
  let s := Analyze (analyzerOf issuesTwo) kernelsTwo in
  {| Bottlenecks := getTopItems_visiting [] 50;
     Keystones := getTopItems_visiting [(first, 1%Q); (second, 1%Q)] 50;
     Influencers := getTopItems_visiting [] 50;
     Hubs_ := getTopItems_visiting [] 50;
     Authorities_ := getTopItems_visiting [] 50;
     Orphans := [];
     Cycles_ := Cycles s;
     ClusterDensity := Density s;
     Stats := s |}.

(** The state of the flattening loops of [toModelIssue]: [seen] holds
    exactly the targets emitted so far, each once, all as [blocks]
    dependencies of the issue [id]. *)
Record flatInv (id : string) (st : gmap string bool * list Dependency) : Prop := {
  fi_seen : ∀ d, loader.seenHas st.1 d = true ↔ d ∈ DependsOnID <$> st.2;
  fi_nodup : NoDup (DependsOnID <$> st.2);
  fi_shape : ∀ dep, dep ∈ st.2 →
             dep = mkDep id (DependsOnID dep) DepBlocks ∧ DependsOnID dep ≠ ""
}.

(** The wire record [p] with other [blocks] and [children] arrays. *)
Definition withInverse (p : loader.protoIssue) (blocks children : list string)
  : loader.protoIssue :=
  {| loader.p_ID := loader.p_ID p;
     loader.p_Title := loader.p_Title p;
     loader.p_Description := loader.p_Description p;
     loader.p_Status := loader.p_Status p;
     loader.p_Type := loader.p_Type p;
     loader.p_Priority := loader.p_Priority p;
     loader.p_CreatedAt := loader.p_CreatedAt p;
     loader.p_UpdatedAt := loader.p_UpdatedAt p;
     loader.p_ClosedAt := loader.p_ClosedAt p;
     loader.p_Parent := loader.p_Parent p;
     loader.p_Assignee := loader.p_Assignee p;
     loader.p_CreatedBy := loader.p_CreatedBy p;
     loader.p_Labels := loader.p_Labels p;
     loader.p_Children := children;
     loader.p_DependsOn := loader.p_DependsOn p;
     loader.p_Blocks := blocks;
     loader.p_BlockedBy := loader.p_BlockedBy p;
     loader.p_HookBead := loader.p_HookBead p;
     loader.p_AgentState := loader.p_AgentState p |}.

Definition mkProto (id parent : string) (dependsOn blockedBy blocks children : list string)
  : loader.protoIssue :=
  {| loader.p_ID := id; loader.p_Title := "Test issue";
     loader.p_Description := "";
     loader.p_Status := "ISSUE_STATUS_OPEN"; loader.p_Type := "ISSUE_TYPE_TASK";
     loader.p_Priority := 0;
     loader.p_CreatedAt := ""; loader.p_UpdatedAt := ""; loader.p_ClosedAt := "";
     loader.p_Parent := parent; loader.p_Assignee := ""; loader.p_CreatedBy := "";
     loader.p_Labels := []; loader.p_Children := children;
     loader.p_DependsOn := dependsOn; loader.p_Blocks := blocks;
     loader.p_BlockedBy := blockedBy;
     loader.p_HookBead := ""; loader.p_AgentState := "" |}.

(** The record of the repository's flattening test. *)
Definition protoTest : loader.protoIssue :=
  mkProto "bv-1" "bv-7" ["bv-2"; "bv-3"] ["bv-3"; "bv-4"] ["bv-5"] ["bv-6"].

(** A record whose parent is also listed in [dependsOn]. *)
Definition protoParentListed : loader.protoIssue :=
  mkProto "bv-1" "bv-7" ["bv-7"] [] [] [].

(** The issue [toModelIssue] makes of a record without timestamps, with
    [inl]'s default for a rejected record. *)
Definition mkIssueOf (p : loader.protoIssue) : Issue :=
  match loader.toModelIssue (λ _, None) (λ s, s) p with
  | inl issue => issue
  | inr _ => mkIssue "" []
  end.

(** Closed goals about a concrete graph are settled by evaluation. *)
Ltac by_evaluation := apply (bool_decide_unpack _); vm_compute; exact Logic.I.

Ltac concrete_ordered :=
  split;
  [ by_evaluation
  | let i := fresh "i" in let j := fresh "j" in
    let He := fresh "He" in
    intros i j ? ? ? ? He;
    repeat (destruct i as [|i]; simplify_eq/=; try done);
    repeat (destruct j as [|j]; simplify_eq/=; try done);
    try lia; exfalso; revert He; by_evaluation ].


(** ** Further sample inputs *)

(** Two issues with the same id A, the first depending on B. *)
Definition issuesDuplicate : list Issue :=
  [mkIssue "A" [mkDep "A" "B" DepBlocks]; mkIssue "B" [];
   withDeps (mkIssue "A" []) []].

(** ** Notions used in the statements about [Analyze] *)

(** The ids of input issues among the dependency targets of [issue]. *)
Definition knownTargets (issues : list Issue) (issue : Issue) : gset string :=
  list_to_set (filter (λ s, s ∈ ID <$> issues)
                      (DependsOnID <$> Dependencies issue)).

(** The ids of the input issues that list [issue] as a dependency target. *)
Definition dependents (issues : list Issue) (issue : Issue) : gset string :=
  list_to_set (ID <$> filter (λ i, ID issue ∈ DependsOnID <$> Dependencies i)
                             issues).


(** Kernel results in which PageRank and betweenness give [scores]. *)
Definition kernelsScored (ns : list Z) (sorted : option (list Z)) (sorted' : list Z)
    (scores : list (Z * Q)) : Kernels :=
  {| k_Nodes := ns; k_PageRank := scores; k_Betweenness := scores;
     k_Eigenvector := ∅; k_Hubs := ∅; k_Authorities := ∅; k_Cycles := [];
     k_Sort := sorted; k_SortHeights := sorted' |}.

Definition scoresThree : list (Z * Q) := [(1, 0.5%Q); (0, 0.25%Q); (2, 0.25%Q)].

(** gonum's results on the chain A -> B -> C, resp. on [issuesDuplicate]
    (whose only edge leads from node 2 to node 1). *)
Definition kernelsChain : Kernels :=
  kernelsScored [0; 1; 2] (Some [0; 1; 2]) [0; 1; 2] scoresThree.


(** ** Notions used in the statements about [getTopItems] *)

Definition entryOf (x : InsightItem) : kv := (ItemID x, Value x).

Definition metricThree : gmap string Q :=
  <["a" := 1%Q]> (<["b" := 3%Q]> (<["c" := 2%Q]> ∅)).

(** ** Notions used in the statements about package loader *)

(** A timestamp [parseProtoTime] accepts. *)
Definition timeOk (parse : string → option Time) (s : string) : Prop :=
  s = "" ∨ is_Some (parse s).

(** The elements of [l] in the order of their first occurrence. *)
Fixpoint keepFirst (l : list string) : list string :=
  match l with
  | [] => []
  | x :: l' => x :: filter (λ y, y ≠ x) (keepFirst l')
  end.

(** [strings.ToLower] on a string of ASCII bytes. *)
Definition lowerByte (c : Ascii.ascii) : Ascii.ascii :=
  let n := Ascii.nat_of_ascii c in
  if ((65 <=? n) && (n <=? 90))%nat then Ascii.ascii_of_nat (n + 32) else c.

Fixpoint ToLowerASCII (s : string) : string :=
  match s with
  | EmptyString => EmptyString
  | String c s' => String (lowerByte c) (ToLowerASCII s')
  end.

Fixpoint isASCII (s : string) : bool :=
  match s with
  | EmptyString => true
  | String c s' => (Ascii.nat_of_ascii c <? 128)%nat && isASCII s'
  end.

(** A wire record with the three timestamps given. *)
Definition withTimes (p : loader.protoIssue) (created updated closed : string)
  : loader.protoIssue :=
  {| loader.p_ID := loader.p_ID p;
     loader.p_Title := loader.p_Title p;
     loader.p_Description := loader.p_Description p;
     loader.p_Status := loader.p_Status p;
     loader.p_Type := loader.p_Type p;
     loader.p_Priority := loader.p_Priority p;
     loader.p_CreatedAt := created;
     loader.p_UpdatedAt := updated;
     loader.p_ClosedAt := closed;
     loader.p_Parent := loader.p_Parent p;
     loader.p_Assignee := loader.p_Assignee p;
     loader.p_CreatedBy := loader.p_CreatedBy p;
     loader.p_Labels := loader.p_Labels p;
     loader.p_Children := loader.p_Children p;
     loader.p_DependsOn := loader.p_DependsOn p;
     loader.p_Blocks := loader.p_Blocks p;
     loader.p_BlockedBy := loader.p_BlockedBy p;
     loader.p_HookBead := loader.p_HookBead p;
     loader.p_AgentState := loader.p_AgentState p |}.

(** ** [loadIssuesFromURL] *)

(** [strings.TrimRight(s, cutset)] for a cutset of the one ASCII byte
    [c]: the trailing run of [c] is dropped. *)
Fixpoint TrimRight (s : string) (c : Ascii.ascii) : string :=
  match s with
  | EmptyString => EmptyString
  | String a s' =>
    match TrimRight s' c with
    | EmptyString => if decide (a = c) then EmptyString else String a EmptyString
    | t => String a t
    end
  end.

Module http.

Record Request := {
  Method : string;
  URL : string;
  ContentType : string;
  Payload : string
}.

(** The response as the function reads it: the status code, the bytes of
    the body, and whether reading the body ends in an error. *)
Record Response := {
  StatusCode : Z;
  Body : string;
  BodyErr : bool
}.

Definition StatusOK : Z := 200.

End http.

(** [ParseOptions]: whether a [WarningHandler] is set, and the
    [IssueFilter] when one is set. *)
Record ParseOptions := {
  WarningHandler : bool;
  IssueFilter : option (Issue → bool)
}.

(** The two messages handed to the warning handler:
    "skipping issue: <error of toModelIssue>" and
    "skipping invalid issue <id>: <error of Validate>". *)
Inductive warning :=
| SkippingIssue (id : string) (e : loader.error)
| SkippingInvalid (id : string) (reason : string).

(** The five [fmt.Errorf] results of [loadIssuesFromURL]. *)
Inductive loadError :=
| CreateRequestFailed
| RequestFailed (endpoint : string)
| DaemonReturned (code : Z) (body : string)
| ReadBodyFailed
| ParseJSONFailed.

(** [issue.Status = s] *)
Definition withStatus (issue : Issue) (s : Status) : Issue :=
  {| ID := ID issue; Title := Title issue; Description := Description issue;
     Status_ := s; IssueType_ := IssueType_ issue;
     Priority := Priority issue; CreatedAt := CreatedAt issue;
     UpdatedAt := UpdatedAt issue; ClosedAt := ClosedAt issue;
     Assignee := Assignee issue; Labels := Labels issue;
     Dependencies := Dependencies issue |}.

Section load.

(** The Go standard library ([time.Parse], [strings.ToLower],
    [json.Unmarshal] into [listIssuesResponse], the validity check of
    [http.NewRequestWithContext]) and the two functions of the package
    that the loop calls. *)
Variable time_Parse_RFC3339 : string → option Time.
Variable strings_ToLower : string → string.
Variable json_Unmarshal : string → option (list loader.protoIssue).
Variable http_NewRequest : http.Request → bool.
Variable normalizeIssueStatus : Status → Status.
Variable Validate : Issue → option string.

(** [warn(msg)]: without handler the message goes to [io.Discard]. *)
Definition warn (opts : ParseOptions) (log : list warning) (w : warning)
  : list warning :=
  if WarningHandler opts then log ++ [w] else log.

(** One round of the loop over [listResp.Issues]. *)
Definition loadStep (opts : ParseOptions) (st : list Issue * list warning)
    (p : loader.protoIssue) : list Issue * list warning :=
  match loader.toModelIssue time_Parse_RFC3339 strings_ToLower p with
  | inr e => (st.1, warn opts st.2 (SkippingIssue (loader.p_ID p) e))
  | inl issue =>
    let issue := withStatus issue (normalizeIssueStatus (Status_ issue)) in
    match Validate issue with
    | Some reason => (st.1, warn opts st.2 (SkippingInvalid (ID issue) reason))
    | None =>
      match IssueFilter opts with
      | Some keep => if keep issue then (st.1 ++ [issue], st.2) else st
      | None => (st.1 ++ [issue], st.2)
      end
    end
  end.

Definition loadLoop (opts : ParseOptions) (records : list loader.protoIssue)
  : list Issue * list warning :=
  foldl (loadStep opts) ([], []) records.

(** The byte of the character [/]. *)
Definition slash : Ascii.ascii := Ascii.ascii_of_nat 47.

Definition endpointOf (baseURL : string) : string :=
  TrimRight baseURL slash +:+ "/gastown.v1.BeadsService/ListIssues".

(** The double quote, and the request body with its four quoted parts. *)
Definition dq : string := String (Ascii.ascii_of_nat 34) EmptyString.

Definition listIssuesBody : string :=
  "{" +:+ dq +:+ "status" +:+ dq +:+ ":" +:+ dq +:+ dq +:+ ","
      +:+ dq +:+ "limit" +:+ dq +:+ ":0}".

Definition requestOf (baseURL : string) : http.Request :=
  {| http.Method := "POST"; http.URL := endpointOf baseURL;
     http.ContentType := "application/json";
     http.Payload := listIssuesBody |}.

(** [loadIssuesFromURL]: the result together with the warnings handed to
    the handler.  [client] is [client.Do], with [None] for a transport
    error. *)
Definition loadIssuesFromURL (baseURL : string) (opts : ParseOptions)
    (client : http.Request → option http.Response)
  : (list Issue + loadError) * list warning :=
  let req := requestOf baseURL in
  if negb (http_NewRequest req) then (inr CreateRequestFailed, [])
  else
    match client req with
    | None => (inr (RequestFailed (endpointOf baseURL)), [])
    | Some resp =>
      if decide (http.StatusCode resp ≠ http.StatusOK)
      then (inr (DaemonReturned (http.StatusCode resp)
                   (String.substring 0 1024 (http.Body resp))), [])
      else if http.BodyErr resp then (inr ReadBodyFailed, [])
      else
        match json_Unmarshal (http.Body resp) with
        | None => (inr ParseJSONFailed, [])
        | Some records =>
          let r := loadLoop opts records in (inl r.1, r.2)
        end
    end.

(** What the loop makes of one record when it keeps it. *)
Definition accepted (opts : ParseOptions) (p : loader.protoIssue) : option Issue :=
  match loader.toModelIssue time_Parse_RFC3339 strings_ToLower p with
  | inr _ => None
  | inl issue =>
    let issue := withStatus issue (normalizeIssueStatus (Status_ issue)) in
    match Validate issue with
    | Some _ => None
    | None =>
      match IssueFilter opts with
      | Some keep => if keep issue then Some issue else None
      | None => Some issue
      end
    end
  end.

End load.

(** ** cmd/bv: [formatCycle], [applyRecipeFilters], [applyRecipeSort] *)

Definition formatCycle (cycle : list string) : string :=
  match cycle with
  | [] => "(empty)"
  | first :: rest =>
    foldl (λ result c, result +:+ (" → " +:+ c)) first rest +:+ (" → " +:+ first)
  end.

(** The fields of package recipe that cmd/bv reads. *)
Module recipe.

Record FilterConfig := {
  Status : list string;
  Priority : list Z;
  Tags : list string;
  ExcludeTags : list string;
  CreatedAfter : string;
  CreatedBefore : string;
  UpdatedAfter : string;
  UpdatedBefore : string;
  HasBlockers : option bool;
  Actionable : option bool;
  TitleContains : string;
  IDPrefix : string
}.

Record SortConfig := { Field : string; Direction : string }.

Record Recipe := { Filters : FilterConfig; Sort : SortConfig }.

End recipe.

(** [t.IsZero()], [t.Before(u)] and [t.After(u)] *)
Definition IsZero (t : Time) : bool := bool_decide (t = zeroTime).
Definition Before (t u : Time) : bool := bool_decide (t < u).
Definition After (t u : Time) : bool := bool_decide (u < t).

(** The loop that fills [openBlockers], and [openBlockers[id]]. *)
Definition openBlockersOf (issues : list Issue) : gmap string bool :=
  foldl (λ m issue,
           if decide (Status_ issue ≠ StatusClosed) then <[ID issue := true]> m
           else m) ∅ issues.

Definition hasOpenBlockers (openBlockers : gmap string bool) (issue : Issue) : bool :=
  existsb (λ dep, bool_decide (Type_ dep = DepBlocks)
                  && default false (openBlockers !! DependsOnID dep))
          (Dependencies issue).

Section recipes.

(** [time.Now()], [recipe.ParseRelativeTime] and three functions of
    package strings. *)
Variable now : Time.
Variable ParseRelativeTime : string → Time → option Time.
Variable strings_EqualFold : string → string → bool.
Variable strings_ToLower : string → string.
Variable strings_Contains : string → string → bool.

Definition statusFilter (f : recipe.FilterConfig) (issue : Issue) : bool :=
  if bool_decide (0 < length (recipe.Status f))%nat
  then existsb (λ s, strings_EqualFold (Status_ issue) s) (recipe.Status f)
  else true.

Definition priorityFilter (f : recipe.FilterConfig) (issue : Issue) : bool :=
  if bool_decide (0 < length (recipe.Priority f))%nat
  then existsb (λ p, bool_decide (Priority issue = p)) (recipe.Priority f)
  else true.

Definition hasLabel (issue : Issue) (tag : string) : bool :=
  existsb (λ label, strings_EqualFold label tag) (Labels issue).

Definition tagsFilter (f : recipe.FilterConfig) (issue : Issue) : bool :=
  if bool_decide (0 < length (recipe.Tags f))%nat
  then forallb (hasLabel issue) (recipe.Tags f)
  else true.

Definition excludeTagsFilter (f : recipe.FilterConfig) (issue : Issue) : bool :=
  if bool_decide (0 < length (recipe.ExcludeTags f))%nat
  then negb (existsb (hasLabel issue) (recipe.ExcludeTags f))
  else true.

(** The four date filters: the issue is skipped when the threshold
    parses, the timestamp is not zero and lies on the wrong side. *)
Definition notBefore (spec : string) (t : Time) : bool :=
  if decide (spec ≠ "")
  then match ParseRelativeTime spec now with
       | Some threshold => negb (negb (IsZero t) && Before t threshold)
       | None => true
       end
  else true.

Definition notAfter (spec : string) (t : Time) : bool :=
  if decide (spec ≠ "")
  then match ParseRelativeTime spec now with
       | Some threshold => negb (negb (IsZero t) && After t threshold)
       | None => true
       end
  else true.

Definition hasBlockersFilter (f : recipe.FilterConfig)
    (openBlockers : gmap string bool) (issue : Issue) : bool :=
  match recipe.HasBlockers f with
  | Some want => bool_decide (want = hasOpenBlockers openBlockers issue)
  | None => true
  end.

Definition actionableFilter (f : recipe.FilterConfig)
    (openBlockers : gmap string bool) (issue : Issue) : bool :=
  match recipe.Actionable f with
  | Some true => negb (hasOpenBlockers openBlockers issue)
  | _ => true
  end.

Definition titleFilter (f : recipe.FilterConfig) (issue : Issue) : bool :=
  if decide (recipe.TitleContains f ≠ "")
  then strings_Contains (strings_ToLower (Title issue))
                        (strings_ToLower (recipe.TitleContains f))
  else true.

Definition idPrefixFilter (f : recipe.FilterConfig) (issue : Issue) : bool :=
  if decide (recipe.IDPrefix f ≠ "")
  then String.prefix (recipe.IDPrefix f) (ID issue)
  else true.

(** One round of the main loop: [false] stands for [continue]. *)
Definition keeps (f : recipe.FilterConfig) (openBlockers : gmap string bool)
    (issue : Issue) : bool :=
  statusFilter f issue && priorityFilter f issue && tagsFilter f issue
  && excludeTagsFilter f issue
  && notBefore (recipe.CreatedAfter f) (CreatedAt issue)
  && notAfter (recipe.CreatedBefore f) (CreatedAt issue)
  && notBefore (recipe.UpdatedAfter f) (UpdatedAt issue)
  && notAfter (recipe.UpdatedBefore f) (UpdatedAt issue)
  && hasBlockersFilter f openBlockers issue
  && actionableFilter f openBlockers issue
  && titleFilter f issue && idPrefixFilter f issue.

Definition applyRecipeFilters (issues : list Issue) (r : option recipe.Recipe)
  : list Issue :=
  match r with
  | None => issues
  | Some r =>
    let openBlockers := openBlockersOf issues in
    foldl (λ result issue,
             if keeps (recipe.Filters r) openBlockers issue
             then result ++ [issue] else result) [] issues
  end.

End recipes.

(** A filter configuration with nothing set, and recipes that set one
    field. *)
Definition noFilters : recipe.FilterConfig :=
  {| recipe.Status := []; recipe.Priority := []; recipe.Tags := [];
     recipe.ExcludeTags := []; recipe.CreatedAfter := "";
     recipe.CreatedBefore := ""; recipe.UpdatedAfter := "";
     recipe.UpdatedBefore := ""; recipe.HasBlockers := None;
     recipe.Actionable := None; recipe.TitleContains := "";
     recipe.IDPrefix := "" |}.

Definition withBlockers (f : recipe.FilterConfig) (hasBlockers actionable : option bool)
  : recipe.FilterConfig :=
  {| recipe.Status := recipe.Status f; recipe.Priority := recipe.Priority f;
     recipe.Tags := recipe.Tags f; recipe.ExcludeTags := recipe.ExcludeTags f;
     recipe.CreatedAfter := recipe.CreatedAfter f;
     recipe.CreatedBefore := recipe.CreatedBefore f;
     recipe.UpdatedAfter := recipe.UpdatedAfter f;
     recipe.UpdatedBefore := recipe.UpdatedBefore f;
     recipe.HasBlockers := hasBlockers; recipe.Actionable := actionable;
     recipe.TitleContains := recipe.TitleContains f;
     recipe.IDPrefix := recipe.IDPrefix f |}.

Definition withoutDates (f : recipe.FilterConfig) : recipe.FilterConfig :=
  {| recipe.Status := recipe.Status f; recipe.Priority := recipe.Priority f;
     recipe.Tags := recipe.Tags f; recipe.ExcludeTags := recipe.ExcludeTags f;
     recipe.CreatedAfter := ""; recipe.CreatedBefore := "";
     recipe.UpdatedAfter := ""; recipe.UpdatedBefore := "";
     recipe.HasBlockers := recipe.HasBlockers f;
     recipe.Actionable := recipe.Actionable f;
     recipe.TitleContains := recipe.TitleContains f;
     recipe.IDPrefix := recipe.IDPrefix f |}.

Definition recipeOf (f : recipe.FilterConfig) : option recipe.Recipe :=
  Some {| recipe.Filters := f;
          recipe.Sort := {| recipe.Field := ""; recipe.Direction := "" |} |}.

Definition mkIssueWith (id : string) (status : Status) (deps : list Dependency)
  : Issue :=
  withStatus (mkIssue id deps) status.

(** B is blocked by the open A, C by the closed D, E by an id that no
    issue has, and F is related to A. *)
Definition issuesBlocked : list Issue :=
  [mkIssueWith "A" StatusOpen [];
   mkIssueWith "B" StatusOpen [mkDep "B" "A" DepBlocks];
   mkIssueWith "C" StatusOpen [mkDep "C" "D" DepBlocks];
   mkIssueWith "D" StatusClosed [];
   mkIssueWith "E" StatusOpen [mkDep "E" "ghost" DepBlocks];
   mkIssueWith "F" StatusOpen [mkDep "F" "A" DepRelated]].

(** ** Package version *)

Module version.

Definition fallback : string := "v0.14.4".

Section resolve.

Variable strings_Contains : string → string → bool.
Variable strings_HasSuffix : string → string → bool.

(** [versionFromBuildInfo]: [info] is [None] when [debug.ReadBuildInfo]
    reports failure, and [info.Main.Version] otherwise.  The last case of
    the inner match is the index panic of [v[0]], out of reach after the
    test for the empty string. *)
Definition versionFromBuildInfo (info : option string) : option string :=
  match info with
  | None => Some ""
  | Some v =>
    if decide (v = "" ∨ v = "(devel)") then Some ""
    else if strings_Contains v "-0." || strings_HasSuffix v "+dirty" then Some ""
    else match v with
         | String c _ =>
           if decide (c ≠ Ascii.ascii_of_nat 118) then Some ("v" +:+ v) else Some v
         | EmptyString => None
         end
  end.

(** [init]: the value of [Version] for the [version] set by the linker
    and the build information. *)
Definition init (version : string) (info : option string) : option string :=
  if decide (version ≠ "") then Some version
  else
    fromBuild ← versionFromBuildInfo info;
    if decide (fromBuild ≠ "") then versionFromBuildInfo info
    else Some fallback.

End resolve.

End version.

(** ** Package ui: [IssueItem.FilterValue] *)

Record IssueItem := {
  Issue_ : Issue;
  GraphScore : Q;
  Impact : Q
}.

(** The writes to the [strings.Builder], in order. *)
Definition FilterValue (i : IssueItem) : string :=
  let sb := Title (Issue_ i) in
  let sb := sb +:+ " " in
  let sb := sb +:+ ID (Issue_ i) in
  let sb := sb +:+ " " in
  let sb := sb +:+ Status_ (Issue_ i) in
  let sb := sb +:+ " " in
  let sb := sb +:+ IssueType_ (Issue_ i) in
  let sb := if decide (Assignee (Issue_ i) ≠ "")
            then (sb +:+ " ") +:+ Assignee (Issue_ i) else sb in
  let sb := if bool_decide (0 < length (Labels (Issue_ i)))%nat
            then (sb +:+ " ") +:+ String.concat " " (Labels (Issue_ i)) else sb in
  sb.

(** [sub] occurs in [s]. *)
Definition occursIn (sub s : string) : Prop :=
  ∃ pre post, s = pre +:+ (sub +:+ post).

(** ** The test helpers [contains] and [searchSubstr] *)

(** The loop [for i := 0; i <= len(s)-len(substr); i++] returns at the
    first match; it does not run when the bound is negative. *)
Definition searchSubstr (s substr : string) : bool :=
  let bound := Z.of_nat (String.length s) - Z.of_nat (String.length substr) in
  existsb (λ i, String.eqb (String.substring i (String.length substr) s) substr)
          (seq 0 (Z.to_nat (bound + 1))).

Definition contains (s substr : string) : bool :=
  bool_decide (String.length substr ≤ String.length s)%nat && searchSubstr s substr.

(** ** cmd/bv: [applyRecipeSort] *)

Section sorting.

Variable strings_ToLower : string → string.

(** [sort.SliceStable] of the Go standard library is insertion sort on
    a slice of at most 20 elements; [stable_long] stands for what it
    does with a longer slice (insertion sort on blocks of 20, then
    [symMerge]). *)
Variable stable_long : (Issue → Issue → bool) → list Issue → list Issue.

Definition sort_SliceStable (less : Issue → Issue → bool) (l : list Issue)
  : list Issue :=
  if bool_decide (length l ≤ 20)%nat then insertionSort less l
  else stable_long less l.

(** The [switch s.Field]: [None] is the default case. *)
Definition fieldLess (field : string) (x y : Issue) : option bool :=
  if decide (field = "priority") then Some (bool_decide (Priority x < Priority y))
  else if decide (field = "created") then Some (Before (CreatedAt x) (CreatedAt y))
  else if decide (field = "updated") then Some (Before (UpdatedAt x) (UpdatedAt y))
  else if decide (field = "title")
       then Some (String.ltb (strings_ToLower (Title x)) (strings_ToLower (Title y)))
  else if decide (field = "id") then Some (String.ltb (ID x) (ID y))
  else if decide (field = "status") then Some (String.ltb (Status_ x) (Status_ y))
  else None.

Definition ascendingOf (s : recipe.SortConfig) : bool :=
  let ascending := bool_decide (recipe.Direction s ≠ "desc") in
  let ascending :=
    if bool_decide (recipe.Field s = "priority" ∧ recipe.Direction s = "")
    then true else ascending in
  let ascending :=
    if bool_decide ((recipe.Field s = "created" ∨ recipe.Field s = "updated")
                    ∧ recipe.Direction s = "")
    then false else ascending in
  ascending.

(** The closure handed to [sort.SliceStable], on the two elements
    [issues[i]] and [issues[j]]. *)
Definition sortClosure (s : recipe.SortConfig) (x y : Issue) : bool :=
  match fieldLess (recipe.Field s) x y with
  | None => false
  | Some less => if ascendingOf s then less else negb less
  end.

Definition applyRecipeSort (issues : list Issue) (r : option recipe.Recipe)
  : list Issue :=
  match r with
  | None => issues
  | Some r =>
    if decide (recipe.Field (recipe.Sort r) = "") then issues
    else sort_SliceStable (sortClosure (recipe.Sort r)) issues
  end.

End sorting.

(** The six fields the switch knows. *)
Definition sortFields : list string :=
  ["priority"; "created"; "updated"; "title"; "id"; "status"].

Definition sortBy (field direction : string) : option recipe.Recipe :=
  Some {| recipe.Filters := noFilters;
          recipe.Sort := {| recipe.Field := field; recipe.Direction := direction |} |}.

(** [x] and [y] have the same sort key. *)
Definition sameKey (lower : string → string) (field : string) (x y : Issue) : Prop :=
  fieldLess lower field x y = Some false ∧ fieldLess lower field y x = Some false.

Global Instance sameKey_dec lower field x y : Decision (sameKey lower field x y).
Proof. unfold sameKey. apply _. Defined.

(** Three issues of priority 1, 2 and 1. *)
Definition withPriority (issue : Issue) (p : Z) : Issue :=
  {| ID := ID issue; Title := Title issue; Description := Description issue;
     Status_ := Status_ issue; IssueType_ := IssueType_ issue;
     Priority := p; CreatedAt := CreatedAt issue;
     UpdatedAt := UpdatedAt issue; ClosedAt := ClosedAt issue;
     Assignee := Assignee issue; Labels := Labels issue;
     Dependencies := Dependencies issue |}.

Definition issuesPrio : list Issue :=
  [withPriority (mkIssue "A" []) 1; withPriority (mkIssue "B" []) 2;
   withPriority (mkIssue "C" []) 1].

(** ** The graph viewer: cycle navigator and [truncate] *)

Module navigator.

(** [cycleNavigatorState], without the two sets of highlighted nodes and
    edges. *)
Record State := {
  active : bool;
  cycles : list (list string);
  currentIndex : Z
}.

(** The object [highlightCycle] returns; [None] below stands for
    [null]. *)
Record Shown := {
  index : Z;
  cycle : list string;
  path : string
}.

Definition formatCyclePath (cycle : list string) : string :=
  match cycle with
  | [] => ""
  | first :: _ => (String.concat " → " cycle +:+ " → ") +:+ first
  end.

(** [highlightCycle(index)] for a whole number [index]. *)
Definition highlightCycle (st : State) (index : Z) : State * option Shown :=
  if negb (active st) || bool_decide (length (cycles st) = 0%nat) then (st, None)
  else
    let index := Z.max 0 (Z.min index (Z.of_nat (length (cycles st)) - 1)) in
    let st' := {| active := active st; cycles := cycles st;
                  currentIndex := index |} in
    match cycles st !! Z.to_nat index with
    | None | Some [] => (st', None)
    | Some cycle =>
      (st', Some {| index := index; cycle := cycle;
                    path := formatCyclePath cycle |})
    end.

(** [nextCycle] and [prevCycle].  The operator [%] of JavaScript takes
    the sign of the dividend; with no cycle at all it gives [NaN], and
    [highlightCycle] then returns [null] at its first test. *)
Definition nextCycle (st : State) : State * option Shown :=
  if negb (active st) then (st, None)
  else if bool_decide (length (cycles st) = 0%nat) then (st, None)
  else highlightCycle st
         (Z.rem (currentIndex st + 1) (Z.of_nat (length (cycles st)))).

Definition prevCycle (st : State) : State * option Shown :=
  if negb (active st) then (st, None)
  else if bool_decide (length (cycles st) = 0%nat) then (st, None)
  else highlightCycle st
         (Z.rem (currentIndex st - 1 + Z.of_nat (length (cycles st)))
                (Z.of_nat (length (cycles st)))).

End navigator.

(** [truncate(str, maxLen)] on a string given by its UTF-16 code units,
    for a whole number [maxLen]: [substring] takes a negative end as 0. *)
Definition dots : list N := [46%N; 46%N; 46%N].

Definition truncate (str : list N) (maxLen : Z) : list N :=
  if bool_decide (length str = 0%nat) || bool_decide (Z.of_nat (length str) ≤ maxLen)
  then str
  else take (Z.to_nat (maxLen - 3)) str ++ dots.

Definition navigatorThree : navigator.State :=
  {| navigator.active := true;
     navigator.cycles := [["a"; "b"]; ["c"; "d"; "e"]; ["f"; "g"]];
     navigator.currentIndex := 2 |}.
(** * Properties *)

(** ** Loops that may panic *)

Section foldM.
Context {A B : Type} (f : A → B → option A).

Lemma foldM_app a l1 l2 :
  foldM f a (l1 ++ l2) = foldM f a l1 ≫= λ a', foldM f a' l2.
Proof.
  revert a; induction l1 as [|x l1 IH]; intros a; simpl; [done|].
  destruct (f a x); simpl; auto.
Qed.

Lemma foldM_fail a l x :
  x ∈ l → (∀ a, f a x = None) → foldM f a l = None.
Proof.
  intros Hx Hf. revert a.
  induction l as [|y l IH]; intros a; [by apply elem_of_nil in Hx|].
  simpl. apply elem_of_cons in Hx as [->|Hx].
  - by rewrite Hf.
  - destruct (f a y); simpl; auto.
Qed.

Lemma foldM_total (P : A → Prop) a l :
  P a →
  (∀ a x, x ∈ l → P a → ∃ a', f a x = Some a' ∧ P a') →
  ∃ a', foldM f a l = Some a' ∧ P a'.
Proof.
  revert a. induction l as [|x l IH]; intros a Ha Hstep; simpl.
  - eauto.
  - destruct (Hstep a x) as (a1 & -> & Ha1); [left | done |]. simpl.
    apply IH; [done|]. intros ????; apply Hstep; auto. by right.
Qed.

End foldM.

(** ** The gonum graph *)

Lemma elem_of_firstNodes n (x : Z) : x ∈ firstNodes n ↔ 0 ≤ x < Z.of_nat n.
Proof.
  unfold firstNodes. rewrite elem_of_list_to_set, list_elem_of_fmap.
  split.
  - intros (i & -> & Hi). apply elem_of_seq in Hi. lia.
  - intros Hx. exists (Z.to_nat x). split; [lia|]. apply elem_of_seq. lia.
Qed.

Lemma firstNodes_S n : firstNodes (S n) = {[Z.of_nat n]} ∪ firstNodes n.
Proof.
  apply set_eq. intros x. rewrite elem_of_union, elem_of_singleton, !elem_of_firstNodes. lia.
Qed.

Lemma size_firstNodes n : size (firstNodes n) = n.
Proof.
  induction n as [|n IH]; [done|].
  rewrite firstNodes_S, size_union, size_singleton; [lia|].
  apply disjoint_singleton_l. rewrite elem_of_firstNodes. lia.
Qed.

Lemma ensureNode_in g n : n ∈ nodes g → ensureNode g n = Some g.
Proof. intros H. unfold ensureNode. by rewrite decide_True. Qed.

Lemma SetEdge_Some g e :
  F e ∈ nodes g → T e ∈ nodes g → F e ≠ T e →
  SetEdge g e =
    Some {| nodes := nodes g;
            from := <[F e := <[T e := e]> (default ∅ (from g !! F e))]> (from g);
            to := <[T e := <[F e := e]> (default ∅ (to g !! T e))]> (to g);
            maxID := maxID g |}.
Proof.
  intros Hf Ht Hne. unfold SetEdge. rewrite decide_False by done.
  rewrite ensureNode_in by done. simpl. by rewrite ensureNode_in.
Qed.

Lemma SetEdge_self g e : F e = T e → SetEdge g e = None.
Proof. intros H. unfold SetEdge. by rewrite decide_True. Qed.

Lemma efrom_insert (m : gmap Z (gmap Z Edge)) u v e x y :
  default ∅ (<[u := <[v := e]> (default ∅ (m !! u))]> m !! x) !! y
  = if decide (x = u ∧ y = v) then Some e else default ∅ (m !! x) !! y.
Proof.
  destruct (decide (x = u)) as [->|Hx].
  - rewrite lookup_insert_eq. simpl.
    destruct (decide (y = v)) as [->|Hy].
    + rewrite lookup_insert_eq. by rewrite decide_True.
    + rewrite lookup_insert_ne by done. rewrite decide_False by (intros [_ ?]; done). done.
  - rewrite lookup_insert_ne by done. rewrite decide_False by (intros [? _]; done). done.
Qed.

Lemma SetEdge_efrom g e g' x y :
  F e ∈ nodes g → T e ∈ nodes g → SetEdge g e = Some g' →
  efrom g' x y = if decide (x = F e ∧ y = T e) then Some e else efrom g x y.
Proof.
  intros Hf Ht H. destruct (decide (F e = T e)) as [E|E].
  { by rewrite SetEdge_self in H. }
  rewrite SetEdge_Some in H by done. apply (inj Some) in H. subst g'.
  unfold efrom. simpl. apply efrom_insert.
Qed.

Lemma SetEdge_eto g e g' x y :
  F e ∈ nodes g → T e ∈ nodes g → SetEdge g e = Some g' →
  eto g' y x = if decide (x = F e ∧ y = T e) then Some e else eto g y x.
Proof.
  intros Hf Ht H. destruct (decide (F e = T e)) as [E|E].
  { by rewrite SetEdge_self in H. }
  rewrite SetEdge_Some in H by done. apply (inj Some) in H. subst g'.
  unfold eto. simpl. rewrite efrom_insert.
  destruct (decide (x = F e ∧ y = T e)), (decide (y = T e ∧ x = F e)); tauto.
Qed.

Lemma SetEdge_nodes g e g' :
  F e ∈ nodes g → T e ∈ nodes g → SetEdge g e = Some g' →
  nodes g' = nodes g ∧ maxID g' = maxID g.
Proof.
  intros Hf Ht H. destruct (decide (F e = T e)) as [E|E].
  { by rewrite SetEdge_self in H. }
  rewrite SetEdge_Some in H by done. apply (inj Some) in H. by subst g'.
Qed.

Lemma SetEdge_wf g u v g' :
  wf g → u ∈ nodes g → v ∈ nodes g → SetEdge g (NewEdge u v) = Some g' → wf g'.
Proof.
  intros [He Ht] Hu Hv H.
  assert (u ≠ v) as Hne.
  { intros ->. by rewrite SetEdge_self in H. }
  destruct (SetEdge_nodes g (NewEdge u v) g' Hu Hv H) as [Hn _].
  split.
  - intros x y e. rewrite (SetEdge_efrom g (NewEdge u v) g' x y Hu Hv H). simpl.
    case_decide as Hxy.
    + destruct Hxy as [-> ->]. intros [= <-]. rewrite Hn. done.
    + intros Hxy'. rewrite Hn. by apply He.
  - intros x y. rewrite (SetEdge_efrom g (NewEdge u v) g' x y Hu Hv H), (SetEdge_eto g (NewEdge u v) g' x y Hu Hv H).
    case_decide; [done|]. apply Ht.
Qed.

Lemma wf_empty_edges g : from g = ∅ → to g = ∅ → wf g.
Proof.
  intros Hf Ht. split.
  - intros u v e. unfold efrom. rewrite Hf, lookup_empty. simpl. by rewrite lookup_empty.
  - intros u v. unfold efrom, eto. rewrite Hf, Ht, !lookup_empty. simpl. by rewrite !lookup_empty.
Qed.

Lemma elem_of_To g u v : wf g → u ∈ To g v ↔ HasEdgeFromTo g u v.
Proof.
  intros Hwf. unfold To, HasEdgeFromTo. fold (efrom g u v).
  rewrite <- (wf_to _ Hwf). unfold eto.
  rewrite list_elem_of_fmap. split.
  - intros ([k e] & -> & H). apply elem_of_map_to_list in H. simpl. eauto.
  - intros [e H]. exists (u, e). split; [done|]. by apply elem_of_map_to_list.
Qed.

Lemma elem_of_From g u v : v ∈ From g u ↔ HasEdgeFromTo g u v.
Proof.
  unfold From, HasEdgeFromTo.
  rewrite list_elem_of_fmap. split.
  - intros ([k e] & -> & H). apply elem_of_map_to_list in H. simpl. eauto.
  - intros [e H]. exists (v, e). split; [done|]. by apply elem_of_map_to_list.
Qed.

(** ** Loop 1 of [NewAnalyzer] *)

Lemma NewNode_next g n :
  nodes g = firstNodes n → maxID g = Z.of_nat n - 1 → NewNode g = Z.of_nat n.
Proof.
  intros Hn Hm. unfold NewNode. rewrite Hn, size_firstNodes, Hm.
  case_decide; lia.
Qed.

Lemma addIssueNodes_spec issues :
  ∃ a, foldM addIssueNode emptyAnalyzer issues = Some a ∧ nodesBuilt issues a.
Proof.
  induction issues as [|x issues IH] using rev_ind.
  - exists emptyAnalyzer. split; [done|].
    split; simpl.
    + done.
    + done.
    + done.
    + done.
    + intros i. by rewrite lookup_empty.
    + intros z s. by rewrite lookup_empty.
    + intros s z. by rewrite lookup_empty.
    + intros s. rewrite lookup_empty. split; [by intros [? ?]|].
      intros H. by apply elem_of_nil in H.
    + intros _ z s. by rewrite lookup_empty.
  - destruct IH as (a & Ha & I). rewrite foldM_app, Ha. simpl.
    unfold addIssueNode.
    pose proof (NewNode_next _ _ (nb_nodes _ _ I) (nb_maxID _ _ I)) as Hnew.
    rewrite Hnew. unfold AddNode.
    rewrite decide_False
      by (rewrite (nb_nodes _ _ I), elem_of_firstNodes; lia).
    simpl. eexists. split; [done|].
    set (n := length issues) in *.
    assert (length (issues ++ [x]) = S n) as Hlen
      by (rewrite length_app; simpl; lia).
    split; simpl; rewrite ?Hlen.
    + by rewrite firstNodes_S, (nb_nodes _ _ I).
    + rewrite (nb_maxID _ _ I). lia.
    + apply (nb_from _ _ I).
    + apply (nb_to _ _ I).
    + intros i. destruct (decide (i = n)) as [->|Hi].
      * rewrite lookup_insert_eq. subst n.
        by rewrite lookup_app_r, Nat.sub_diag by lia.
      * rewrite lookup_insert_ne by lia.
        rewrite (nb_nodeToID _ _ I).
        destruct (decide (i < n)%nat).
        -- by rewrite lookup_app_l by done.
        -- rewrite !lookup_ge_None_2; [done| |lia].
           rewrite length_app. simpl. lia.
    + intros z s. rewrite firstNodes_S, elem_of_union, elem_of_singleton.
      destruct (decide (z = Z.of_nat n)) as [->|Hz]; [by left|].
      rewrite lookup_insert_ne by done. intros H. right.
      by eapply nb_range.
    + intros s z. destruct (decide (s = ID x)) as [->|Hs].
      * rewrite lookup_insert_eq. intros [= <-]. by rewrite lookup_insert_eq.
      * rewrite lookup_insert_ne by done. intros H.
        pose proof (nb_back _ _ I _ _ H) as H'.
        pose proof (nb_range _ _ I _ _ H') as Hr.
        apply elem_of_firstNodes in Hr.
        rewrite lookup_insert_ne by lia. done.
    + intros s. rewrite fmap_app, elem_of_app. simpl.
      rewrite list_elem_of_singleton.
      destruct (decide (s = ID x)) as [->|Hs].
      * rewrite lookup_insert_eq. split; eauto.
      * rewrite lookup_insert_ne by done. rewrite (nb_dom _ _ I). tauto.
    + rewrite fmap_app. simpl. intros Hnd.
      apply NoDup_app in Hnd as (Hnd & Hfresh & _).
      intros z s. destruct (decide (z = Z.of_nat n)) as [->|Hz].
      * rewrite lookup_insert_eq. intros [= <-]. by rewrite lookup_insert_eq.
      * rewrite lookup_insert_ne by done. intros H.
        pose proof (nb_unique _ _ I Hnd _ _ H) as H'.
        assert (s ≠ ID x) as Hs.
        { intros ->. eapply Hfresh; [|by left].
          apply (nb_dom _ _ I). eauto. }
        by rewrite lookup_insert_ne.
Qed.

Lemma nodesBuilt_ids_in issues a s z :
  nodesBuilt issues a → idToNode a !! s = Some z → z ∈ nodes (g a).
Proof.
  intros I H. rewrite (nb_nodes _ _ I).
  eapply nb_range; [done|]. by eapply nb_back.
Qed.

Lemma nodesBuilt_ids_inj issues a s1 s2 z :
  nodesBuilt issues a →
  idToNode a !! s1 = Some z → idToNode a !! s2 = Some z → s1 = s2.
Proof.
  intros I H1 H2.
  apply (nb_back _ _ I) in H1. apply (nb_back _ _ I) in H2. congruence.
Qed.

(** ** Loop 2 of [NewAnalyzer] *)

Section edges.
Context (ids : gmap string Z) (N : gset Z).
Hypothesis ids_in : ∀ s z, ids !! s = Some z → z ∈ N.

Lemma addDepEdge_spec u b dep b' :
  u ∈ N → nodes (graph b) = N → wf (graph b) →
  addDepEdge ids u b dep = Some b' →
  nodes (graph b') = N ∧ maxID (graph b') = maxID (graph b) ∧
  warnings b' = warnings b ∧ wf (graph b') ∧
  ∀ x y, HasEdgeFromTo (graph b') x y ↔
         HasEdgeFromTo (graph b) x y ∨ (x = u ∧ ids !! DependsOnID dep = Some y).
Proof.
  intros Hu Hn Hwf. unfold addDepEdge.
  destruct (ids !! DependsOnID dep) as [v|] eqn:Ev.
  - destruct (SetEdge (graph b) (NewEdge u v)) as [g'|] eqn:E; simpl; [|done].
    intros [= <-]. simpl.
    assert (v ∈ nodes (graph b)) as Hv by (rewrite Hn; eauto).
    assert (u ∈ nodes (graph b)) as Hu' by (by rewrite Hn).
    destruct (SetEdge_nodes (graph b) (NewEdge u v) g' Hu' Hv E) as [-> ->].
    split_and!; [done..|exact (SetEdge_wf _ _ _ _ Hwf Hu' Hv E)|].
    intros x y.
    unfold HasEdgeFromTo. fold (efrom g' x y). fold (efrom (graph b) x y).
    rewrite (SetEdge_efrom (graph b) (NewEdge u v) g' x y Hu' Hv E). simpl.
    case_decide as Hxy.
    + destruct Hxy as [-> ->]. split; [by right|by eauto].
    + split; [tauto|]. intros [H|[-> [= ->]]]; [done|]. by destruct Hxy.
  - intros [= <-]. split_and!; [done..|].
    intros x y. split; [tauto|]. intros [H|[_ ?]]; done.
Qed.

Lemma addDepEdge_Some u b dep :
  ids !! DependsOnID dep ≠ Some u → is_Some (addDepEdge ids u b dep).
Proof.
  intros Hne. unfold addDepEdge.
  destruct (ids !! DependsOnID dep) as [v|] eqn:Ev; [|done].
  unfold SetEdge. simpl. rewrite decide_False by congruence.
  unfold ensureNode, AddNode.
  repeat (case_decide; simpl; try done).
Qed.

Lemma addDeps_spec u deps b b' :
  u ∈ N → nodes (graph b) = N → wf (graph b) →
  foldM (addDepEdge ids u) b deps = Some b' →
  nodes (graph b') = N ∧ maxID (graph b') = maxID (graph b) ∧
  warnings b' = warnings b ∧ wf (graph b') ∧
  ∀ x y, HasEdgeFromTo (graph b') x y ↔
         HasEdgeFromTo (graph b) x y ∨
         (x = u ∧ ∃ dep, dep ∈ deps ∧ ids !! DependsOnID dep = Some y).
Proof.
  intros Hu. revert b. induction deps as [|dep deps IH]; intros b Hn Hwf; simpl.
  - intros [= <-]. split_and!; [done..|].
    intros x y. split; [tauto|].
    intros [H|(_ & dep & Hd & _)]; [done|]. by apply elem_of_nil in Hd.
  - destruct (addDepEdge ids u b dep) as [b1|] eqn:E1; simpl; [|done].
    intros H.
    destruct (addDepEdge_spec u b dep b1 Hu Hn Hwf E1) as (Hn1 & Hm1 & Hw1 & Hwf1 & He1).
    destruct (IH b1 Hn1 Hwf1 H) as (Hn' & Hm' & Hw' & Hwf' & He').
    split_and!; [done|congruence|congruence|done|].
    intros x y. rewrite He', He1. split.
    + intros [[?|[-> ?]]|(-> & d & ? & ?)]; auto.
      * right. split; [done|]. exists dep. split; [left|done].
      * right. split; [done|]. exists d. split; [by right|done].
    + intros [?|(-> & d & Hd & ?)]; auto.
      apply elem_of_cons in Hd as [->|Hd]; [by auto|].
      right. split; [done|]. eauto.
Qed.

Lemma addIssueEdges_spec issue b b' :
  nodes (graph b) = N → wf (graph b) →
  addIssueEdges ids b issue = Some b' →
  nodes (graph b') = N ∧ maxID (graph b') = maxID (graph b) ∧
  warnings b' = warnings b ∧ wf (graph b') ∧
  ∀ x y, HasEdgeFromTo (graph b') x y ↔
         HasEdgeFromTo (graph b) x y ∨ linked [issue] ids x y.
Proof.
  intros Hn Hwf. unfold addIssueEdges.
  destruct (ids !! ID issue) as [u|] eqn:Eu.
  - intros H.
    destruct (addDeps_spec u _ b b' (ids_in _ _ Eu) Hn Hwf H)
      as (Hn' & Hm' & Hw' & Hwf' & He').
    split_and!; [done..|].
    intros x y. rewrite He'. split.
    + intros [?|(-> & d & ? & ?)]; auto.
      right. exists issue, d. rewrite list_elem_of_singleton. done.
    + intros [?|(i & d & Hi & ? & ? & ?)]; auto.
      apply list_elem_of_singleton in Hi as ->.
      right. split; [congruence|]. eauto.
  - intros [= <-]. split_and!; [done..|].
    intros x y. split; [tauto|].
    intros [?|(i & d & Hi & ? & ? & ?)]; [done|].
    apply list_elem_of_singleton in Hi as ->. congruence.
Qed.

Lemma addIssuesEdges_spec issues b b' :
  nodes (graph b) = N → wf (graph b) →
  foldM (addIssueEdges ids) b issues = Some b' →
  nodes (graph b') = N ∧ maxID (graph b') = maxID (graph b) ∧
  warnings b' = warnings b ∧ wf (graph b') ∧
  ∀ x y, HasEdgeFromTo (graph b') x y ↔
         HasEdgeFromTo (graph b) x y ∨ linked issues ids x y.
Proof.
  revert b. induction issues as [|issue issues IH]; intros b Hn Hwf; simpl.
  - intros [= <-]. split_and!; [done..|].
    intros x y. split; [tauto|].
    intros [?|(i & d & Hi & _)]; [done|]. by apply elem_of_nil in Hi.
  - destruct (addIssueEdges ids b issue) as [b1|] eqn:E1; simpl; [|done].
    intros H.
    destruct (addIssueEdges_spec issue b b1 Hn Hwf E1) as (Hn1 & Hm1 & Hw1 & Hwf1 & He1).
    destruct (IH b1 Hn1 Hwf1 H) as (Hn' & Hm' & Hw' & Hwf' & He').
    split_and!; [done|congruence|congruence|done|].
    intros x y. rewrite He', He1. split.
    + intros [[?|(i & d & Hi & ?)]|(i & d & Hi & ?)]; auto.
      * apply list_elem_of_singleton in Hi as ->.
        right. exists issue, d. split; [left|done].
      * right. exists i, d. split; [by right|done].
    + intros [?|(i & d & Hi & ?)]; auto.
      apply elem_of_cons in Hi as [->|Hi].
      * left. right. exists issue, d. by rewrite list_elem_of_singleton.
      * right. exists i, d. done.
Qed.
End edges.

(** ** [NewAnalyzer] as a whole *)

Lemma no_edge_yet issues a x y :
  nodesBuilt issues a → ¬ HasEdgeFromTo (g a) x y.
Proof.
  intros I. unfold HasEdgeFromTo. rewrite (nb_from _ _ I), lookup_empty. simpl.
  rewrite lookup_empty. by intros [? ?].
Qed.

Lemma NewAnalyzer_run_spec issues a w :
  NewAnalyzer_run issues = Some (a, w) → analyzerBuilt issues a ∧ w = [].
Proof.
  unfold NewAnalyzer_run.
  destruct (addIssueNodes_spec issues) as (a1 & -> & I). simpl.
  destruct (foldM _ _ issues) as [b|] eqn:E; simpl; [|done].
  intros [= <- <-].
  destruct (addIssuesEdges_spec (idToNode a1) (nodes (g a1))
              (λ s z, nodesBuilt_ids_in issues a1 s z I) issues
              {| graph := g a1; warnings := [] |} b eq_refl
              (wf_empty_edges _ (nb_from _ _ I) (nb_to _ _ I)) E)
    as (Hn & _ & Hw & Hwf & He).
  split; [|done]. split; simpl.
  - rewrite Hn. apply (nb_nodes _ _ I).
  - done.
  - intros x y. rewrite He. simpl. split; [|by auto].
    intros [H|?]; [|done]. by apply (no_edge_yet issues a1) in H.
  - apply (nb_nodeToID _ _ I).
  - apply (nb_range _ _ I).
  - apply (nb_back _ _ I).
  - apply (nb_dom _ _ I).
  - apply (nb_unique _ _ I).
Qed.

Lemma NewAnalyzer_spec issues a :
  NewAnalyzer issues = Some a → analyzerBuilt issues a.
Proof.
  unfold NewAnalyzer. destruct (NewAnalyzer_run issues) as [[a' w]|] eqn:E; [|done].
  simpl. intros [= <-]. by apply NewAnalyzer_run_spec in E as [? _].
Qed.

(** [NewAnalyzer] panics exactly on the inputs with an issue that depends
    on itself. *)
Lemma NewAnalyzer_run_panics issues issue :
  issue ∈ issues → selfDependent issue → NewAnalyzer_run issues = None.
Proof.
  intros Hin (dep & Hdep & Hself). unfold NewAnalyzer_run.
  destruct (addIssueNodes_spec issues) as (a1 & -> & I). simpl.
  rewrite (foldM_fail _ _ issues issue); [done|done|].
  intros b. unfold addIssueEdges.
  destruct (idToNode a1 !! ID issue) as [u|] eqn:Eu.
  - apply (foldM_fail _ _ _ dep); [done|].
    intros b'. unfold addDepEdge. rewrite Hself, Eu.
    by rewrite SetEdge_self.
  - assert (is_Some (idToNode a1 !! ID issue)) as [? ?]; [|congruence].
    apply (nb_dom _ _ I). apply list_elem_of_fmap. eauto.
Qed.

Lemma NewAnalyzer_run_total issues :
  (∀ issue, issue ∈ issues → ¬ selfDependent issue) →
  is_Some (NewAnalyzer_run issues).
Proof.
  intros Hno. unfold NewAnalyzer_run.
  destruct (addIssueNodes_spec issues) as (a1 & -> & I). simpl.
  destruct (foldM_total (addIssueEdges (idToNode a1)) (λ _, True)
              {| graph := g a1; warnings := [] |} issues Logic.I) as (b & -> & _).
  - intros b issue Hin _. unfold addIssueEdges.
    destruct (idToNode a1 !! ID issue) as [u|] eqn:Eu; [|by eauto].
    destruct (foldM_total (addDepEdge (idToNode a1) u) (λ _, True) b
                (Dependencies issue) Logic.I) as (b' & -> & _); [|by eauto].
    intros b1 dep Hdep _.
    destruct (addDepEdge_Some (idToNode a1) u b1 dep) as [b2 ->]; [|by eauto].
    intros Hu. apply (Hno issue Hin). exists dep. split; [done|].
    by eapply nodesBuilt_ids_inj.
  - simpl. eauto.
Qed.

Lemma NewAnalyzer_total issues :
  (∀ issue, issue ∈ issues → ¬ selfDependent issue) →
  is_Some (NewAnalyzer issues).
Proof.
  intros H. unfold NewAnalyzer.
  destruct (NewAnalyzer_run_total issues H) as [? ->]. simpl. eauto.
Qed.

Lemma analyzerBuilt_ids_in issues a s z :
  analyzerBuilt issues a → idToNode a !! s = Some z → z ∈ nodes (g a).
Proof.
  intros I H. rewrite (ab_nodes _ _ I).
  eapply ab_range; [done|]. by eapply ab_back.
Qed.

Lemma analyzerBuilt_node_id issues a z :
  analyzerBuilt issues a → z ∈ nodes (g a) → is_Some (nodeToID a !! z).
Proof.
  intros I. rewrite (ab_nodes _ _ I), elem_of_firstNodes. intros Hz.
  replace z with (Z.of_nat (Z.to_nat z)) by lia.
  rewrite (ab_nodeToID _ _ I).
  destruct (lookup_lt_is_Some_2 issues (Z.to_nat z)) as [x ->]; [lia|].
  simpl. eauto.
Qed.

Lemma idOf_inj issues a u v :
  analyzerBuilt issues a → NoDup (ID <$> issues) →
  u ∈ nodes (g a) → v ∈ nodes (g a) → idOf a u = idOf a v → u = v.
Proof.
  intros I Hnd Hu Hv. unfold idOf.
  destruct (analyzerBuilt_node_id _ _ _ I Hu) as [su Esu].
  destruct (analyzerBuilt_node_id _ _ _ I Hv) as [sv Esv].
  rewrite Esu, Esv. simpl. intros ->.
  apply (ab_unique _ _ I Hnd) in Esu, Esv. congruence.
Qed.

(** ** The edges [g.Edges()] lists *)

Lemma elem_of_Edges g e :
  e ∈ Edges g ↔ ∃ u v, efrom g u v = Some e.
Proof.
  unfold Edges, efrom. rewrite list_elem_of_join. split.
  - intros (l & He & Hl). apply list_elem_of_fmap in Hl as ([u m] & -> & Hum).
    apply elem_of_map_to_list in Hum. simpl in He.
    apply list_elem_of_fmap in He as ([v e'] & -> & Hve).
    apply elem_of_map_to_list in Hve. exists u, v. by rewrite Hum.
  - intros (u & v & H). destruct (from g !! u) as [m|] eqn:Em; simpl in H;
      [|by rewrite lookup_empty in H].
    exists ((map_to_list m).*2). split.
    + apply list_elem_of_fmap. exists (v, e). split; [done|].
      by apply elem_of_map_to_list.
    + apply list_elem_of_fmap. exists (u, m). split; [done|].
      by apply elem_of_map_to_list.
Qed.

Lemma NoDup_Edges g : wf g → NoDup (Edges g).
Proof.
  intros Hwf. unfold Edges.
  assert (∀ u m v e, (u, m) ∈ map_to_list (from g) → m !! v = Some e →
                     e = NewEdge u v) as Hshape.
  { intros u m v e Hum Hve. apply elem_of_map_to_list in Hum.
    apply (wf_edge _ Hwf u v e). unfold efrom. by rewrite Hum. }
  pose proof (NoDup_fst_map_to_list (from g)) as Hkeys.
  induction (map_to_list (from g)) as [|[u m] L IH]; simpl; [constructor|].
  apply NoDup_cons in Hkeys as [Hu Hkeys].
  apply NoDup_app. split_and!.
  - apply NoDup_fmap_2_strong; [|apply NoDup_map_to_list].
    intros [v1 e1] [v2 e2] H1 H2. simpl. intros ->.
    apply elem_of_map_to_list in H1, H2.
    pose proof (Hshape u m v1 e2 ltac:(left) H1) as E1.
    pose proof (Hshape u m v2 e2 ltac:(left) H2) as E2.
    rewrite E1 in E2. by injection E2 as ->.
  - intros e He Hin. apply list_elem_of_fmap in He as ([v e1] & Ee1 & Hve).
    apply elem_of_map_to_list in Hve. simpl in Ee1. subst e1.
    apply list_elem_of_join in Hin as (l & He' & Hl).
    apply list_elem_of_fmap in Hl as ([u' m'] & El & Hum'). subst l.
    simpl in He'. apply list_elem_of_fmap in He' as ([v' e2] & Ee2 & Hve').
    apply elem_of_map_to_list in Hve'. simpl in Ee2. subst e2.
    pose proof (Hshape u m v e ltac:(left) Hve) as E1.
    pose proof (Hshape u' m' v' e ltac:(by right) Hve') as E2.
    rewrite E1 in E2. injection E2 as Eu Ev. subst u' v'.
    apply Hu. apply list_elem_of_fmap. by exists (u, m').
  - apply IH; [|done]. intros u0 m0 v e Hin Hve. eapply Hshape; [by right|done].
Qed.

Lemma length_filter_NoDup {A} `{EqDecision A} (P : A → Prop)
    `{∀ x, Decision (P x)} (x : A) (l : list A) :
  (∀ y, P y ↔ y = x) → NoDup l →
  length (filter P l) = if decide (x ∈ l) then 1%nat else 0%nat.
Proof.
  intros HP. induction l as [|e l IH]; intros Hnd.
  - rewrite decide_False; [done|]. by intros ?%elem_of_nil.
  - apply NoDup_cons in Hnd as [Hne Hnd]. specialize (IH Hnd).
    rewrite filter_cons. destruct (decide (P e)) as [He|He].
    + apply HP in He as ->. simpl. rewrite IH.
      rewrite decide_False by done. rewrite decide_True by left. done.
    + rewrite IH. assert (e ≠ x) as Hex by (intros E; by apply He, HP).
      destruct (decide (x ∈ l)) as [Hl|Hl].
      * rewrite decide_True by (by right). done.
      * rewrite decide_False; [done|]. intros [?|?]%elem_of_cons; done.
Qed.

Lemma edgeCount_spec g u v :
  wf g →
  edgeCount g u v = if decide (HasEdgeFromTo g u v) then 1%nat else 0%nat.
Proof.
  intros Hwf. unfold edgeCount.
  rewrite (length_filter_NoDup _ (NewEdge u v)).
  - assert (NewEdge u v ∈ Edges g ↔ HasEdgeFromTo g u v) as Hin.
    { rewrite elem_of_Edges. unfold HasEdgeFromTo. fold (efrom g u v). split.
      - intros (x & y & H). destruct (wf_edge _ Hwf _ _ _ H) as ([= -> ->] & _).
        eauto.
      - intros [e H]. destruct (wf_edge _ Hwf _ _ _ H) as (-> & _). eauto. }
    repeat case_decide; tauto.
  - intros [x y]. unfold NewEdge. simpl.
    split; [by intros [-> ->]|by intros [= -> ->]].
  - by apply NoDup_Edges.
Qed.

(** ** The graph builder: claims C2, C3, C8, C9 *)

(** When [NewAnalyzer] returns, the graph has an edge from node [u] to
    node [v] exactly when some dependency of the issue of [u] names the
    issue of [v]; the type of the dependency plays no part. *)
Lemma edges_are_dependencies issues a :
  NewAnalyzer issues = Some a →
  ∀ u v, HasEdgeFromTo (g a) u v ↔ linked issues (idToNode a) u v.
Proof. intros H. apply (ab_edges issues a). by apply NewAnalyzer_spec. Qed.

(** C2, on the failing input.  The only dependency of the input is of
    type [related], from A to B, and the graph [NewAnalyzer] builds has the
    edge A -> B, its only edge: the loop adds an edge for a dependency of
    any type. *)
Theorem C2_related_makes_an_edge :
  ∃ a, NewAnalyzer issuesRelated = Some a ∧
       idToNode a !! "A" = Some 0 ∧ idToNode a !! "B" = Some 1 ∧
       HasEdgeFromTo (g a) 0 1 ∧
       Edges (g a) = [NewEdge 0 1] ∧
       ¬ linkedTyped issuesRelated (idToNode a) 0 1.
Proof.
  eexists. split; [vm_compute; reflexivity|]. split_and!.
  - vm_compute. reflexivity.
  - vm_compute. reflexivity.
  - vm_compute. eauto.
  - vm_compute. reflexivity.
  - intros (issue & dep & Hi & Hd & [Ht|Ht] & _); unfold issuesRelated in Hi;
      repeat (apply elem_of_cons in Hi as [->|Hi]; simpl in Hd;
              [repeat (apply elem_of_cons in Hd as [->|Hd]; [done|]);
               by apply elem_of_nil in Hd|]);
      by apply elem_of_nil in Hi.
Qed.

(** C3, on the failing input.  An issue that depends on itself is not
    dropped: [SetEdge] is reached with both ends equal and panics, so
    [NewAnalyzer] does not return. *)
Theorem C3_self_dependency_panics :
  selfDependent (mkIssue "A" [mkDep "A" "A" DepBlocks]) ∧
  NewAnalyzer issuesSelf = None.
Proof.
  split.
  - exists (mkDep "A" "A" DepBlocks). split; [left|done].
  - unfold NewAnalyzer.
    rewrite (NewAnalyzer_run_panics issuesSelf (mkIssue "A" [mkDep "A" "A" DepBlocks]));
      [done|left|].
    exists (mkDep "A" "A" DepBlocks). split; [left|done].
Qed.

(** C8, amended.  The graph holds at most one edge per ordered pair, and
    an edge has no type: [g.Edges()] lists exactly one edge from [u] to [v]
    when some dependency of any type links them, however many there are,
    and none otherwise.  Duplicate dependencies are merged; a [blocks] and
    a [parent-child] dependency between the same pair are merged too. *)
Theorem C8_one_untyped_edge_per_pair issues a :
  NewAnalyzer issues = Some a →
  NoDup (Edges (g a)) ∧
  ∀ u v, (linked issues (idToNode a) u v → edgeCount (g a) u v = 1%nat) ∧
         (¬ linked issues (idToNode a) u v → edgeCount (g a) u v = 0%nat).
Proof.
  intros H. apply NewAnalyzer_spec in H.
  split; [apply NoDup_Edges, (ab_wf _ _ H)|].
  intros u v. rewrite edgeCount_spec by apply (ab_wf _ _ H).
  rewrite <- (ab_edges _ _ H). split; intros ?; case_decide; done.
Qed.

Lemma C8_one_untyped_edge_per_pair_witness :
  NoDup (Edges (g (analyzerOf issuesBoth))) ∧
  ∀ u v, (linked issuesBoth (idToNode (analyzerOf issuesBoth)) u v →
          edgeCount (g (analyzerOf issuesBoth)) u v = 1%nat) ∧
         (¬ linked issuesBoth (idToNode (analyzerOf issuesBoth)) u v →
          edgeCount (g (analyzerOf issuesBoth)) u v = 0%nat).
Proof.
  apply (C8_one_untyped_edge_per_pair issuesBoth).
  vm_compute. reflexivity.
Defined.

(** C8 as stated fails: A has a [blocks] and a [parent-child] dependency
    on B, and the graph holds the single edge A -> B. *)
Lemma C8_blocks_and_parent_child_collapse :
  ∃ a, NewAnalyzer issuesBoth = Some a ∧
       idToNode a !! "A" = Some 0 ∧ idToNode a !! "B" = Some 1 ∧
       Edges (g a) = [NewEdge 0 1] ∧
       edgeCount (g a) 0 1 ≠ 2%nat.
Proof.
  eexists. split; [vm_compute; reflexivity|].
  split_and!; try (vm_compute; reflexivity). vm_compute. lia.
Qed.

(** Loop 1 reads nothing but the ids of the issues. *)
Lemma addIssueNodes_ids l l' a a' :
  ID <$> l = ID <$> l' →
  g a = g a' → idToNode a = idToNode a' → nodeToID a = nodeToID a' →
  match foldM addIssueNode a l, foldM addIssueNode a' l' with
  | Some b, Some b' =>
      g b = g b' ∧ idToNode b = idToNode b' ∧ nodeToID b = nodeToID b'
  | None, None => True
  | _, _ => False
  end.
Proof.
  revert l' a a'. induction l as [|x l IH]; intros [|x' l'] a a' Hids Hg Hi Hn;
    try done.
  simpl in Hids. injection Hids as Hx Hids. simpl.
  unfold addIssueNode. rewrite <- Hg, <- Hi, <- Hn, <- Hx.
  destruct (AddNode (g a) (NewNode (g a))) as [g1|]; simpl; [|done].
  by apply IH.
Qed.

Lemma addIssueEdges_dangling ids b issue d1 dep d2 :
  Dependencies issue = d1 ++ dep :: d2 →
  ids !! DependsOnID dep = None →
  addIssueEdges ids b issue = addIssueEdges ids b (withDeps issue (d1 ++ d2)).
Proof.
  intros Hd Hdep. unfold addIssueEdges. simpl.
  destruct (ids !! ID issue) as [u|]; [|done].
  rewrite Hd, !foldM_app.
  destruct (foldM (addDepEdge ids u) b d1) as [b1|]; simpl; [|done].
  assert (addDepEdge ids u b1 dep = Some b1) as ->
    by (unfold addDepEdge; by rewrite Hdep).
  done.
Qed.

(** C9, amended.  A dependency whose target is not an issue id is skipped
    without any report: the graph, the id maps and the (empty) list of
    warnings are those obtained from the input without that dependency,
    no warning is ever produced, and the skipped dependency never makes
    [NewAnalyzer] panic (only a self-dependency does). *)
Theorem C9_dangling_dependency_skipped_silently l1 issue l2 d1 dep d2 :
  Dependencies issue = d1 ++ dep :: d2 →
  DependsOnID dep ∉ ID <$> (l1 ++ issue :: l2) →
  built (NewAnalyzer_run (l1 ++ issue :: l2))
  = built (NewAnalyzer_run (l1 ++ withDeps issue (d1 ++ d2) :: l2))
  ∧ (∀ a w, NewAnalyzer_run (l1 ++ issue :: l2) = Some (a, w) → w = [])
  ∧ ((∀ i, i ∈ l1 ++ issue :: l2 → ¬ selfDependent i) →
     is_Some (NewAnalyzer (l1 ++ issue :: l2))).
Proof.
  intros Hd Hdangling. split_and!.
  - unfold NewAnalyzer_run.
    destruct (addIssueNodes_spec (l1 ++ issue :: l2)) as (a1 & E1 & I1).
    destruct (addIssueNodes_spec (l1 ++ withDeps issue (d1 ++ d2) :: l2))
      as (a2 & E2 & I2).
    pose proof (addIssueNodes_ids (l1 ++ issue :: l2)
                  (l1 ++ withDeps issue (d1 ++ d2) :: l2)
                  emptyAnalyzer emptyAnalyzer) as Hsame.
    rewrite E1, E2 in Hsame.
    destruct Hsame as (Hg & Hi & Hn); try done.
    { by rewrite !fmap_app, !fmap_cons. }
    rewrite E1, E2. simpl. rewrite <- Hg, <- Hi, <- Hn.
    assert (idToNode a1 !! DependsOnID dep = None) as Hnone.
    { apply eq_None_not_Some. by rewrite (nb_dom _ _ I1). }
    rewrite !foldM_app. simpl.
    destruct (foldM (addIssueEdges (idToNode a1)) _ l1) as [b1|]; simpl; [|done].
    rewrite <- (addIssueEdges_dangling _ _ _ _ _ _ Hd Hnone).
    destruct (addIssueEdges (idToNode a1) b1 issue) as [b2|]; simpl; [|done].
    by destruct (foldM (addIssueEdges (idToNode a1)) b2 l2).
  - intros a w H. by apply NewAnalyzer_run_spec in H as [_ ->].
  - apply NewAnalyzer_total.
Qed.

Lemma C9_dangling_dependency_skipped_silently_witness :
  built (NewAnalyzer_run issuesGhost) = built (NewAnalyzer_run issuesAB)
  ∧ (∀ a w, NewAnalyzer_run issuesGhost = Some (a, w) → w = [])
  ∧ ((∀ i, i ∈ issuesGhost → ¬ selfDependent i) →
     is_Some (NewAnalyzer issuesGhost)).
Proof.
  apply (C9_dangling_dependency_skipped_silently
           [] (mkIssue "A" [mkDep "A" "B" DepBlocks; mkDep "A" "ghost" DepBlocks])
           [mkIssue "B" []]
           [mkDep "A" "B" DepBlocks] (mkDep "A" "ghost" DepBlocks) []).
  - reflexivity.
  - apply (bool_decide_unpack _). vm_compute. exact Logic.I.
Defined.

(** C9 as stated fails: the dangling dependency of this input is skipped,
    [NewAnalyzer] returns, and the list of warnings is empty. *)
Lemma C9_no_warning_for_dangling_dependency :
  (DependsOnID (mkDep "A" "ghost" DepBlocks) ∉ ID <$> issuesDangling) ∧
  ∃ a, NewAnalyzer_run issuesDangling = Some (a, []) ∧ Edges (g a) = [].
Proof.
  split.
  - simpl. intros H. apply list_elem_of_singleton in H. discriminate H.
  - eexists. split; vm_compute; reflexivity.
Qed.

(** ** Topological orders *)

Lemma ordered_NoDup g sorted : topo.ordered g sorted → NoDup sorted.
Proof. intros [Hp _]. rewrite Hp. apply NoDup_elements. Qed.

Lemma ordered_elem_of g sorted v :
  topo.ordered g sorted → v ∈ sorted ↔ v ∈ nodes g.
Proof. intros [Hp _]. rewrite Hp. apply elem_of_elements. Qed.

Lemma HasEdge_nodes g u v :
  wf g → HasEdgeFromTo g u v → u ∈ nodes g ∧ v ∈ nodes g.
Proof.
  intros Hwf [e He]. fold (efrom g u v) in He.
  by destruct (wf_edge _ Hwf _ _ _ He) as (_ & ? & ? & _).
Qed.

(** Along a path the position in a topological order grows. *)
Lemma ordered_path g sorted u v :
  wf g → topo.ordered g sorted → tc (HasEdgeFromTo g) u v →
  ∃ i j, sorted !! i = Some u ∧ sorted !! j = Some v ∧ (i < j)%nat.
Proof.
  intros Hwf Ho Hp. induction Hp as [u v He|u w v He _ IH].
  - destruct (HasEdge_nodes _ _ _ Hwf He) as [Hu Hv].
    apply (ordered_elem_of _ _ _ Ho), list_elem_of_lookup in Hu as [i Hi].
    apply (ordered_elem_of _ _ _ Ho), list_elem_of_lookup in Hv as [j Hj].
    exists i, j. split_and!; [done..|]. by eapply (proj2 Ho).
  - destruct IH as (j & k & Hj & Hk & Hjk).
    destruct (HasEdge_nodes _ _ _ Hwf He) as [Hu _].
    apply (ordered_elem_of _ _ _ Ho), list_elem_of_lookup in Hu as [i Hi].
    exists i, k. split_and!; [done..|].
    pose proof (proj2 Ho i j u w Hi Hj He). lia.
Qed.

(** A graph that [topo.Sort] can order has no cycle. *)
Lemma ordered_acyclic g sorted :
  wf g → topo.ordered g sorted → topo.acyclic g.
Proof.
  intros Hwf Ho [u Hu].
  destruct (ordered_path _ _ _ _ Hwf Ho Hu) as (i & j & Hi & Hj & Hij).
  pose proof (NoDup_lookup _ _ _ _ (ordered_NoDup _ _ Ho) Hi Hj). lia.
Qed.

Lemma Sort_ok_Some_iff g r :
  wf g → topo.Sort_ok g r → (is_Some r ↔ topo.acyclic g).
Proof.
  intros Hwf Hr. destruct r as [sorted|]; simpl in Hr.
  - split; [intros _; by eapply ordered_acyclic|eauto].
  - split; [by intros [? ?]|]. intros Ha. by destruct Ha.
Qed.

(** ** Claim C1: the emitted topological order *)

(** The ids of the nodes [0 .. len-1] are the ids of the input, in the
    order of the slice. *)
Lemma idOf_firstNodes issues a :
  analyzerBuilt issues a →
  idOf a <$> (Z.of_nat <$> seq 0 (length issues)) = ID <$> issues.
Proof.
  intros I. apply list_eq. intros i. rewrite !list_lookup_fmap.
  destruct (decide (i < length issues)%nat) as [Hlt|Hge].
  - rewrite lookup_seq_lt by done. simpl. unfold idOf.
    rewrite (ab_nodeToID _ _ I).
    destruct (lookup_lt_is_Some_2 issues i Hlt) as [x ->]. done.
  - rewrite lookup_seq_ge, lookup_ge_None_2 by lia. done.
Qed.

Lemma elements_firstNodes n :
  elements (firstNodes n) ≡ₚ Z.of_nat <$> seq 0 n.
Proof.
  unfold firstNodes. apply elements_list_to_set.
  apply NoDup_fmap_2; [apply _|apply NoDup_seq].
Qed.

(** C1, amended.  A non-empty [stats.TopologicalOrder] means an acyclic
    graph.  On an acyclic graph [Analyze] emits the reverse of the order
    [topo.Sort] returns, every issue id occurs in it exactly once, and for
    every edge u -> v of the graph (u depends on v) the ids of u and of v
    both occur, the id of v at a strictly smaller index than the id of u:
    prerequisites first.  In no run does the id of u stand at or before
    the id of v. *)
Theorem C1_prerequisites_come_first issues a k :
  NewAnalyzer issues = Some a → NoDup (ID <$> issues) → Kernels_ok a k →
  (TopologicalOrder (Analyze a k) ≠ [] → topo.acyclic (g a)) ∧
  (topo.acyclic (g a) →
   (∃ sorted, k_Sort k = Some sorted ∧
              TopologicalOrder (Analyze a k) = idOf a <$> reverse sorted) ∧
   TopologicalOrder (Analyze a k) ≡ₚ ID <$> issues ∧
   (∀ u v, HasEdgeFromTo (g a) u v →
      ∃ i j, TopologicalOrder (Analyze a k) !! i = Some (idOf a u) ∧
             TopologicalOrder (Analyze a k) !! j = Some (idOf a v) ∧
             (j < i)%nat)) ∧
  (∀ u v i j,
     HasEdgeFromTo (g a) u v →
     TopologicalOrder (Analyze a k) !! i = Some (idOf a u) →
     TopologicalOrder (Analyze a k) !! j = Some (idOf a v) →
     (j < i)%nat).
Proof.
  intros Ha Hnd (_ & Hs & _). apply NewAnalyzer_spec in Ha.
  pose proof (ab_wf _ _ Ha) as Hwf.
  pose proof (Sort_ok_Some_iff _ _ Hwf Hs) as Hsome.
  split_and!.
  - unfold Analyze. simpl. destruct (k_Sort k) as [sorted|]; [|done].
    intros _. by apply (ordered_acyclic _ sorted).
  - intros [sorted Es]%Hsome. rewrite Es in Hs. simpl in Hs.
    assert (TopologicalOrder (Analyze a k) = idOf a <$> reverse sorted) as Eo.
    { unfold Analyze. simpl. by rewrite Es. }
    split_and!.
    + by exists sorted.
    + rewrite Eo, reverse_Permutation, (proj1 Hs), (ab_nodes _ _ Ha),
        elements_firstNodes.
      by rewrite (idOf_firstNodes issues a).
    + intros u v He.
      destruct (HasEdge_nodes _ _ _ Hwf He) as [Hu Hv].
      apply (ordered_elem_of _ sorted _ Hs), list_elem_of_lookup in Hu as [p Hp].
      apply (ordered_elem_of _ sorted _ Hs), list_elem_of_lookup in Hv as [q Hq].
      pose proof (proj2 Hs _ _ _ _ Hp Hq He) as Hpq.
      pose proof (lookup_lt_Some _ _ _ Hp) as Hpl.
      pose proof (lookup_lt_Some _ _ _ Hq) as Hql.
      exists (length sorted - S p)%nat, (length sorted - S q)%nat.
      rewrite Eo, !list_lookup_fmap. split_and!.
      * assert (reverse sorted !! (length sorted - S p)%nat = Some u) as ->; [|done].
        apply reverse_lookup_Some. split; [|lia].
        by replace (length sorted - S (length sorted - S p))%nat with p by lia.
      * assert (reverse sorted !! (length sorted - S q)%nat = Some v) as ->; [|done].
        apply reverse_lookup_Some. split; [|lia].
        by replace (length sorted - S (length sorted - S q))%nat with q by lia.
      * lia.
  - intros u v i j He. unfold Analyze. simpl.
    destruct (k_Sort k) as [sorted|]; [|by rewrite lookup_nil].
    simpl in Hs. rewrite !list_lookup_fmap_Some.
    intros (u' & Eu & Hi) (v' & Ev & Hj).
    destruct (HasEdge_nodes _ _ _ Hwf He) as [Hu Hv].
    assert (u' ∈ nodes (g a)) as Hu'.
    { apply (ordered_elem_of _ sorted _ Hs). rewrite <- elem_of_reverse.
      apply list_elem_of_lookup. eauto. }
    assert (v' ∈ nodes (g a)) as Hv'.
    { apply (ordered_elem_of _ sorted _ Hs). rewrite <- elem_of_reverse.
      apply list_elem_of_lookup. eauto. }
    apply (idOf_inj issues) in Eu; [|done..]. apply (idOf_inj issues) in Ev; [|done..].
    subst u' v'.
    apply reverse_lookup_Some in Hi as [Hi Hil], Hj as [Hj Hjl].
    pose proof (proj2 Hs _ _ _ _ Hi Hj He). lia.
Qed.

Lemma issuesAB_ordered : topo.ordered (g (analyzerOf issuesAB)) [0; 1].
Proof. concrete_ordered. Qed.

Lemma issuesAB_kernels :
  Kernels_ok (analyzerOf issuesAB) (kernelsFor [0; 1] (Some [0; 1]) [0; 1]).
Proof.
  split_and!; simpl.
  - by_evaluation.
  - apply issuesAB_ordered.
  - intros _. apply issuesAB_ordered.
Qed.

Lemma C1_prerequisites_come_first_witness :
  NewAnalyzer issuesAB = Some (analyzerOf issuesAB) ∧
  NoDup (ID <$> issuesAB) ∧
  (TopologicalOrder (Analyze (analyzerOf issuesAB)
                        (kernelsFor [0; 1] (Some [0; 1]) [0; 1])) ≠ [] →
   topo.acyclic (g (analyzerOf issuesAB))) ∧
  (topo.acyclic (g (analyzerOf issuesAB)) →
   (∃ sorted, k_Sort (kernelsFor [0; 1] (Some [0; 1]) [0; 1]) = Some sorted ∧
      TopologicalOrder (Analyze (analyzerOf issuesAB)
                        (kernelsFor [0; 1] (Some [0; 1]) [0; 1]))
      = idOf (analyzerOf issuesAB) <$> reverse sorted) ∧
   TopologicalOrder (Analyze (analyzerOf issuesAB)
                        (kernelsFor [0; 1] (Some [0; 1]) [0; 1]))
   ≡ₚ ID <$> issuesAB ∧
   (∀ u v, HasEdgeFromTo (g (analyzerOf issuesAB)) u v →
      ∃ i j,
        TopologicalOrder (Analyze (analyzerOf issuesAB)
                        (kernelsFor [0; 1] (Some [0; 1]) [0; 1])) !! i
        = Some (idOf (analyzerOf issuesAB) u) ∧
        TopologicalOrder (Analyze (analyzerOf issuesAB)
                        (kernelsFor [0; 1] (Some [0; 1]) [0; 1])) !! j
        = Some (idOf (analyzerOf issuesAB) v) ∧
        (j < i)%nat)) ∧
  (∀ u v i j,
     HasEdgeFromTo (g (analyzerOf issuesAB)) u v →
     TopologicalOrder (Analyze (analyzerOf issuesAB)
                        (kernelsFor [0; 1] (Some [0; 1]) [0; 1])) !! i
     = Some (idOf (analyzerOf issuesAB) u) →
     TopologicalOrder (Analyze (analyzerOf issuesAB)
                        (kernelsFor [0; 1] (Some [0; 1]) [0; 1])) !! j
     = Some (idOf (analyzerOf issuesAB) v) →
     (j < i)%nat).
Proof.
  split; [vm_compute; reflexivity|].
  split; [apply (bool_decide_unpack _); vm_compute; exact Logic.I|].
  apply (C1_prerequisites_come_first issuesAB).
  - vm_compute. reflexivity.
  - apply (bool_decide_unpack _). vm_compute. exact Logic.I.
  - split_and!; simpl.
    + apply (bool_decide_unpack _). vm_compute. exact Logic.I.
    + apply issuesAB_ordered.
    + intros _. apply issuesAB_ordered.
Defined.

(** C1 as stated fails: A depends on B, so the graph has the edge A -> B,
    and in every run [stats.TopologicalOrder] is [B, A]: A, the source of
    the edge, stands at index 1 and B, its target, at index 0. *)
Lemma C1_dependent_comes_last :
  ∃ a, NewAnalyzer issuesAB = Some a ∧
       HasEdgeFromTo (g a) 0 1 ∧ idOf a 0 = "A" ∧ idOf a 1 = "B" ∧
       Kernels_ok a (kernelsFor [0; 1] (Some [0; 1]) [0; 1]) ∧
       ∀ k, Kernels_ok a k →
            TopologicalOrder (Analyze a k) = ["B"; "A"] ∧
            TopologicalOrder (Analyze a k) !! 1%nat = Some "A" ∧
            TopologicalOrder (Analyze a k) !! 0%nat = Some "B" ∧
            ¬ (1 < 0)%nat.
Proof.
  exists (analyzerOf issuesAB).
  split; [vm_compute; reflexivity|].
  split; [by_evaluation|].
  split; [vm_compute; reflexivity|].
  split; [vm_compute; reflexivity|].
  split; [apply issuesAB_kernels|].
  intros k (_ & Hs & _).
  assert (wf (g (analyzerOf issuesAB))) as Hwf.
  { apply (ab_wf issuesAB), NewAnalyzer_spec. vm_compute. reflexivity. }
  assert (TopologicalOrder (Analyze (analyzerOf issuesAB) k) = ["B"; "A"]) as ->.
  { unfold Analyze. simpl. destruct (k_Sort k) as [sorted|]; simpl in Hs.
    - destruct Hs as [Hp Ho].
      assert (HasEdgeFromTo (g (analyzerOf issuesAB)) 0 1) as He by by_evaluation.
      replace (elements (nodes (g (analyzerOf issuesAB)))) with [1; 0] in Hp
        by (vm_compute; reflexivity).
      symmetry in Hp. apply Permutation_length_2_inv in Hp as [->| ->].
      + pose proof (Ho 1%nat 0%nat 0 1 eq_refl eq_refl He). lia.
      + vm_compute. reflexivity.
    - exfalso. by apply (ordered_acyclic _ _ Hwf issuesAB_ordered). }
  split_and!; [done..|lia].
Qed.

(** ** [computeHeights] *)

Lemma Qgtb_true x y : Qgtb x y = true ↔ (y < x)%Q.
Proof.
  unfold Qgtb. rewrite negb_true_iff, <- not_true_iff_false, Qle_bool_iff.
  split; [apply Qnot_le_lt|apply Qlt_not_le].
Qed.

Lemma Qgtb_false x y : Qgtb x y = false ↔ (x <= y)%Q.
Proof. unfold Qgtb. by rewrite negb_false_iff, Qle_bool_iff. Qed.

Lemma maxParentHeight_snoc hs ps p :
  maxParentHeight hs (ps ++ [p]) =
    match hs !! p with
    | Some h => if Qgtb h (maxParentHeight hs ps) then h else maxParentHeight hs ps
    | None => maxParentHeight hs ps
    end.
Proof. unfold maxParentHeight. by rewrite foldl_snoc. Qed.

Lemma maxParentHeight_spec hs ps :
  (0 <= maxParentHeight hs ps)%Q ∧
  (∀ p h, p ∈ ps → hs !! p = Some h → (h <= maxParentHeight hs ps)%Q) ∧
  (maxParentHeight hs ps = 0%Q ∨
   ∃ p, p ∈ ps ∧ hs !! p = Some (maxParentHeight hs ps)).
Proof.
  induction ps as [|q ps (IH0 & IHle & IHat)] using rev_ind.
  - split_and!; [done| |by left]. intros p h Hp. by apply elem_of_nil in Hp.
  - rewrite maxParentHeight_snoc.
    destruct (hs !! q) as [hq|] eqn:Eq.
    + destruct (Qgtb hq (maxParentHeight hs ps)) eqn:Egt.
      * apply Qgtb_true in Egt. split_and!.
        -- lra.
        -- intros p h [Hp| ->%list_elem_of_singleton]%elem_of_app Hh.
           ++ specialize (IHle p h Hp Hh). lra.
           ++ rewrite Eq in Hh. injection Hh as ->. lra.
        -- right. exists q. split; [|done]. apply elem_of_app. right. left.
      * apply Qgtb_false in Egt. split_and!.
        -- done.
        -- intros p h [Hp| ->%list_elem_of_singleton]%elem_of_app Hh.
           ++ by apply IHle with p.
           ++ rewrite Eq in Hh. by injection Hh as ->.
        -- destruct IHat as [?|(p & Hp & Hh)]; [by left|].
           right. exists p. split; [|done]. apply elem_of_app. by left.
    + split_and!.
      * done.
      * intros p h [Hp| ->%list_elem_of_singleton]%elem_of_app Hh.
        -- by apply IHle with p.
        -- congruence.
      * destruct IHat as [?|(p & Hp & Hh)]; [by left|].
        right. exists p. split; [|done]. apply elem_of_app. by left.
Qed.

(** The inner loop reads [heights] at the parents only. *)
Lemma maxParentHeight_ext hs hs' ps :
  (∀ p, p ∈ ps → hs !! p = hs' !! p) →
  maxParentHeight hs ps = maxParentHeight hs' ps.
Proof.
  induction ps as [|q ps IH] using rev_ind; intros Hext; [done|].
  rewrite !maxParentHeight_snoc.
  rewrite <- (Hext q) by (apply elem_of_app; right; left).
  rewrite <- IH; [done|]. intros p Hp. apply Hext, elem_of_app. by left.
Qed.

(** gonum hands out the parents in no fixed order; the maximum found is
    the same number for every order. *)
Lemma maxParentHeight_any_order hs ps ps' :
  ps ≡ₚ ps' → (maxParentHeight hs ps == maxParentHeight hs ps')%Q.
Proof.
  intros Hp.
  destruct (maxParentHeight_spec hs ps) as (H0 & Hle & Hat).
  destruct (maxParentHeight_spec hs ps') as (H0' & Hle' & Hat').
  apply Qle_antisym.
  - destruct Hat as [->|(p & Hin & Hh)]; [done|].
    apply (Hle' p); [by rewrite <- Hp|done].
  - destruct Hat' as [->|(p & Hin & Hh)]; [done|].
    apply (Hle p); [by rewrite Hp|done].
Qed.

Section heights.
Context (issues : list Issue) (a : Analyzer).
Hypothesis built_a : analyzerBuilt issues a.
Hypothesis unique_ids : NoDup (ID <$> issues).

Lemma heights_prefix sorted P rest :
  topo.ordered (g a) sorted → sorted = P ++ rest →
  heightsInv a P (computeHeights_loop a P).
Proof.
  intros Ho. revert rest.
  induction P as [|n P IH] using rev_ind; intros rest Hs.
  - split; simpl.
    + intros n. rewrite lookup_empty. split; [by intros [? ?]|].
      by intros ?%elem_of_nil.
    + by intros n ?%elem_of_nil.
    + by intros n ?%elem_of_nil.
    + intros s h. by rewrite lookup_empty.
    + intros n h. by rewrite lookup_empty.
  - rewrite <- app_assoc in Hs. simpl in Hs.
    specialize (IH _ Hs).
    unfold computeHeights_loop. rewrite foldl_snoc.
    fold (computeHeights_loop a P).
    destruct (computeHeights_loop a P) as [hs sc] eqn:Est.
    destruct IH as [Idom Irec Iscore Ikeys Ipos]. simpl in *.
    pose proof (ordered_NoDup _ _ Ho) as Hnd. rewrite Hs in Hnd.
    assert (n ∉ P) as HnP.
    { apply NoDup_app in Hnd as (_ & Hd & _). intros Hin.
      apply (Hd n Hin). left. }
    assert (sorted !! length P = Some n) as Hpos
      by (rewrite Hs; apply list_lookup_middle; done).
    assert (∀ m, m ∈ P → ∃ i, (i < length P)%nat ∧ sorted !! i = Some m) as Hidx.
    { intros m [i Hi]%list_elem_of_lookup. exists i.
      pose proof (lookup_lt_Some _ _ _ Hi). split; [done|].
      rewrite Hs. by rewrite lookup_app_l. }
    assert (∀ m, m ∈ P ++ [n] → m ∈ nodes (g a)) as Hnodes.
    { intros m Hm. apply (ordered_elem_of _ sorted _ Ho). rewrite Hs.
      apply elem_of_app in Hm as [Hm|Hm%list_elem_of_singleton].
      - apply elem_of_app. by left.
      - subst m. apply elem_of_app. right. left. }
    assert (∀ m, m ∈ P ++ [n] → ∀ p, p ∈ To (g a) m →
                 <[n:=(1 + maxParentHeight hs (To (g a) n))%Q]> hs !! p = hs !! p)
      as Hsame.
    { intros m Hm p Hp. apply lookup_insert_ne. intros <-.
      apply (elem_of_To _ _ _ (ab_wf _ _ built_a)) in Hp.
      apply elem_of_app in Hm as [Hm|Hm%list_elem_of_singleton].
      - destruct (Hidx m Hm) as (i & Hi & Him).
        pose proof (proj2 Ho _ _ _ _ Hpos Him Hp). lia.
      - subst m. destruct Hp as [e He]. fold (efrom (g a) n n) in He.
        by destruct (wf_edge _ (ab_wf _ _ built_a) _ _ _ He) as (_ & _ & _ & ?). }
    unfold heightStep. simpl. split; simpl.
    + intros m. rewrite elem_of_app, list_elem_of_singleton.
      destruct (decide (m = n)) as [->|Hm].
      * rewrite lookup_insert_eq. split; eauto.
      * rewrite lookup_insert_ne by done. rewrite Idom. tauto.
    + intros m Hm.
      rewrite <- (maxParentHeight_ext hs (<[n:=_]> hs) (To (g a) m))
        by (intros p Hp; symmetry; by eapply Hsame).
      apply elem_of_app in Hm as [Hm|Hm%list_elem_of_singleton].
      * rewrite lookup_insert_ne by (intros <-; done). by apply Irec.
      * subst m. by rewrite lookup_insert_eq.
    + intros m Hm.
      apply elem_of_app in Hm as [Hm|Hm%list_elem_of_singleton].
      * assert (m ≠ n) as Hmn by (intros ->; done).
        rewrite !lookup_insert_ne; [by apply Iscore|done|].
        intros E. apply Hmn. symmetry.
        apply (idOf_inj issues a); try done; apply Hnodes.
        -- apply elem_of_app. right. left.
        -- apply elem_of_app. by left.
      * subst m. by rewrite !lookup_insert_eq.
    + intros s h. destruct (decide (s = idOf a n)) as [->|Hs'].
      * intros _. exists n. split; [|done]. apply elem_of_app. right. left.
      * rewrite lookup_insert_ne by done. intros H.
        destruct (Ikeys _ _ H) as (m & Hm & ->).
        exists m. split; [|done]. apply elem_of_app. by left.
    + intros m h. destruct (decide (m = n)) as [->|Hm].
      * rewrite lookup_insert_eq. intros [= <-].
        pose proof (maxParentHeight_spec hs (To (g a) n)) as (H0 & _). lra.
      * rewrite lookup_insert_ne by done. apply Ipos.
Qed.

Lemma heights_final sorted :
  topo.ordered (g a) sorted →
  heightsInv a sorted (computeHeights_loop a sorted).
Proof. intros Ho. apply (heights_prefix sorted sorted []); [done|]. by rewrite app_nil_r. Qed.

(** The recurrence of the critical-path score, on the node heights. *)
Lemma heights_recurrence sorted v :
  topo.ordered (g a) sorted → v ∈ nodes (g a) →
  ∃ h m, (computeHeights_loop a sorted).1 !! v = Some h ∧
         computeHeights a sorted !! idOf a v = Some h ∧
         h = (1 + m)%Q ∧
         maxOverParents (g a)
           (λ u, default 0%Q (computeHeights a sorted !! idOf a u)) v m.
Proof.
  intros Ho Hv.
  destruct (heights_final sorted Ho) as [Idom Irec Iscore Ikeys Ipos].
  unfold computeHeights.
  destruct (computeHeights_loop a sorted) as [hs sc]. simpl in *.
  apply (ordered_elem_of _ sorted _ Ho) in Hv.
  assert (∀ u, HasEdgeFromTo (g a) u v →
               ∃ hu, hs !! u = Some hu ∧ default 0%Q (sc !! idOf a u) = hu ∧
                     (1 <= hu)%Q) as Hparent.
  { intros u He.
    destruct (HasEdge_nodes _ _ _ (ab_wf _ _ built_a) He) as [Hu _].
    apply (ordered_elem_of _ sorted _ Ho) in Hu.
    destruct (proj2 (Idom u) Hu) as [hu Ehu].
    exists hu. rewrite (Iscore u Hu), Ehu. split_and!; [done..|]. by eapply Ipos. }
  exists (1 + maxParentHeight hs (To (g a) v))%Q, (maxParentHeight hs (To (g a) v)).
  split_and!; [by apply Irec|by rewrite Iscore; [apply Irec|]|done|].
  destruct (maxParentHeight_spec hs (To (g a) v)) as (H0 & Hle & Hat).
  split.
  - intros u He. destruct (Hparent u He) as (hu & Ehu & -> & _).
    apply (Hle u); [|done]. by apply (elem_of_To _ _ _ (ab_wf _ _ built_a)).
  - destruct Hat as [E0|(p & Hp & Ep)].
    + left. split; [done|]. intros u He.
      destruct (Hparent u He) as (hu & Ehu & _ & H1).
      assert (hu <= maxParentHeight hs (To (g a) v))%Q as Hhu.
      { apply (Hle u); [|done]. by apply (elem_of_To _ _ _ (ab_wf _ _ built_a)). }
      rewrite E0 in Hhu. lra.
    + right. exists p.
      apply (elem_of_To _ _ _ (ab_wf _ _ built_a)) in Hp.
      split; [done|].
      destruct (Hparent p Hp) as (hp & Ehp & <- & _). congruence.
Qed.
End heights.

(** Whatever topological order the second call of [topo.Sort] returns,
    [computeHeights] yields the same map. *)
Lemma computeHeights_any_order issues a s1 s2 :
  analyzerBuilt issues a → NoDup (ID <$> issues) →
  topo.ordered (g a) s1 → topo.ordered (g a) s2 →
  computeHeights a s1 = computeHeights a s2.
Proof.
  intros Ha Hnd Ho1 Ho2.
  destruct (heights_final issues a Ha Hnd s1 Ho1) as [Idom1 Irec1 Iscore1 Ikeys1 _].
  destruct (heights_final issues a Ha Hnd s2 Ho2) as [Idom2 Irec2 Iscore2 Ikeys2 _].
  unfold computeHeights.
  destruct (computeHeights_loop a s1) as [hs1 sc1].
  destruct (computeHeights_loop a s2) as [hs2 sc2]. simpl in *.
  assert (∀ v, v ∈ s1 ↔ v ∈ s2) as Hsame.
  { intros v. by rewrite (ordered_elem_of _ s1 _ Ho1), (ordered_elem_of _ s2 _ Ho2). }
  assert (∀ P rest, s1 = P ++ rest → ∀ v, v ∈ P → hs1 !! v = hs2 !! v) as Hpre.
  { induction P as [|n P IH] using rev_ind; intros rest Hs v Hv.
    { by apply elem_of_nil in Hv. }
    rewrite <- app_assoc in Hs. simpl in Hs.
    apply elem_of_app in Hv as [Hv|Hv%list_elem_of_singleton]; [by eapply IH|].
    subst v.
    assert (n ∈ s1) as Hn1 by (rewrite Hs; apply elem_of_app; right; left).
    rewrite (Irec1 n Hn1), (Irec2 n) by (by apply Hsame).
    do 2 f_equal. apply maxParentHeight_ext. intros p Hp.
    apply (IH _ Hs).
    apply (elem_of_To _ _ _ (ab_wf _ _ Ha)) in Hp.
    destruct (HasEdge_nodes _ _ _ (ab_wf _ _ Ha) Hp) as [Hpn _].
    apply (ordered_elem_of _ s1 _ Ho1), list_elem_of_lookup in Hpn as [i Hi].
    assert (s1 !! length P = Some n) as Hpos
      by (rewrite Hs; apply list_lookup_middle; done).
    pose proof (proj2 Ho1 _ _ _ _ Hi Hpos Hp) as Hlt.
    rewrite Hs, lookup_app_l in Hi by done.
    apply list_elem_of_lookup. eauto. }
  assert (∀ v, v ∈ s1 → hs1 !! v = hs2 !! v) as Heq.
  { apply (Hpre s1 []). by rewrite app_nil_r. }
  apply map_eq. intros s.
  destruct (sc1 !! s) as [h1|] eqn:E1.
  - destruct (Ikeys1 _ _ E1) as (n & Hn & ->).
    rewrite Iscore2 by (by apply Hsame). rewrite <- Heq by done.
    by rewrite <- Iscore1.
  - destruct (sc2 !! s) as [h2|] eqn:E2; [|done].
    destruct (Ikeys2 _ _ E2) as (n & Hn & ->).
    rewrite Iscore1 in E1 by (by apply Hsame).
    rewrite Iscore2 in E2 by done.
    rewrite Heq in E1 by (by apply Hsame). congruence.
Qed.

(** ** Claim C7: the critical-path score *)

(** C7.  On an acyclic graph the critical-path score of every node [v] is
    [1 + m], where [m] is the largest score among the nodes [u] with an
    edge [u -> v], and [0] when there is none, so that a node without
    incoming edge has score 1.  On a graph with a cycle the computation is
    skipped: the map stays empty and every score reads 0. *)
Theorem C7_critical_path_score issues a k :
  NewAnalyzer issues = Some a → NoDup (ID <$> issues) → Kernels_ok a k →
  (topo.acyclic (g a) →
   ∀ v, v ∈ nodes (g a) →
     (∃ m, score (Analyze a k) (idOf a v) = (1 + m)%Q ∧
           maxOverParents (g a) (λ u, score (Analyze a k) (idOf a u)) v m) ∧
     ((∀ u, ¬ HasEdgeFromTo (g a) u v) → score (Analyze a k) (idOf a v) = 1%Q))
  ∧ (topo.cyclic (g a) →
     CriticalPathScore (Analyze a k) = ∅ ∧ ∀ id, score (Analyze a k) id = 0%Q).
Proof.
  intros Ha Hnd (_ & Hs & Hh). apply NewAnalyzer_spec in Ha.
  pose proof (Sort_ok_Some_iff _ _ (ab_wf _ _ Ha) Hs) as Hsome.
  split.
  - intros Hacyc v Hv. apply Hsome in Hacyc as Hsorted. destruct Hsorted as [sorted Es].
    specialize (Hh Hacyc).
    assert (∀ id, score (Analyze a k) id
                  = default 0%Q (computeHeights a (k_SortHeights k) !! id)) as Hscore.
    { intros id. unfold score, Analyze. simpl. by rewrite Es. }
    destruct (heights_recurrence issues a Ha Hnd _ v Hh Hv)
      as (h & m & _ & Eh & -> & Hmax).
    assert (∃ m, score (Analyze a k) (idOf a v) = (1 + m)%Q ∧
                 maxOverParents (g a) (λ u, score (Analyze a k) (idOf a u)) v m)
      as Hrec.
    { exists m. split; [by rewrite Hscore, Eh|].
      destruct Hmax as [Hle Hat]. split.
      - intros u He. rewrite Hscore. by apply Hle.
      - destruct Hat as [?|(u & He & ->)]; [by left|].
        right. exists u. by rewrite Hscore. }
    split; [done|].
    intros Hsrc. destruct Hrec as (m' & -> & _ & [[-> _]|(u & He & _)]); [done|].
    by destruct (Hsrc u).
  - intros Hcyc. assert (k_Sort k = None) as Es.
    { destruct (k_Sort k) as [sorted|]; [|done].
      exfalso. apply (proj1 Hsome); eauto. }
    unfold score, Analyze. simpl. rewrite Es. split; [done|].
    intros id. by rewrite lookup_empty.
Qed.

Lemma issuesChain_ordered : topo.ordered (g (analyzerOf issuesChain)) [0; 1; 2].
Proof. concrete_ordered. Qed.

Lemma C7_critical_path_score_witness :
  (topo.acyclic (g (analyzerOf issuesChain)) →
   ∀ v, v ∈ nodes (g (analyzerOf issuesChain)) →
     (∃ m, score (Analyze (analyzerOf issuesChain)
                    (kernelsFor [0; 1; 2] (Some [0; 1; 2]) [0; 1; 2]))
                 (idOf (analyzerOf issuesChain) v) = (1 + m)%Q ∧
           maxOverParents (g (analyzerOf issuesChain))
             (λ u, score (Analyze (analyzerOf issuesChain)
                            (kernelsFor [0; 1; 2] (Some [0; 1; 2]) [0; 1; 2]))
                         (idOf (analyzerOf issuesChain) u)) v m) ∧
     ((∀ u, ¬ HasEdgeFromTo (g (analyzerOf issuesChain)) u v) →
      score (Analyze (analyzerOf issuesChain)
               (kernelsFor [0; 1; 2] (Some [0; 1; 2]) [0; 1; 2]))
            (idOf (analyzerOf issuesChain) v) = 1%Q))
  ∧ (topo.cyclic (g (analyzerOf issuesChain)) →
     CriticalPathScore (Analyze (analyzerOf issuesChain)
                          (kernelsFor [0; 1; 2] (Some [0; 1; 2]) [0; 1; 2])) = ∅ ∧
     ∀ id, score (Analyze (analyzerOf issuesChain)
                    (kernelsFor [0; 1; 2] (Some [0; 1; 2]) [0; 1; 2])) id = 0%Q).
Proof.
  apply (C7_critical_path_score issuesChain).
  - vm_compute. reflexivity.
  - apply (bool_decide_unpack _). vm_compute. exact Logic.I.
  - split_and!; simpl.
    + apply (bool_decide_unpack _). vm_compute. exact Logic.I.
    + apply issuesChain_ordered.
    + intros _. apply issuesChain_ordered.
Defined.

(** ** Sorting *)

Lemma StronglySorted_lookup {A} (R : relation A) l i j x y :
  StronglySorted R l → l !! i = Some x → l !! j = Some y → (i < j)%nat → R x y.
Proof.
  intros Hs. revert i j. induction Hs as [|z l Hs IH Hz]; intros i j Hi Hj Hij.
  - by rewrite lookup_nil in Hi.
  - destruct j as [|j]; [lia|]. simpl in Hj. destruct i as [|i]; simpl in Hi.
    + injection Hi as ->. rewrite Forall_forall in Hz. apply Hz.
      apply list_elem_of_lookup. eauto.
    + apply (IH i j); [done..|lia].
Qed.

Lemma StronglySorted_take {A} (R : relation A) n l :
  StronglySorted R l → StronglySorted R (take n l).
Proof.
  intros Hs. rewrite <- (take_drop n l) in Hs.
  by apply StronglySorted_app_1_l in Hs.
Qed.

Lemma StronglySorted_reverse {A} (R : relation A) l :
  StronglySorted R l → StronglySorted (flip R) (reverse l).
Proof.
  induction 1 as [|x l Hs IH Hx]; [constructor|].
  rewrite reverse_cons. apply StronglySorted_app_2; [|done|repeat constructor].
  intros y z Hy ->%list_elem_of_singleton. unfold flip.
  rewrite Forall_forall in Hx. apply Hx. by apply elem_of_reverse.
Qed.

(** [insertionSortLessFunc] meets what [sort.Slice] promises, for a
    comparison under which "not less" is transitive and which is
    asymmetric. *)
Section insertion.
Context {A : Type} (lt : A → A → bool).
Hypothesis lt_asym : ∀ x y, lt x y = true → lt y x = false.
Hypothesis ge_trans : ∀ x y z, lt x y = false → lt y z = false → lt x z = false.

Lemma sinkLeft_perm x rp : sinkLeft lt x rp ≡ₚ x :: rp.
Proof.
  induction rp as [|y rp IH]; simpl; [done|].
  destruct (lt x y); [|done]. rewrite IH. apply Permutation_swap.
Qed.

Lemma sinkLeft_sorted x rp :
  StronglySorted (λ a b, lt a b = false) rp →
  StronglySorted (λ a b, lt a b = false) (sinkLeft lt x rp).
Proof.
  induction 1 as [|y rp Hs IH Hy]; simpl; [repeat constructor|].
  destruct (lt x y) eqn:E.
  - constructor; [done|]. rewrite sinkLeft_perm. constructor; [|done].
    by apply lt_asym.
  - constructor; [by constructor|]. constructor; [done|].
    eapply Forall_impl; [exact Hy|]. intros z Hz. by eapply ge_trans.
Qed.

Lemma insertionSort_post l : sort_Slice_post lt l (insertionSort lt l).
Proof.
  unfold sort_Slice_post, insertionSort.
  assert (∀ rp, StronglySorted (λ a b, lt a b = false) rp →
            foldl (λ rp x, sinkLeft lt x rp) rp l ≡ₚ reverse l ++ rp ∧
            StronglySorted (λ a b, lt a b = false)
              (foldl (λ rp x, sinkLeft lt x rp) rp l)) as Hgen.
  { induction l as [|x l IH]; intros rp Hrp; simpl; [done|].
    destruct (IH (sinkLeft lt x rp) (sinkLeft_sorted x rp Hrp)) as [Hp Hs].
    split; [|done]. rewrite Hp, sinkLeft_perm, reverse_cons, <- app_assoc.
    done. }
  destruct (Hgen [] (SSorted_nil _)) as [Hp Hs]. split.
  - rewrite reverse_Permutation, Hp, app_nil_r. apply reverse_Permutation.
  - by apply StronglySorted_reverse in Hs.
Qed.
End insertion.

Lemma less_asym (x y : kv) : less x y = true → less y x = false.
Proof. unfold less. rewrite Qgtb_true, Qgtb_false. lra. Qed.

Lemma less_ge_trans (x y z : kv) :
  less x y = false → less y z = false → less x z = false.
Proof. unfold less. rewrite !Qgtb_false. lra. Qed.

(** ** [getTopItems] *)

Lemma getTopItems_visiting_run m ss limit :
  range_order m ss → getTopItems m limit (getTopItems_visiting ss limit).
Proof.
  intros Hr. apply (getTopItems_run m limit ss); [done|].
  apply insertionSort_post; [apply less_asym|apply less_ge_trans].
Qed.

Lemma getTopItems_topN m limit l : getTopItems m limit l → topN m limit l.
Proof.
  intros [ss sorted Hr [Hp Hs]]. unfold range_order in Hr.
  unfold topN, firstN. split_and!.
  - rewrite length_fmap, length_take, Hp, Hr, length_map_to_list. done.
  - intros x Hx. apply list_elem_of_fmap in Hx as ([id v] & -> & Hin). simpl.
    apply elem_of_take in Hin as (i & Hi & _).
    apply elem_of_map_to_list. rewrite <- Hr, <- Hp.
    apply list_elem_of_lookup. eauto.
  - intros i j x y Hi Hj Hij.
    apply list_lookup_fmap_Some in Hi as (ex & -> & Hi).
    apply list_lookup_fmap_Some in Hj as (ey & -> & Hj). simpl.
    apply (StronglySorted_take _ (Z.to_nat limit)) in Hs.
    pose proof (StronglySorted_lookup _ _ _ _ _ _ Hs Hi Hj Hij) as H.
    simpl in H. unfold less in H. by apply Qgtb_false in H.
Qed.

Lemma fmap_eq_Forall2 {A B} (f : A → B) (l1 l2 : list A) :
  f <$> l1 = f <$> l2 → Forall2 (λ x y, f x = f y) l1 l2.
Proof.
  revert l2. induction l1 as [|x l1 IH]; intros [|y l2] H; simplify_eq/=;
    constructor; auto.
Qed.

Lemma Q2Qc_le (p q : Q) : (p <= q)%Q → (Q2Qc p <= Q2Qc q)%Qc.
Proof. intros H. unfold Qcle. simpl. by rewrite !Qred_correct. Qed.

(** Two outcomes of [sort.Slice] on the same entries carry the same
    values position by position. *)
Lemma sorted_values_agree (s1 s2 : list kv) :
  s1 ≡ₚ s2 →
  StronglySorted (λ x y, less y x = false) s1 →
  StronglySorted (λ x y, less y x = false) s2 →
  Forall2 (λ x y : kv, (x.2 == y.2)%Q) s1 s2.
Proof.
  intros Hp H1 H2.
  assert ((λ e : kv, Q2Qc e.2) <$> s1 = (λ e : kv, Q2Qc e.2) <$> s2) as Heq.
  { apply (StronglySorted_unique_strong (flip Qcle)).
    - intros x y _ _ Hxy Hyx. by apply Qcle_antisym.
    - eapply StronglySorted_fmap; [|exact H1].
      intros x y Hxy. unfold flip. apply Q2Qc_le.
      unfold less in Hxy. by apply Qgtb_false in Hxy.
    - eapply StronglySorted_fmap; [|exact H2].
      intros x y Hxy. unfold flip. apply Q2Qc_le.
      unfold less in Hxy. by apply Qgtb_false in Hxy.
    - by rewrite Hp. }
  apply fmap_eq_Forall2 in Heq.
  eapply Forall2_impl; [exact Heq|]. intros x y H. by apply Q2Qc_eq_iff.
Qed.

Lemma getTopItems_sameValues m limit l1 l2 :
  getTopItems m limit l1 → getTopItems m limit l2 → sameValues l1 l2.
Proof.
  intros [ss1 s1 Hr1 [Hp1 Hs1]] [ss2 s2 Hr2 [Hp2 Hs2]].
  unfold range_order in *. unfold sameValues, firstN.
  apply Forall2_fmap. simpl. apply Forall2_take.
  apply sorted_values_agree; [|done..].
  by rewrite Hp1, Hp2, Hr1, Hr2.
Qed.

(** When no two entries of the map have the same value, [getTopItems]
    has one possible result. *)
Lemma getTopItems_unique m limit l1 l2 :
  (∀ i j x y, m !! i = Some x → m !! j = Some y → (x == y)%Q → i = j) →
  getTopItems m limit l1 → getTopItems m limit l2 → l1 = l2.
Proof.
  intros Hdistinct [ss1 s1 Hr1 [Hp1 Hs1]] [ss2 s2 Hr2 [Hp2 Hs2]].
  unfold range_order in *. f_equal.
  apply (StronglySorted_unique_strong (λ x y : kv, less y x = false));
    [|done..|by rewrite Hp1, Hp2, Hr1, Hr2].
  intros [i x] [j y] Hx Hy Hxy Hyx.
  rewrite Hp1, Hr1 in Hx. rewrite Hp2, Hr2 in Hy.
  apply elem_of_map_to_list in Hx, Hy.
  unfold less in Hxy, Hyx. simpl in *.
  apply Qgtb_false in Hxy, Hyx.
  assert (x == y)%Q as Exy by lra.
  pose proof (Hdistinct _ _ _ _ Hx Hy Exy) as ->. congruence.
Qed.

(** ** Claims C5, C4, C6: the insights *)

(** C5, amended.  Each of the five top-N lists of [GenerateInsights] has
    min(N, size of the metric map) entries, hence at most N, all of them
    entries of the metric map, in order of non-increasing metric value.
    Entries of equal value stand in no particular order: the sort
    compares values only. *)
Theorem C5_top_lists_sorted_by_value s limit out :
  GenerateInsights s limit out →
  topN (Betweenness s) limit (Bottlenecks out) ∧
  topN (CriticalPathScore s) limit (Keystones out) ∧
  topN (Eigenvector s) limit (Influencers out) ∧
  topN (Hubs s) limit (Hubs_ out) ∧
  topN (Authorities s) limit (Authorities_ out).
Proof.
  intros [b k i h au Hb Hk Hi Hh Hau]. simpl.
  split_and!; by apply getTopItems_topN.
Qed.

Lemma issuesTwo_ordered : topo.ordered (g (analyzerOf issuesTwo)) [0; 1].
Proof. concrete_ordered. Qed.

Lemma issuesTwo_kernels : Kernels_ok (analyzerOf issuesTwo) kernelsTwo.
Proof.
  split_and!; simpl.
  - by_evaluation.
  - apply issuesTwo_ordered.
  - intros _. apply issuesTwo_ordered.
Qed.

Lemma empty_range : range_order ∅ [].
Proof. unfold range_order. by rewrite map_to_list_empty. Qed.

(** Both visiting orders of the two equal scores are runs. *)
Lemma insightsTwo_run first second :
  [(first, 1%Q); (second, 1%Q)] ≡ₚ [("a", 1%Q); ("b", 1%Q)] →
  GenerateInsights (Analyze (analyzerOf issuesTwo) kernelsTwo) 50
    (insightsTwo first second).
Proof.
  intros Hp. unfold insightsTwo.
  apply GenerateInsights_run; try (apply getTopItems_visiting_run, empty_range).
  apply getTopItems_visiting_run. unfold range_order. rewrite Hp.
  vm_compute. reflexivity.
Qed.

Lemma insightsTwo_pipeline first second :
  [(first, 1%Q); (second, 1%Q)] ≡ₚ [("a", 1%Q); ("b", 1%Q)] →
  pipeline issuesTwo 50 (insightsTwo first second).
Proof.
  intros Hp. exists (analyzerOf issuesTwo), kernelsTwo. split_and!.
  - vm_compute. reflexivity.
  - apply issuesTwo_kernels.
  - by apply insightsTwo_run.
Qed.

Lemma C5_top_lists_sorted_by_value_witness :
  topN (Betweenness (Analyze (analyzerOf issuesTwo) kernelsTwo)) 50
       (Bottlenecks (insightsTwo "b" "a")) ∧
  topN (CriticalPathScore (Analyze (analyzerOf issuesTwo) kernelsTwo)) 50
       (Keystones (insightsTwo "b" "a")) ∧
  topN (Eigenvector (Analyze (analyzerOf issuesTwo) kernelsTwo)) 50
       (Influencers (insightsTwo "b" "a")) ∧
  topN (Hubs (Analyze (analyzerOf issuesTwo) kernelsTwo)) 50
       (Hubs_ (insightsTwo "b" "a")) ∧
  topN (Authorities (Analyze (analyzerOf issuesTwo) kernelsTwo)) 50
       (Authorities_ (insightsTwo "b" "a")).
Proof.
  apply (C5_top_lists_sorted_by_value
           (Analyze (analyzerOf issuesTwo) kernelsTwo) 50 (insightsTwo "b" "a")).
  apply insightsTwo_run. apply Permutation_swap.
Defined.

(** C5 as stated fails: the issues a and b both have critical-path score
    1, and in the run in which [range] meets b first the keystones are
    [b, a]: equal values, ids in descending order. *)
Lemma C5_tie_not_broken_by_id :
  pipeline issuesTwo 50 (insightsTwo "b" "a") ∧
  Keystones (insightsTwo "b" "a")
  = [{| ItemID := "b"; Value := 1 |}; {| ItemID := "a"; Value := 1 |}] ∧
  ¬ sortedWithTieBreak (Keystones (insightsTwo "b" "a")).
Proof.
  split_and!.
  - apply insightsTwo_pipeline, Permutation_swap.
  - vm_compute. reflexivity.
  - intros H.
    destruct (H 0%nat 1%nat {| ItemID := "b"; Value := 1 |}
                {| ItemID := "a"; Value := 1 |}) as [Hlt|[_ Hid]];
      [vm_compute; reflexivity..|lia| |].
    + simpl in Hlt. lra.
    + vm_compute in Hid. discriminate Hid.
Qed.

(** [GenerateInsights] always has a result. *)
Lemma GenerateInsights_total s limit : ∃ out, GenerateInsights s limit out.
Proof.
  eexists. apply GenerateInsights_run;
    (eapply getTopItems_visiting_run; unfold range_order; reflexivity).
Qed.

Lemma GenerateInsights_sameValues s limit o1 o2 :
  GenerateInsights s limit o1 → GenerateInsights s limit o2 →
  sameValues (Bottlenecks o1) (Bottlenecks o2) ∧
  sameValues (Keystones o1) (Keystones o2) ∧
  sameValues (Influencers o1) (Influencers o2) ∧
  sameValues (Hubs_ o1) (Hubs_ o2) ∧
  sameValues (Authorities_ o1) (Authorities_ o2) ∧
  Orphans o1 = Orphans o2 ∧ Cycles_ o1 = Cycles_ o2 ∧
  ClusterDensity o1 = ClusterDensity o2 ∧ Stats o1 = Stats o2.
Proof.
  intros [b1 k1 i1 h1 au1 Hb1 Hk1 Hi1 Hh1 Hau1] [b2 k2 i2 h2 au2 Hb2 Hk2 Hi2 Hh2 Hau2].
  simpl. split_and!; try done; by eapply getTopItems_sameValues.
Qed.

(** The critical-path scores do not depend on the orders [topo.Sort]
    happens to return. *)
Lemma CriticalPathScore_any_run issues a k1 k2 :
  NewAnalyzer issues = Some a → NoDup (ID <$> issues) →
  Kernels_ok a k1 → Kernels_ok a k2 →
  CriticalPathScore (Analyze a k1) = CriticalPathScore (Analyze a k2).
Proof.
  intros Ha Hnd (_ & Hs1 & Hh1) (_ & Hs2 & Hh2). apply NewAnalyzer_spec in Ha.
  pose proof (Sort_ok_Some_iff _ _ (ab_wf _ _ Ha) Hs1) as Hsome1.
  pose proof (Sort_ok_Some_iff _ _ (ab_wf _ _ Ha) Hs2) as Hsome2.
  unfold Analyze. simpl.
  destruct (k_Sort k1) as [s1|], (k_Sort k2) as [s2|].
  - assert (topo.acyclic (g a)) as Hacyc by (apply Hsome1; eauto).
    apply (computeHeights_any_order issues); auto.
  - exfalso. assert (is_Some (@None (list Z))) as [? ?]; [|done].
    apply Hsome2, Hsome1. eauto.
  - exfalso. assert (is_Some (@None (list Z))) as [? ?]; [|done].
    apply Hsome1, Hsome2. eauto.
  - done.
Qed.

(** C4, amended.  Two runs of the pipeline on the same input (with unique
    issue ids) compute the same critical-path scores, and their keystone
    lists carry the same metric values position by position; they are the
    same list when no two issues have the same score.  More generally two
    runs of [GenerateInsights] on the same statistics agree on the values
    of all five lists and on every other field.  Which of several entries
    of equal value comes first is not determined and may differ from run
    to run. *)
Theorem C4_runs_agree_up_to_ties issues limit o1 o2 :
  NoDup (ID <$> issues) →
  pipeline issues limit o1 → pipeline issues limit o2 →
  CriticalPathScore (Stats o1) = CriticalPathScore (Stats o2) ∧
  sameValues (Keystones o1) (Keystones o2) ∧
  ((∀ i j x y, CriticalPathScore (Stats o1) !! i = Some x →
               CriticalPathScore (Stats o1) !! j = Some y →
               (x == y)%Q → i = j) →
   Keystones o1 = Keystones o2) ∧
  (∀ s p1 p2, GenerateInsights s limit p1 → GenerateInsights s limit p2 →
     sameValues (Bottlenecks p1) (Bottlenecks p2) ∧
     sameValues (Keystones p1) (Keystones p2) ∧
     sameValues (Influencers p1) (Influencers p2) ∧
     sameValues (Hubs_ p1) (Hubs_ p2) ∧
     sameValues (Authorities_ p1) (Authorities_ p2) ∧
     Orphans p1 = Orphans p2 ∧ Cycles_ p1 = Cycles_ p2 ∧
     ClusterDensity p1 = ClusterDensity p2 ∧ Stats p1 = Stats p2).
Proof.
  intros Hnd (a1 & k1 & Ha1 & Hk1 & Hg1) (a2 & k2 & Ha2 & Hk2 & Hg2).
  assert (a2 = a1) as -> by congruence.
  pose proof (CriticalPathScore_any_run issues a1 k1 k2 Ha1 Hnd Hk1 Hk2) as Hcps.
  destruct Hg1 as [b1 ks1 i1 h1 au1 _ Hks1 _ _ _].
  destruct Hg2 as [b2 ks2 i2 h2 au2 _ Hks2 _ _ _]. simpl.
  rewrite <- Hcps in Hks2.
  split_and!.
  - done.
  - by eapply getTopItems_sameValues.
  - intros Hdistinct. by eapply getTopItems_unique.
  - intros s p1 p2. apply GenerateInsights_sameValues.
Qed.

Lemma C4_runs_agree_up_to_ties_witness :
  CriticalPathScore (Stats (insightsTwo "a" "b"))
  = CriticalPathScore (Stats (insightsTwo "b" "a")) ∧
  sameValues (Keystones (insightsTwo "a" "b")) (Keystones (insightsTwo "b" "a")) ∧
  ((∀ i j x y, CriticalPathScore (Stats (insightsTwo "a" "b")) !! i = Some x →
               CriticalPathScore (Stats (insightsTwo "a" "b")) !! j = Some y →
               (x == y)%Q → i = j) →
   Keystones (insightsTwo "a" "b") = Keystones (insightsTwo "b" "a")) ∧
  (∀ s p1 p2, GenerateInsights s 50 p1 → GenerateInsights s 50 p2 →
     sameValues (Bottlenecks p1) (Bottlenecks p2) ∧
     sameValues (Keystones p1) (Keystones p2) ∧
     sameValues (Influencers p1) (Influencers p2) ∧
     sameValues (Hubs_ p1) (Hubs_ p2) ∧
     sameValues (Authorities_ p1) (Authorities_ p2) ∧
     Orphans p1 = Orphans p2 ∧ Cycles_ p1 = Cycles_ p2 ∧
     ClusterDensity p1 = ClusterDensity p2 ∧ Stats p1 = Stats p2).
Proof.
  apply (C4_runs_agree_up_to_ties issuesTwo 50).
  - apply (bool_decide_unpack _). vm_compute. exact Logic.I.
  - apply insightsTwo_pipeline. reflexivity.
  - apply insightsTwo_pipeline. apply Permutation_swap.
Defined.

(** C4 as stated fails: both records below are results of the pipeline on
    the same two issues, and their keystone lists differ in order. *)
Lemma C4_two_runs_two_outputs :
  pipeline issuesTwo 50 (insightsTwo "a" "b") ∧
  pipeline issuesTwo 50 (insightsTwo "b" "a") ∧
  Keystones (insightsTwo "a" "b")
  = [{| ItemID := "a"; Value := 1 |}; {| ItemID := "b"; Value := 1 |}] ∧
  Keystones (insightsTwo "b" "a")
  = [{| ItemID := "b"; Value := 1 |}; {| ItemID := "a"; Value := 1 |}] ∧
  insightsTwo "a" "b" ≠ insightsTwo "b" "a".
Proof.
  split_and!.
  - apply insightsTwo_pipeline. reflexivity.
  - apply insightsTwo_pipeline. apply Permutation_swap.
  - vm_compute. reflexivity.
  - vm_compute. reflexivity.
  - intros H. apply (f_equal Keystones) in H. vm_compute in H. discriminate H.
Qed.

(** C6, on the failing input.  The single issue W has in-degree 0 and
    out-degree 0 in every run, the pipeline has a result, and in every
    result the orphans list is empty: [GenerateInsights] never fills the
    field. *)
Theorem C6_orphans_left_empty :
  ∃ a, NewAnalyzer issuesW = Some a ∧
       (∀ k, Kernels_ok a k →
             InDegree (Analyze a k) !! "W" = Some 0 ∧
             OutDegree (Analyze a k) !! "W" = Some 0) ∧
       (∃ out, pipeline issuesW 50 out) ∧
       (∀ out, pipeline issuesW 50 out → Orphans out = []).
Proof.
  exists (analyzerOf issuesW). split_and!.
  - vm_compute. reflexivity.
  - intros k (Hn & _ & _).
    replace (elements (nodes (g (analyzerOf issuesW)))) with [0] in Hn
      by (vm_compute; reflexivity).
    apply Permutation_singleton_r in Hn.
    unfold Analyze. simpl. rewrite Hn. split; vm_compute; reflexivity.
  - destruct (GenerateInsights_total
                (Analyze (analyzerOf issuesW) (kernelsFor [0] (Some [0]) [0])) 50)
      as [out Hout].
    exists out, (analyzerOf issuesW), (kernelsFor [0] (Some [0]) [0]).
    split_and!; [vm_compute; reflexivity| |done].
    assert (topo.ordered (g (analyzerOf issuesW)) [0]) as Ho by concrete_ordered.
    split_and!; simpl; [by_evaluation|done|done].
  - intros out (a & k & _ & _ & Hg). by destruct Hg.
Qed.

(** ** Package loader: claim C10 *)

Lemma flatInv_start id : flatInv id (∅, []).
Proof.
  split; simpl.
  - intros d. unfold loader.seenHas. rewrite lookup_empty. simpl.
    split; [done|]. by intros ?%elem_of_nil.
  - constructor.
  - by intros dep ?%elem_of_nil.
Qed.

Lemma flattenStep_spec id st d :
  flatInv id st →
  flatInv id (loader.flattenStep id st d) ∧
  (∀ x, x ∈ DependsOnID <$> (loader.flattenStep id st d).2 ↔
        x ∈ DependsOnID <$> st.2 ∨ (x ≠ "" ∧ x = d)) ∧
  ∃ new, (loader.flattenStep id st d).2 = st.2 ++ new.
Proof.
  intros [Hseen Hnd Hshape]. unfold loader.flattenStep.
  destruct (bool_decide (d = "")) eqn:Ed; simpl.
  { apply bool_decide_eq_true in Ed as ->. split_and!; [done| |by exists []; rewrite app_nil_r].
    intros x. split; [by left|]. by intros [?|[? ?]]. }
  apply bool_decide_eq_false in Ed.
  destruct (loader.seenHas st.1 d) eqn:Es; simpl.
  { split_and!; [done| |by exists []; rewrite app_nil_r].
    intros x. split; [by left|]. intros [?|[_ ->]]; [done|]. by apply Hseen. }
  assert (d ∉ DependsOnID <$> st.2) as Hfresh.
  { intros Hin. apply Hseen in Hin. congruence. }
  split_and!.
  - split; simpl.
    + intros x. unfold loader.seenHas.
      rewrite fmap_app, elem_of_app. simpl. rewrite list_elem_of_singleton.
      destruct (decide (x = d)) as [->|Hx].
      * rewrite lookup_insert_eq. simpl. split; [by right|done].
      * rewrite lookup_insert_ne by done. fold (loader.seenHas st.1 x).
        rewrite Hseen. split; [by left|]. by intros [?|?].
    + rewrite fmap_app. simpl. apply NoDup_app. split_and!; [done| |].
      * intros x Hx ->%list_elem_of_singleton. done.
      * apply NoDup_singleton.
    + intros dep [Hdep| ->%list_elem_of_singleton]%elem_of_app; [by apply Hshape|].
      done.
  - intros x. rewrite fmap_app, elem_of_app. simpl. rewrite list_elem_of_singleton.
    split; [intros [?| ->]; [by left|by right]|intros [?|[_ ->]]; [by left|by right]].
  - eauto.
Qed.

Lemma flatten_fold id l st :
  flatInv id st →
  flatInv id (foldl (loader.flattenStep id) st l) ∧
  (∀ x, x ∈ DependsOnID <$> (foldl (loader.flattenStep id) st l).2 ↔
        x ∈ DependsOnID <$> st.2 ∨ (x ≠ "" ∧ x ∈ l)) ∧
  ∃ new, (foldl (loader.flattenStep id) st l).2 = st.2 ++ new.
Proof.
  revert st. induction l as [|d l IH]; intros st Hst; simpl.
  - split_and!; [done| |by exists []; rewrite app_nil_r].
    intros x. split; [by left|]. intros [?|[_ ?%elem_of_nil]]; done.
  - destruct (flattenStep_spec id st d Hst) as (Hst1 & Hin1 & new1 & Hnew1).
    destruct (IH _ Hst1) as (Hst' & Hin' & new' & Hnew').
    split_and!; [done| |].
    + intros x. rewrite Hin', Hin1, elem_of_cons. split.
      * intros [[?|[? ->]]|[? ?]]; auto.
      * intros [?|[? [->|?]]]; auto.
    + exists (new1 ++ new'). by rewrite Hnew', Hnew1, app_assoc.
Qed.

(** The dependencies of the flattened record. *)
Lemma flatten_spec p :
  let deps := loader.flatten p in
  let listed := loader.p_DependsOn p ++ loader.p_BlockedBy p in
  NoDup (DependsOnID <$> deps) ∧
  (∀ d, mkDep (loader.p_ID p) d DepBlocks ∈ deps ↔ d ≠ "" ∧ d ∈ listed) ∧
  (mkDep (loader.p_ID p) (loader.p_Parent p) DepParentChild ∈ deps ↔
   loader.p_Parent p ≠ "" ∧ loader.p_Parent p ∉ listed) ∧
  (∀ dep, dep ∈ deps →
     (dep = mkDep (loader.p_ID p) (DependsOnID dep) DepBlocks ∧
      DependsOnID dep ≠ "" ∧ DependsOnID dep ∈ listed) ∨
     dep = mkDep (loader.p_ID p) (loader.p_Parent p) DepParentChild).
Proof.
  simpl. unfold loader.flatten.
  destruct (flatten_fold (loader.p_ID p) (loader.p_DependsOn p) (∅, [])
              (flatInv_start _)) as (I1 & Hin1 & _).
  destruct (flatten_fold (loader.p_ID p) (loader.p_BlockedBy p) _ I1)
    as ([Hseen Hnd Hshape] & Hin2 & _).
  set (st2 := foldl (loader.flattenStep (loader.p_ID p))
                (foldl (loader.flattenStep (loader.p_ID p)) (∅, []) (loader.p_DependsOn p))
                (loader.p_BlockedBy p)) in *.
  assert (∀ x, x ∈ DependsOnID <$> st2.2 ↔
               x ≠ "" ∧ x ∈ loader.p_DependsOn p ++ loader.p_BlockedBy p) as Hin.
  { intros x. rewrite Hin2, Hin1, elem_of_app. simpl. split.
    - intros [[[]%elem_of_nil|[? ?]]|[? ?]]; auto.
    - intros [? [?|?]]; auto. }
  assert (∀ d, mkDep (loader.p_ID p) d DepBlocks ∈ st2.2 ↔ d ∈ DependsOnID <$> st2.2)
    as Hblocks.
  { intros d. rewrite list_elem_of_fmap. split.
    - intros H. by exists (mkDep (loader.p_ID p) d DepBlocks).
    - intros (dep & -> & Hdep). by destruct (Hshape dep Hdep) as [<- _]. }
  assert (mkDep (loader.p_ID p) (loader.p_Parent p) DepParentChild ∉ st2.2) as Hnopc.
  { intros H. by destruct (Hshape _ H) as [[=] _]. }
  destruct (bool_decide (loader.p_Parent p ≠ "")) eqn:Ep; simpl.
  - apply bool_decide_eq_true in Ep.
    destruct (loader.seenHas st2.1 (loader.p_Parent p)) eqn:Es; simpl.
    + apply Hseen in Es as Hlisted. split_and!.
      * done.
      * intros d. by rewrite Hblocks, Hin.
      * split; [done|]. intros [_ Hnot]. destruct Hnot. by apply Hin.
      * intros dep Hdep. left. destruct (Hshape dep Hdep) as [? ?].
        split; [done|]. apply Hin, list_elem_of_fmap. eauto.
    + assert (loader.p_Parent p ∉ DependsOnID <$> st2.2) as Hfresh.
      { intros H. apply Hseen in H. congruence. }
      split_and!.
      * rewrite fmap_app. simpl. apply NoDup_app. split_and!; [done| |].
        -- intros x Hx ->%list_elem_of_singleton. done.
        -- apply NoDup_singleton.
      * intros d. rewrite elem_of_app, list_elem_of_singleton, Hblocks, Hin.
        split; [|by left]. intros [?|[=]]; done.
      * rewrite elem_of_app, list_elem_of_singleton. split; [|by right].
        intros _. split; [done|]. intros H. apply Hfresh, Hin. done.
      * intros dep [Hdep| ->%list_elem_of_singleton]%elem_of_app; [|by right].
        left. destruct (Hshape dep Hdep) as [? ?].
        split; [done|]. apply Hin, list_elem_of_fmap. eauto.
  - apply bool_decide_eq_false in Ep. apply dec_stable in Ep.
    split_and!.
    + done.
    + intros d. by rewrite Hblocks, Hin.
    + split; [done|]. by intros [? _].
    + intros dep Hdep. left. destruct (Hshape dep Hdep) as [? ?].
      split; [done|]. apply Hin, list_elem_of_fmap. eauto.
Qed.

Lemma toModelIssue_Dependencies parse lower p issue :
  loader.toModelIssue parse lower p = inl issue →
  Dependencies issue = loader.flatten p ∧ ID issue = loader.p_ID p.
Proof.
  unfold loader.toModelIssue.
  destruct (loader.parseProtoTime parse (loader.p_CreatedAt p)); [|done].
  destruct (loader.parseProtoTime parse (loader.p_UpdatedAt p)); [|done].
  destruct (if decide (loader.p_ClosedAt p = "") then Some None
            else Some <$> loader.parseProtoTime parse (loader.p_ClosedAt p));
    [|done].
  by intros [= <-].
Qed.

Lemma filter_none {A} (P : A → Prop) `{∀ x, Decision (P x)} (l : list A) :
  (∀ z, z ∈ l → ¬ P z) → filter P l = [].
Proof.
  induction l as [|y l IH]; intros Hno; [done|].
  rewrite filter_cons_False by (apply Hno; left).
  apply IH. intros z Hz. apply Hno. by right.
Qed.

(** In a list without two elements of the same key, the elements with
    the key of [x] are [x] alone. *)
Lemma filter_by_key {A B} `{EqDecision B} (f : A → B) (l : list A) (x : A) :
  NoDup (f <$> l) → x ∈ l → filter (λ y, f y = f x) l = [x].
Proof.
  induction l as [|y l IH]; intros Hnd Hx; [by apply elem_of_nil in Hx|].
  rewrite fmap_cons in Hnd. apply NoDup_cons in Hnd as [Hy Hnd].
  apply elem_of_cons in Hx as [->|Hx].
  - rewrite filter_cons_True by done. f_equal.
    apply filter_none. intros z Hz E. apply Hy. rewrite <- E.
    apply list_elem_of_fmap. eauto.
  - rewrite filter_cons_False; [by apply IH|].
    intros E. apply Hy. rewrite E. apply list_elem_of_fmap. eauto.
Qed.

(** C10, amended.  When [toModelIssue] accepts a wire record, the
    dependencies of the issue name every target at most once.  For every
    non-empty id listed in [dependsOn] or [blockedBy] the one dependency
    on it is the [blocks] dependency from this issue.  The parent, when
    non-empty and not itself listed in [dependsOn] or [blockedBy], gets
    the one [parent-child] dependency from this issue; a parent that is
    listed gets none.  There is no other dependency, and the [blocks] and
    [children] arrays have no influence on the issue. *)
Theorem C10_dependency_flattening parse lower p issue :
  loader.toModelIssue parse lower p = inl issue →
  let listed := loader.p_DependsOn p ++ loader.p_BlockedBy p in
  let parent := loader.p_Parent p in
  NoDup (DependsOnID <$> Dependencies issue) ∧
  (∀ d, d ≠ "" → d ∈ listed →
        filter (λ dep, DependsOnID dep = d) (Dependencies issue)
        = [mkDep (ID issue) d DepBlocks]) ∧
  (parent ≠ "" → parent ∉ listed →
   filter (λ dep, DependsOnID dep = parent) (Dependencies issue)
   = [mkDep (ID issue) parent DepParentChild]) ∧
  (∀ dep, dep ∈ Dependencies issue →
     (dep = mkDep (ID issue) (DependsOnID dep) DepBlocks ∧
      DependsOnID dep ≠ "" ∧ DependsOnID dep ∈ listed) ∨
     (dep = mkDep (ID issue) parent DepParentChild ∧
      parent ≠ "" ∧ parent ∉ listed)) ∧
  (∀ blocks children,
     loader.toModelIssue parse lower (withInverse p blocks children) = inl issue).
Proof.
  intros H. destruct (toModelIssue_Dependencies _ _ _ _ H) as [Hdeps Hid].
  destruct (flatten_spec p) as (H1 & H2 & H3 & H4).
  simpl in *. rewrite Hdeps, Hid. split_and!.
  - done.
  - intros d Hd Hin.
    apply (filter_by_key DependsOnID _ (mkDep (loader.p_ID p) d DepBlocks));
      [done|]. by apply H2.
  - intros Hp Hnot.
    apply (filter_by_key DependsOnID _
             (mkDep (loader.p_ID p) (loader.p_Parent p) DepParentChild));
      [done|]. by apply H3.
  - intros dep Hdep. destruct (H4 dep Hdep) as [?|Hpc]; [by left|].
    right. split; [done|]. apply H3. by rewrite <- Hpc.
  - done.
Qed.

Lemma C10_dependency_flattening_witness :
  let issue := mkIssueOf protoTest in
  let listed := loader.p_DependsOn protoTest ++ loader.p_BlockedBy protoTest in
  let parent := loader.p_Parent protoTest in
  NoDup (DependsOnID <$> Dependencies issue) ∧
  (∀ d, d ≠ "" → d ∈ listed →
        filter (λ dep, DependsOnID dep = d) (Dependencies issue)
        = [mkDep (ID issue) d DepBlocks]) ∧
  (parent ≠ "" → parent ∉ listed →
   filter (λ dep, DependsOnID dep = parent) (Dependencies issue)
   = [mkDep (ID issue) parent DepParentChild]) ∧
  (∀ dep, dep ∈ Dependencies issue →
     (dep = mkDep (ID issue) (DependsOnID dep) DepBlocks ∧
      DependsOnID dep ≠ "" ∧ DependsOnID dep ∈ listed) ∨
     (dep = mkDep (ID issue) parent DepParentChild ∧
      parent ≠ "" ∧ parent ∉ listed)) ∧
  (∀ blocks children,
     loader.toModelIssue (λ _, None) (λ s, s) (withInverse protoTest blocks children)
     = inl issue).
Proof.
  apply (C10_dependency_flattening (λ _, None) (λ s, s) protoTest).
  vm_compute. reflexivity.
Defined.

(** C10 as stated fails: the parent bv-7 of this record is also listed in
    [dependsOn]; the issue gets the one [blocks] dependency on bv-7 and no
    [parent-child] dependency. *)
Lemma C10_listed_parent_gets_no_parent_child :
  loader.p_Parent protoParentListed = "bv-7" ∧
  ∀ parse lower,
    ∃ issue, loader.toModelIssue parse lower protoParentListed = inl issue ∧
             Dependencies issue = [mkDep "bv-1" "bv-7" DepBlocks] ∧
             mkDep "bv-1" "bv-7" DepParentChild ∉ Dependencies issue.
Proof.
  split; [done|]. intros parse lower. eexists. split_and!.
  - vm_compute. reflexivity.
  - vm_compute. reflexivity.
  - simpl. intros H. apply list_elem_of_singleton in H. discriminate H.
Qed.

(** The repository's own test case: four dependencies, in this order. *)
Example toModelIssue_flattening_test parse lower :
  ∃ issue, loader.toModelIssue parse lower protoTest = inl issue ∧
           Dependencies issue
           = [mkDep "bv-1" "bv-2" DepBlocks; mkDep "bv-1" "bv-3" DepBlocks;
              mkDep "bv-1" "bv-4" DepBlocks; mkDep "bv-1" "bv-7" DepParentChild].
Proof. eexists. split; vm_compute; reflexivity. Qed.

(** ** Worked examples *)

(** The chain A -> B -> C: the emitted order starts with the prerequisite
    C; the score counts the chain of dependents above a node. *)
Example chain_statistics :
  let s := Analyze (analyzerOf issuesChain)
             (kernelsFor [0; 1; 2] (Some [0; 1; 2]) [0; 1; 2]) in
  TopologicalOrder s = ["C"; "B"; "A"] ∧
  score s "A" = 1%Q ∧ score s "B" = 2%Q ∧ score s "C" = 3%Q ∧
  InDegree s !! "A" = Some 0 ∧ InDegree s !! "B" = Some 1 ∧
  InDegree s !! "C" = Some 1 ∧
  OutDegree s !! "A" = Some 1 ∧ OutDegree s !! "C" = Some 0 ∧
  getTopItems_visiting (map_to_list (CriticalPathScore s)) 2
  = [{| ItemID := "C"; Value := 3 |}; {| ItemID := "B"; Value := 2 |}].
Proof. vm_compute. repeat split; reflexivity. Qed.

(** The two-node cycle: [topo.Sort] reports an error, the order is empty
    and no score is computed. *)
Example cycle_statistics :
  topo.cyclic (g (analyzerOf issuesCycle)) ∧
  Kernels_ok (analyzerOf issuesCycle) (kernelsFor [0; 1] None []) ∧
  TopologicalOrder (Analyze (analyzerOf issuesCycle) (kernelsFor [0; 1] None [])) = [] ∧
  CriticalPathScore (Analyze (analyzerOf issuesCycle) (kernelsFor [0; 1] None [])) = ∅ ∧
  score (Analyze (analyzerOf issuesCycle) (kernelsFor [0; 1] None [])) "A" = 0%Q.
Proof.
  assert (topo.cyclic (g (analyzerOf issuesCycle))) as Hc.
  { exists 0. apply tc_l with 1; [by_evaluation|]. apply tc_once. by_evaluation. }
  split_and!; try done.
  split_and!; simpl; [by_evaluation|done|]. intros Ha. by destruct Ha.
Qed.

(** A limit of zero or below yields the empty list. *)
Example no_items_for_limit_zero :
  getTopItems_visiting [("x", 1%Q); ("y", 2%Q)] 0 = [] ∧
  getTopItems_visiting [("x", 1%Q); ("y", 2%Q)] (-3) = [].
Proof. split; reflexivity. Qed.

(** Insertion sort keeps entries of equal value in the order met. *)
Example ties_keep_visiting_order :
  getTopItems_visiting
    [("x", (1 # 2)%Q); ("y", (3 # 4)%Q); ("z", (1 # 2)%Q); ("w", 2%Q)] 50
  = [{| ItemID := "w"; Value := 2 |}; {| ItemID := "y"; Value := 3 # 4 |};
     {| ItemID := "x"; Value := 1 # 2 |}; {| ItemID := "z"; Value := 1 # 2 |}].
Proof. vm_compute. reflexivity. Qed.

(** Unknown wire enums fall back to the stripped name. *)
Example mapProto_fallback :
  loader.mapProtoStatus (λ s, s) "ISSUE_STATUS_CLOSED" = StatusClosed ∧
  loader.mapProtoStatus (λ s, s) "ISSUE_STATUS_custom" = "custom" ∧
  loader.mapProtoType (λ s, s) "ISSUE_TYPE_EPIC" = TypeEpic ∧
  loader.mapProtoType (λ s, s) "molecule" = "molecule".
Proof. vm_compute. repeat split; reflexivity. Qed.

(** * Further properties of the analyzer *)

(** ** [NewAnalyzer]: nodes and id maps *)

Lemma NewAnalyzer_loop1 issues a :
  NewAnalyzer issues = Some a →
  ∃ a1, foldM addIssueNode emptyAnalyzer issues = Some a1 ∧
        idToNode a = idToNode a1 ∧ nodeToID a = nodeToID a1 ∧
        issueMap a = issueMap a1.
Proof.
  unfold NewAnalyzer, NewAnalyzer_run.
  destruct (foldM addIssueNode emptyAnalyzer issues) as [a1|]; simpl; [|done].
  destruct (foldM _ _ issues) as [b|]; simpl; [|done].
  intros [= <-]. by exists a1.
Qed.

(** Loop 1 overwrites [idToNode] and [issueMap]: an id leads to the last
    issue of the slice that carries it. *)
Lemma addIssueNodes_last issues a :
  foldM addIssueNode emptyAnalyzer issues = Some a →
  ∀ s n, idToNode a !! s = Some n →
    ∃ i issue, n = Z.of_nat i ∧ issues !! i = Some issue ∧ ID issue = s ∧
               issueMap a !! s = Some issue ∧
               ∀ j other, issues !! j = Some other → ID other = s → (j ≤ i)%nat.
Proof.
  revert a. induction issues as [|x issues IH] using rev_ind; intros a.
  - simpl. intros [= <-] s n. simpl. by rewrite lookup_empty.
  - destruct (addIssueNodes_spec issues) as (a0 & E0 & I0).
    rewrite foldM_app, E0. simpl. unfold addIssueNode.
    rewrite (NewNode_next _ _ (nb_nodes _ _ I0) (nb_maxID _ _ I0)).
    unfold AddNode.
    rewrite decide_False by (rewrite (nb_nodes _ _ I0), elem_of_firstNodes; lia).
    simpl. intros [= <-] s n. simpl.
    destruct (decide (s = ID x)) as [->|Hs].
    + rewrite !lookup_insert_eq. intros [= <-].
      exists (length issues), x. split_and!; try done.
      * by rewrite lookup_app_r, Nat.sub_diag by lia.
      * intros j other Hj _. apply lookup_lt_Some in Hj.
        rewrite length_app in Hj. simpl in Hj. lia.
    + rewrite !lookup_insert_ne by done. intros Hn.
      destruct (IH a0 E0 s n Hn) as (i & issue & -> & Hi & Hid & Hmap & Hlast).
      exists i, issue. split_and!; try done.
      * rewrite lookup_app_l; [done|]. by eapply lookup_lt_Some.
      * intros j other Hj Hother.
        destruct (decide (j < length issues)%nat) as [Hlt|Hge].
        -- rewrite lookup_app_l in Hj by done. by eapply Hlast.
        -- apply lookup_lt_Some in Hj as Hj'. rewrite length_app in Hj'. simpl in Hj'.
           assert (j = length issues) as -> by lia.
           rewrite lookup_app_r, Nat.sub_diag in Hj by lia.
           injection Hj as <-. done.
Qed.

(** X1.  The graph gets one node per element of the input slice, isolated
    issues and repeated ids included: the nodes are [0 .. len-1], and node
    [i] carries the id of the [i]-th issue. *)
Theorem X1_one_node_per_issue issues a :
  NewAnalyzer issues = Some a →
  size (nodes (g a)) = length issues ∧
  (∀ n, n ∈ nodes (g a) ↔ 0 ≤ n < Z.of_nat (length issues)) ∧
  (∀ i issue, issues !! i = Some issue →
              nodeToID a !! Z.of_nat i = Some (ID issue)) ∧
  (∀ n s, nodeToID a !! n = Some s → n ∈ nodes (g a)).
Proof.
  intros H. apply NewAnalyzer_spec in H. split_and!.
  - by rewrite (ab_nodes _ _ H), size_firstNodes.
  - intros n. by rewrite (ab_nodes _ _ H), elem_of_firstNodes.
  - intros i issue Hi. by rewrite (ab_nodeToID _ _ H), Hi.
  - intros n s Hn. rewrite (ab_nodes _ _ H). by eapply ab_range.
Qed.

Lemma X1_one_node_per_issue_witness :
  size (nodes (g (analyzerOf issuesDuplicate))) = length issuesDuplicate ∧
  (∀ n, n ∈ nodes (g (analyzerOf issuesDuplicate))
        ↔ 0 ≤ n < Z.of_nat (length issuesDuplicate)) ∧
  (∀ i issue, issuesDuplicate !! i = Some issue →
              nodeToID (analyzerOf issuesDuplicate) !! Z.of_nat i = Some (ID issue)) ∧
  (∀ n s, nodeToID (analyzerOf issuesDuplicate) !! n = Some s →
          n ∈ nodes (g (analyzerOf issuesDuplicate))).
Proof.
  apply (X1_one_node_per_issue issuesDuplicate). vm_compute. reflexivity.
Defined.

(** X2.  [idToNode] is defined exactly on the ids of the input; an id leads
    to the node of the last issue carrying it, [issueMap] holds that issue,
    and [nodeToID] leads back to the id.  When the ids are unique the two
    maps are inverse to each other and [issueMap] finds every issue. *)
Theorem X2_id_maps issues a :
  NewAnalyzer issues = Some a →
  (∀ s, is_Some (idToNode a !! s) ↔ s ∈ ID <$> issues) ∧
  (∀ s n, idToNode a !! s = Some n →
     nodeToID a !! n = Some s ∧
     ∃ i issue, n = Z.of_nat i ∧ issues !! i = Some issue ∧ ID issue = s ∧
                issueMap a !! s = Some issue ∧
                ∀ j other, issues !! j = Some other → ID other = s → (j ≤ i)%nat) ∧
  (NoDup (ID <$> issues) →
   (∀ n s, nodeToID a !! n = Some s → idToNode a !! s = Some n) ∧
   (∀ issue, issue ∈ issues → issueMap a !! ID issue = Some issue)).
Proof.
  intros H. destruct (NewAnalyzer_loop1 _ _ H) as (a1 & E1 & Hi & Hn & Hm).
  apply NewAnalyzer_spec in H. split_and!.
  - apply (ab_dom _ _ H).
  - intros s n Hs. split; [by apply (ab_back _ _ H)|].
    rewrite Hi in Hs. rewrite Hm. by apply (addIssueNodes_last issues a1).
  - intros Hnd. split; [apply (ab_unique _ _ H Hnd)|].
    intros issue [k Hk]%list_elem_of_lookup.
    assert (is_Some (idToNode a !! ID issue)) as [n Hs].
    { apply (ab_dom _ _ H), list_elem_of_fmap. exists issue. split; [done|].
      apply list_elem_of_lookup. eauto. }
    rewrite Hi in Hs.
    destruct (addIssueNodes_last issues a1 E1 _ _ Hs)
      as (i & other & -> & Hio & Hid & Hmap & _).
    rewrite Hm, Hmap. f_equal.
    assert (i = k) as ->; [|congruence].
    eapply NoDup_lookup; [exact Hnd| |].
    + by rewrite list_lookup_fmap, Hio; simpl; rewrite Hid.
    + by rewrite list_lookup_fmap, Hk.
Qed.

Lemma X2_id_maps_witness :
  (∀ s, is_Some (idToNode (analyzerOf issuesDuplicate) !! s)
        ↔ s ∈ ID <$> issuesDuplicate) ∧
  (∀ s n, idToNode (analyzerOf issuesDuplicate) !! s = Some n →
     nodeToID (analyzerOf issuesDuplicate) !! n = Some s ∧
     ∃ i issue, n = Z.of_nat i ∧ issuesDuplicate !! i = Some issue ∧ ID issue = s ∧
                issueMap (analyzerOf issuesDuplicate) !! s = Some issue ∧
                ∀ j other, issuesDuplicate !! j = Some other → ID other = s →
                           (j ≤ i)%nat) ∧
  (NoDup (ID <$> issuesDuplicate) →
   (∀ n s, nodeToID (analyzerOf issuesDuplicate) !! n = Some s →
           idToNode (analyzerOf issuesDuplicate) !! s = Some n) ∧
   (∀ issue, issue ∈ issuesDuplicate →
             issueMap (analyzerOf issuesDuplicate) !! ID issue = Some issue)).
Proof.
  apply (X2_id_maps issuesDuplicate). vm_compute. reflexivity.
Defined.

(** X3.  [NewAnalyzer] panics exactly on the inputs in which some issue
    lists its own id as the target of a dependency; on every other input
    it returns. *)
Theorem X3_panics_iff_self_dependency issues :
  NewAnalyzer issues = None ↔ ∃ issue, issue ∈ issues ∧ selfDependent issue.
Proof.
  split.
  - intros Hnone.
    destruct (decide (Exists selfDependent issues)) as [Hex|Hno].
    + apply Exists_exists in Hex. done.
    + exfalso. destruct (NewAnalyzer_total issues) as [a Ha]; [|congruence].
      intros issue Hin Hself. apply Hno, Exists_exists. eauto.
  - intros (issue & Hin & Hself). unfold NewAnalyzer.
    by rewrite (NewAnalyzer_run_panics issues issue).
Qed.

(** X4.  The graph [NewAnalyzer] returns has no self-loop, its edges join
    nodes of the graph, every stored edge carries its own end points, and
    the successor and predecessor lists mirror each other without
    repetition. *)
Theorem X4_graph_well_formed issues a :
  NewAnalyzer issues = Some a →
  (∀ u v, HasEdgeFromTo (g a) u v → u ≠ v ∧ u ∈ nodes (g a) ∧ v ∈ nodes (g a)) ∧
  (∀ e, e ∈ Edges (g a) → HasEdgeFromTo (g a) (F e) (T e)) ∧
  (∀ u v, u ∈ To (g a) v ↔ v ∈ From (g a) u) ∧
  (∀ v, NoDup (To (g a) v) ∧ NoDup (From (g a) v)).
Proof.
  intros H. apply NewAnalyzer_spec in H. pose proof (ab_wf _ _ H) as Hwf.
  split_and!.
  - intros u v [e He]. fold (efrom (g a) u v) in He.
    by destruct (wf_edge _ Hwf _ _ _ He) as (_ & ? & ? & ?).
  - intros e (u & v & He)%elem_of_Edges.
    destruct (wf_edge _ Hwf _ _ _ He) as (-> & _). simpl.
    unfold HasEdgeFromTo. fold (efrom (g a) u v). eauto.
  - intros u v. by rewrite elem_of_To, elem_of_From.
  - intros v. split; apply NoDup_fst_map_to_list.
Qed.

Lemma X4_graph_well_formed_witness :
  (∀ u v, HasEdgeFromTo (g (analyzerOf issuesChain)) u v →
          u ≠ v ∧ u ∈ nodes (g (analyzerOf issuesChain)) ∧
          v ∈ nodes (g (analyzerOf issuesChain))) ∧
  (∀ e, e ∈ Edges (g (analyzerOf issuesChain)) →
        HasEdgeFromTo (g (analyzerOf issuesChain)) (F e) (T e)) ∧
  (∀ u v, u ∈ To (g (analyzerOf issuesChain)) v
          ↔ v ∈ From (g (analyzerOf issuesChain)) u) ∧
  (∀ v, NoDup (To (g (analyzerOf issuesChain)) v) ∧
        NoDup (From (g (analyzerOf issuesChain)) v)).
Proof.
  apply (X4_graph_well_formed issuesChain). vm_compute. reflexivity.
Defined.

(** ** [Analyze]: degrees *)

Lemma idOf_idToNode issues a s n :
  analyzerBuilt issues a → idToNode a !! s = Some n → idOf a n = s.
Proof. intros I H. unfold idOf. by rewrite (ab_back _ _ I _ _ H). Qed.

Lemma idOf_node issues a n :
  analyzerBuilt issues a → n ∈ nodes (g a) →
  ∃ i issue, n = Z.of_nat i ∧ issues !! i = Some issue ∧ idOf a n = ID issue.
Proof.
  intros I. rewrite (ab_nodes _ _ I), elem_of_firstNodes. intros Hn.
  destruct (lookup_lt_is_Some_2 issues (Z.to_nat n)) as [issue Hi]; [lia|].
  exists (Z.to_nat n), issue. split_and!; [lia|done|].
  unfold idOf. replace n with (Z.of_nat (Z.to_nat n)) at 1 by lia.
  by rewrite (ab_nodeToID _ _ I), Hi.
Qed.

Lemma unique_issue (issues : list Issue) x y :
  NoDup (ID <$> issues) → x ∈ issues → y ∈ issues → ID x = ID y → x = y.
Proof.
  intros Hnd [i Hi]%list_elem_of_lookup [j Hj]%list_elem_of_lookup E.
  assert (i = j) as ->; [|congruence].
  eapply NoDup_lookup; [exact Hnd| |].
  - by rewrite list_lookup_fmap, Hi.
  - by rewrite list_lookup_fmap, Hj; simpl; rewrite E.
Qed.

Lemma idToNode_inj issues a s1 s2 n :
  analyzerBuilt issues a →
  idToNode a !! s1 = Some n → idToNode a !! s2 = Some n → s1 = s2.
Proof.
  intros I H1 H2.
  apply (ab_back _ _ I) in H1. apply (ab_back _ _ I) in H2. congruence.
Qed.

(** The degree loop: every visited node whose id no other visited node
    shares ends up with the lengths of its [To] and [From] lists. *)
Lemma degrees_loop a l :
  (∀ v, v ∈ l → (∀ u, u ∈ l → idOf a u = idOf a v → u = v) →
        (foldl (degreeStep a) (∅, ∅) l).1 !! idOf a v
          = Some (Z.of_nat (length (To (g a) v))) ∧
        (foldl (degreeStep a) (∅, ∅) l).2 !! idOf a v
          = Some (Z.of_nat (length (From (g a) v)))) ∧
  (∀ s, is_Some ((foldl (degreeStep a) (∅, ∅) l).1 !! s) ∨
        is_Some ((foldl (degreeStep a) (∅, ∅) l).2 !! s) → s ∈ idOf a <$> l).
Proof.
  induction l as [|n l [IHv IHk]] using rev_ind.
  - split; [by intros v ?%elem_of_nil|].
    intros s. simpl. rewrite !lookup_empty. by intros [[? ?]|[? ?]].
  - rewrite foldl_snoc. unfold degreeStep at 1 3 5 7. simpl. split.
    + intros v Hv Hinj. destruct (decide (v = n)) as [->|Hvn].
      * by rewrite !lookup_insert_eq.
      * assert (v ∈ l) as Hvl.
        { apply elem_of_app in Hv as [?|?%list_elem_of_singleton]; done. }
        assert (idOf a n ≠ idOf a v) as Hne.
        { intros E. apply Hvn. symmetry. apply Hinj; [|done].
          apply elem_of_app. right. left. }
        rewrite !lookup_insert_ne by done. apply IHv; [done|].
        intros u Hu. apply Hinj, elem_of_app. by left.
    + intros s Hs. rewrite fmap_app, elem_of_app. simpl.
      destruct (decide (s = idOf a n)) as [->|Hne]; [right; left|].
      left. apply IHk. by rewrite !lookup_insert_ne in Hs.
Qed.

Lemma length_From issues a issue v :
  analyzerBuilt issues a → NoDup (ID <$> issues) →
  issue ∈ issues → idToNode a !! ID issue = Some v →
  length (From (g a) v) = size (knownTargets issues issue).
Proof.
  intros I Hnd Hin Hv.
  rewrite <- (length_fmap (idOf a)). unfold size, set_size. simpl.
  apply Permutation_length, NoDup_Permutation.
  - apply NoDup_fmap_2_strong; [|apply NoDup_fst_map_to_list].
    intros x y Hx%elem_of_From Hy%elem_of_From.
    apply (idOf_inj issues a _ _ I Hnd).
    + by destruct (HasEdge_nodes _ _ _ (ab_wf _ _ I) Hx).
    + by destruct (HasEdge_nodes _ _ _ (ab_wf _ _ I) Hy).
  - apply NoDup_elements.
  - intros s. unfold knownTargets.
    rewrite elem_of_elements, elem_of_list_to_set, list_elem_of_filter,
      !list_elem_of_fmap.
    split.
    + intros (t & -> & Ht%elem_of_From).
      apply (ab_edges _ _ I) in Ht as (issue' & dep & Hin' & Hdep & Hu & Ht).
      assert (issue' = issue) as ->.
      { apply (unique_issue issues); try done. by eapply idToNode_inj. }
      rewrite (idOf_idToNode _ _ _ _ I Ht). split.
      * apply list_elem_of_fmap, (ab_dom _ _ I). eauto.
      * eauto.
    + intros [Hs (dep & -> & Hdep)].
      apply list_elem_of_fmap, (ab_dom _ _ I) in Hs as [t Ht].
      exists t. split; [by rewrite (idOf_idToNode _ _ _ _ I Ht)|].
      apply elem_of_From, (ab_edges _ _ I). by exists issue, dep.
Qed.

Lemma length_To issues a issue v :
  analyzerBuilt issues a → NoDup (ID <$> issues) →
  issue ∈ issues → idToNode a !! ID issue = Some v →
  length (To (g a) v) = size (dependents issues issue).
Proof.
  intros I Hnd Hin Hv. pose proof (ab_wf _ _ I) as Hwf.
  rewrite <- (length_fmap (idOf a)). unfold size, set_size. simpl.
  apply Permutation_length, NoDup_Permutation.
  - apply NoDup_fmap_2_strong; [|apply NoDup_fst_map_to_list].
    intros x y Hx%(elem_of_To _ _ _ Hwf) Hy%(elem_of_To _ _ _ Hwf).
    apply (idOf_inj issues a _ _ I Hnd).
    + by destruct (HasEdge_nodes _ _ _ Hwf Hx).
    + by destruct (HasEdge_nodes _ _ _ Hwf Hy).
  - apply NoDup_elements.
  - intros s. unfold dependents.
    rewrite elem_of_elements, elem_of_list_to_set, !list_elem_of_fmap.
    setoid_rewrite list_elem_of_filter. split.
    + intros (u & -> & Hu%(elem_of_To _ _ _ Hwf)).
      apply (ab_edges _ _ I) in Hu as (issue' & dep & Hin' & Hdep & Hu & Ht).
      exists issue'. rewrite (idOf_idToNode _ _ _ _ I Hu). split; [done|].
      split; [|done]. apply list_elem_of_fmap. exists dep. split; [|done].
      by eapply idToNode_inj.
    + intros (issue' & -> & (dep & E & Hdep)%list_elem_of_fmap & Hin').
      assert (is_Some (idToNode a !! ID issue')) as [u Hu].
      { apply (ab_dom _ _ I), list_elem_of_fmap. eauto. }
      exists u. split; [by rewrite (idOf_idToNode _ _ _ _ I Hu)|].
      apply (elem_of_To _ _ _ Hwf), (ab_edges _ _ I).
      exists issue', dep. split_and!; try done. by rewrite <- E.
Qed.

(** X5.  With unique ids [Analyze] records a degree for every issue and for
    nothing else, whatever the order in which gonum hands out the nodes.
    [OutDegree] of an issue is the number of distinct ids of input issues
    among its dependency targets; [InDegree] is the number of input issues
    that list it as a target. *)
Theorem X5_degrees issues a k :
  NewAnalyzer issues = Some a → NoDup (ID <$> issues) → Kernels_ok a k →
  (∀ s, is_Some (InDegree (Analyze a k) !! s) ↔ s ∈ ID <$> issues) ∧
  (∀ s, is_Some (OutDegree (Analyze a k) !! s) ↔ s ∈ ID <$> issues) ∧
  (∀ issue, issue ∈ issues →
     OutDegree (Analyze a k) !! ID issue
       = Some (Z.of_nat (size (knownTargets issues issue))) ∧
     InDegree (Analyze a k) !! ID issue
       = Some (Z.of_nat (size (dependents issues issue)))).
Proof.
  intros Ha Hnd (Hn & _). apply NewAnalyzer_spec in Ha.
  destruct (degrees_loop a (k_Nodes k)) as [Hv Hk].
  assert (∀ n, n ∈ k_Nodes k ↔ n ∈ nodes (g a)) as Hnodes.
  { intros n. by rewrite Hn, elem_of_elements. }
  assert (∀ issue, issue ∈ issues →
     OutDegree (Analyze a k) !! ID issue
       = Some (Z.of_nat (size (knownTargets issues issue))) ∧
     InDegree (Analyze a k) !! ID issue
       = Some (Z.of_nat (size (dependents issues issue)))) as Hdeg.
  { intros issue Hin.
    assert (is_Some (idToNode a !! ID issue)) as [v Ev].
    { apply (ab_dom _ _ Ha), list_elem_of_fmap. eauto. }
    pose proof (analyzerBuilt_ids_in _ _ _ _ Ha Ev) as Hvn.
    destruct (Hv v) as [Hto Hfrom]; [by apply Hnodes| |].
    { intros u Hu E. apply (idOf_inj issues a _ _ Ha Hnd); [by apply Hnodes|done..]. }
    rewrite (idOf_idToNode _ _ _ _ Ha Ev) in Hto, Hfrom.
    unfold Analyze. simpl.
    by rewrite Hto, Hfrom, (length_From issues a issue), (length_To issues a issue). }
  assert (∀ s, s ∈ idOf a <$> k_Nodes k → s ∈ ID <$> issues) as Hids.
  { intros s (n & -> & Hin)%list_elem_of_fmap. apply Hnodes in Hin.
    destruct (idOf_node _ _ _ Ha Hin) as (i & issue & _ & Hi & ->).
    apply list_elem_of_fmap. exists issue. split; [done|].
    apply list_elem_of_lookup. eauto. }
  split_and!; [| |done].
  - intros s. split.
    + intros Hs. apply Hids, Hk. by left.
    + intros (issue & -> & Hin)%list_elem_of_fmap.
      destruct (Hdeg issue Hin) as [_ ->]. eauto.
  - intros s. split.
    + intros Hs. apply Hids, Hk. by right.
    + intros (issue & -> & Hin)%list_elem_of_fmap.
      destruct (Hdeg issue Hin) as [-> _]. eauto.
Qed.

Lemma X5_degrees_witness :
  (∀ s, is_Some (InDegree (Analyze (analyzerOf issuesChain)
                    (kernelsFor [2; 0; 1] (Some [0; 1; 2]) [0; 1; 2])) !! s)
        ↔ s ∈ ID <$> issuesChain) ∧
  (∀ s, is_Some (OutDegree (Analyze (analyzerOf issuesChain)
                    (kernelsFor [2; 0; 1] (Some [0; 1; 2]) [0; 1; 2])) !! s)
        ↔ s ∈ ID <$> issuesChain) ∧
  (∀ issue, issue ∈ issuesChain →
     OutDegree (Analyze (analyzerOf issuesChain)
                  (kernelsFor [2; 0; 1] (Some [0; 1; 2]) [0; 1; 2])) !! ID issue
       = Some (Z.of_nat (size (knownTargets issuesChain issue))) ∧
     InDegree (Analyze (analyzerOf issuesChain)
                 (kernelsFor [2; 0; 1] (Some [0; 1; 2]) [0; 1; 2])) !! ID issue
       = Some (Z.of_nat (size (dependents issuesChain issue)))).
Proof.
  apply (X5_degrees issuesChain).
  - vm_compute. reflexivity.
  - by_evaluation.
  - split_and!; simpl.
    + by_evaluation.
    + apply issuesChain_ordered.
    + intros _. apply issuesChain_ordered.
Defined.

(** ** [Analyze]: the topological order *)

(** X6.  On an acyclic graph [TopologicalOrder] lists the id of every
    element of the input slice exactly once (a repeated id as often as it
    occurs); on a graph with a cycle it stays empty. *)
Theorem X6_topological_order_lists_every_issue issues a k :
  NewAnalyzer issues = Some a → Kernels_ok a k →
  (topo.acyclic (g a) → TopologicalOrder (Analyze a k) ≡ₚ ID <$> issues) ∧
  (topo.cyclic (g a) → TopologicalOrder (Analyze a k) = []).
Proof.
  intros Ha (_ & Hs & _). apply NewAnalyzer_spec in Ha.
  pose proof (Sort_ok_Some_iff _ _ (ab_wf _ _ Ha) Hs) as Hsome.
  unfold Analyze. simpl. split.
  - intros [sorted Es]%Hsome. rewrite Es in *. simpl in Hs.
    destruct Hs as [Hp _].
    rewrite reverse_Permutation, Hp, (ab_nodes _ _ Ha), elements_firstNodes.
    by rewrite (idOf_firstNodes issues a).
  - intros Hcyc. destruct (k_Sort k) as [sorted|] eqn:Es; [|done].
    exfalso. apply (proj1 Hsome); eauto.
Qed.

Lemma X6_topological_order_lists_every_issue_witness :
  (topo.acyclic (g (analyzerOf issuesChain)) →
   TopologicalOrder (Analyze (analyzerOf issuesChain)
                       (kernelsFor [0; 1; 2] (Some [0; 1; 2]) [0; 1; 2]))
   ≡ₚ ID <$> issuesChain) ∧
  (topo.cyclic (g (analyzerOf issuesChain)) →
   TopologicalOrder (Analyze (analyzerOf issuesChain)
                       (kernelsFor [0; 1; 2] (Some [0; 1; 2]) [0; 1; 2])) = []).
Proof.
  apply (X6_topological_order_lists_every_issue issuesChain).
  - vm_compute. reflexivity.
  - split_and!; simpl.
    + by_evaluation.
    + apply issuesChain_ordered.
    + intros _. apply issuesChain_ordered.
Defined.

(** ** [Analyze]: relabelling of the gonum scores *)

Lemma size_by_keys {A} (m : gmap string A) (l : list string) :
  (∀ s, is_Some (m !! s) ↔ s ∈ l) →
  size m = size (list_to_set l : gset string).
Proof.
  intros H. transitivity (size (dom m : gset string)); [by rewrite size_dom|].
  apply set_size_proper. intros s. by rewrite elem_of_dom, H, elem_of_list_to_set.
Qed.

Lemma byID_snoc a scores e :
  byID a (scores ++ [e]) = <[idOf a e.1 := e.2]> (byID a scores).
Proof. unfold byID. by rewrite foldl_snoc. Qed.

Lemma byID_keys a scores s :
  is_Some (byID a scores !! s) ↔ s ∈ idOf a <$> scores.*1.
Proof.
  induction scores as [|e scores IH] using rev_ind.
  - unfold byID. simpl. rewrite lookup_empty. split; [by intros [? ?]|].
    by intros ?%elem_of_nil.
  - rewrite byID_snoc, !fmap_app, elem_of_app. simpl.
    rewrite list_elem_of_singleton.
    destruct (decide (s = idOf a e.1)) as [->|Hne].
    + rewrite lookup_insert_eq. split; eauto.
    + rewrite lookup_insert_ne by done. rewrite IH. tauto.
Qed.

Lemma byID_lookup a scores n q :
  (∀ u v, u ∈ scores.*1 → v ∈ scores.*1 → idOf a u = idOf a v → u = v) →
  NoDup scores.*1 → (n, q) ∈ scores → byID a scores !! idOf a n = Some q.
Proof.
  induction scores as [|[m p] scores IH] using rev_ind; intros Hinj Hnd Hin.
  - by apply elem_of_nil in Hin.
  - rewrite byID_snoc. simpl. rewrite fmap_app in Hinj, Hnd. simpl in *.
    apply NoDup_app in Hnd as (Hnd & Hm & _).
    apply elem_of_app in Hin as [Hin|Hin%list_elem_of_singleton].
    + assert (n ∈ scores.*1) as Hn.
      { apply list_elem_of_fmap. by exists (n, q). }
      rewrite lookup_insert_ne.
      * apply IH; [|done..]. intros u v Hu Hv.
        apply Hinj; apply elem_of_app; by left.
      * intros E. apply (Hm n Hn).
        replace n with m; [left|].
        apply Hinj; [apply elem_of_app; right; left|apply elem_of_app; by left|done].
    + injection Hin as -> ->. by rewrite lookup_insert_eq.
Qed.

(** X9.  With unique ids the relabelling of the gonum results by issue id
    loses nothing: when gonum scores nodes of the graph, one score per
    node, each issue id carries the score of its node in [PageRank] and in
    [Betweenness], and the maps have as many entries as gonum returned. *)
Theorem X9_scores_relabelled issues a k :
  NewAnalyzer issues = Some a → NoDup (ID <$> issues) →
  NoDup (k_PageRank k).*1 → NoDup (k_Betweenness k).*1 →
  (∀ n, n ∈ (k_PageRank k).*1 ++ (k_Betweenness k).*1 → n ∈ nodes (g a)) →
  (∀ n q, (n, q) ∈ k_PageRank k → PageRank (Analyze a k) !! idOf a n = Some q) ∧
  (∀ n q, (n, q) ∈ k_Betweenness k →
          Betweenness (Analyze a k) !! idOf a n = Some q) ∧
  size (PageRank (Analyze a k)) = length (k_PageRank k) ∧
  size (Betweenness (Analyze a k)) = length (k_Betweenness k).
Proof.
  intros Ha Hnd Hp Hb Hnodes. apply NewAnalyzer_spec in Ha.
  assert (∀ scores, NoDup scores.*1 → (∀ n, n ∈ scores.*1 → n ∈ nodes (g a)) →
            (∀ n q, (n, q) ∈ scores → byID a scores !! idOf a n = Some q) ∧
            size (byID a scores) = length scores) as Hgen.
  { intros scores Hs Hin.
    assert (∀ u v, u ∈ scores.*1 → v ∈ scores.*1 → idOf a u = idOf a v → u = v)
      as Hinj.
    { intros u v Hu Hv. apply (idOf_inj issues a _ _ Ha Hnd); by apply Hin. }
    split; [intros n q; by apply byID_lookup|].
    rewrite (size_by_keys _ (idOf a <$> scores.*1)) by apply byID_keys.
    rewrite size_list_to_set by (by apply NoDup_fmap_2_strong).
    by rewrite !length_fmap. }
  destruct (Hgen (k_PageRank k)) as [? ?]; [done| |].
  { intros n Hn. apply Hnodes, elem_of_app. by left. }
  destruct (Hgen (k_Betweenness k)) as [? ?]; [done| |].
  { intros n Hn. apply Hnodes, elem_of_app. by right. }
  done.
Qed.

Lemma X9_scores_relabelled_witness :
  (∀ n q, (n, q) ∈ scoresThree →
     PageRank (Analyze (analyzerOf issuesChain)
                 kernelsChain)
     !! idOf (analyzerOf issuesChain) n = Some q) ∧
  (∀ n q, (n, q) ∈ scoresThree →
     Betweenness (Analyze (analyzerOf issuesChain)
                    kernelsChain)
     !! idOf (analyzerOf issuesChain) n = Some q) ∧
  size (PageRank (Analyze (analyzerOf issuesChain)
                    kernelsChain)) = 3%nat ∧
  size (Betweenness (Analyze (analyzerOf issuesChain)
                       kernelsChain)) = 3%nat.
Proof.
  apply (X9_scores_relabelled issuesChain
           (analyzerOf issuesChain)
           kernelsChain).
  - vm_compute. reflexivity.
  - by_evaluation.
  - by_evaluation.
  - by_evaluation.
  - simpl. intros n Hn. revert n Hn. apply Forall_forall.
    repeat constructor; by_evaluation.
Defined.

(** ** [Analyze]: density *)






(** ** [computeHeights]: bounds *)

Lemma heights_bounded issues a sorted :
  analyzerBuilt issues a → NoDup (ID <$> issues) → topo.ordered (g a) sorted →
  ∀ P rest, sorted = P ++ rest →
    ∀ v h, v ∈ P → (computeHeights_loop a sorted).1 !! v = Some h →
           ∃ z, (h == inject_Z z)%Q ∧ 1 ≤ z ≤ Z.of_nat (length P).
Proof.
  intros I Hnd Ho.
  destruct (heights_final issues a I Hnd sorted Ho) as [Idom Irec _ _ _].
  induction P as [|n P IH] using rev_ind; intros rest Hs v h Hv Hh.
  { by apply elem_of_nil in Hv. }
  rewrite <- app_assoc in Hs. simpl in Hs. rewrite length_app. simpl.
  apply elem_of_app in Hv as [Hv|Hv%list_elem_of_singleton].
  { destruct (IH _ Hs v h Hv Hh) as (z & ? & ?). exists z. split; [done|lia]. }
  subst v.
  assert (n ∈ sorted) as Hn by (rewrite Hs; apply elem_of_app; right; left).
  rewrite (Irec n Hn) in Hh. injection Hh as <-.
  destruct (maxParentHeight_spec (computeHeights_loop a sorted).1 (To (g a) n))
    as (_ & _ & [E|(p & Hp & Hhp)]).
  - exists 1. rewrite E. split; [done|lia].
  - apply (elem_of_To _ _ _ (ab_wf _ _ I)) in Hp.
    destruct (HasEdge_nodes _ _ _ (ab_wf _ _ I) Hp) as [Hpn _].
    apply (ordered_elem_of _ sorted _ Ho), list_elem_of_lookup in Hpn as [i Hi].
    assert (sorted !! length P = Some n) as Hpos
      by (rewrite Hs; apply list_lookup_middle; done).
    pose proof (proj2 Ho _ _ _ _ Hi Hpos Hp) as Hlt.
    rewrite Hs, lookup_app_l in Hi by done.
    destruct (IH _ Hs p _ (list_elem_of_lookup_2 _ _ _ Hi) Hhp) as (z & Ez & Hz).
    exists (1 + z). rewrite Ez, inject_Z_plus. split; [done|lia].
Qed.

(** Keys, range and growth of the critical-path scores. *)
Lemma CriticalPathScore_bounds issues a k :
  NewAnalyzer issues = Some a → NoDup (ID <$> issues) → Kernels_ok a k →
  topo.acyclic (g a) →
  (∀ s, is_Some (CriticalPathScore (Analyze a k) !! s) ↔ s ∈ ID <$> issues) ∧
  (∀ s h, CriticalPathScore (Analyze a k) !! s = Some h →
     ∃ z, (h == inject_Z z)%Q ∧ 1 ≤ z ≤ Z.of_nat (length issues)) ∧
  (∀ u v, HasEdgeFromTo (g a) u v →
     (score (Analyze a k) (idOf a u) + 1 <= score (Analyze a k) (idOf a v))%Q).
Proof.
  intros Ha Hnd (_ & Hs & Hh) Hacyc. apply NewAnalyzer_spec in Ha.
  pose proof (Sort_ok_Some_iff _ _ (ab_wf _ _ Ha) Hs) as Hsome.
  apply Hsome in Hacyc as Hsorted. destruct Hsorted as [sorted0 Es].
  specialize (Hh Hacyc).
  assert (CriticalPathScore (Analyze a k) = computeHeights a (k_SortHeights k))
    as Hcp by (unfold Analyze; simpl; by rewrite Es).
  unfold score. rewrite Hcp. clear Hcp.
  pose proof (heights_final issues a Ha Hnd _ Hh) as [Idom Irec Iscore Ikeys Ipos].
  pose proof (heights_bounded issues a _ Ha Hnd Hh (k_SortHeights k) []) as Hb.
  rewrite app_nil_r in Hb. specialize (Hb eq_refl).
  assert (length (k_SortHeights k) = length issues) as Hlen.
  { destruct Hh as [Hp _].
    by rewrite Hp, (ab_nodes _ _ Ha), elements_firstNodes, length_fmap, length_seq. }
  rewrite Hlen in Hb. unfold computeHeights. split_and!.
  - intros s. split.
    + intros [h Hs']. destruct (Ikeys _ _ Hs') as (n & Hn & ->).
      apply (ordered_elem_of _ _ _ Hh) in Hn.
      destruct (idOf_node _ _ _ Ha Hn) as (i & issue & _ & Hi & ->).
      apply list_elem_of_fmap. exists issue. split; [done|].
      apply list_elem_of_lookup. eauto.
    + intros [n Hn]%(ab_dom _ _ Ha).
      pose proof (analyzerBuilt_ids_in _ _ _ _ Ha Hn) as Hin.
      apply (ordered_elem_of _ _ _ Hh) in Hin.
      rewrite <- (idOf_idToNode _ _ _ _ Ha Hn), (Iscore n Hin). by apply Idom.
  - intros s h Hs'. destruct (Ikeys _ _ Hs') as (n & Hn & ->).
    rewrite (Iscore n Hn) in Hs'. by apply (Hb n).
  - intros u v He.
    destruct (HasEdge_nodes _ _ _ (ab_wf _ _ Ha) He) as [Hu Hv].
    destruct (heights_recurrence issues a Ha Hnd _ v Hh Hv)
      as (h & m & _ & Eh & -> & Hle & _).
    unfold computeHeights in Eh, Hle. rewrite Eh. simpl.
    specialize (Hle u He). simpl in Hle. lra.
Qed.


(** X8.  On an acyclic graph with unique ids every issue gets a
    critical-path score and nothing else does; a score is a whole number
    between 1 and the number of issues; and along every edge [u -> v] the
    score grows by at least one. *)
Theorem X8_score_bounds issues a k :
  NewAnalyzer issues = Some a → NoDup (ID <$> issues) → Kernels_ok a k →
  topo.acyclic (g a) →
  (∀ s, is_Some (CriticalPathScore (Analyze a k) !! s) ↔ s ∈ ID <$> issues) ∧
  (∀ s h, CriticalPathScore (Analyze a k) !! s = Some h →
     ∃ z, (h == inject_Z z)%Q ∧ 1 ≤ z ≤ Z.of_nat (length issues)) ∧
  (∀ u v, HasEdgeFromTo (g a) u v →
     (score (Analyze a k) (idOf a u) + 1 <= score (Analyze a k) (idOf a v))%Q).
Proof. apply CriticalPathScore_bounds. Qed.

Lemma X8_score_bounds_witness :
  (∀ s, is_Some (CriticalPathScore
                   (Analyze (analyzerOf issuesChain)
                      kernelsChain) !! s)
        ↔ s ∈ ID <$> issuesChain) ∧
  (∀ s h, CriticalPathScore
            (Analyze (analyzerOf issuesChain)
               kernelsChain) !! s = Some h →
     ∃ z, (h == inject_Z z)%Q ∧ 1 ≤ z ≤ Z.of_nat (length issuesChain)) ∧
  (∀ u v, HasEdgeFromTo (g (analyzerOf issuesChain)) u v →
     (score (Analyze (analyzerOf issuesChain)
               kernelsChain)
            (idOf (analyzerOf issuesChain) u) + 1
      <= score (Analyze (analyzerOf issuesChain)
                  kernelsChain)
               (idOf (analyzerOf issuesChain) v))%Q).
Proof.
  apply (X8_score_bounds issuesChain).
  - vm_compute. reflexivity.
  - by_evaluation.
  - split_and!; simpl.
    + by_evaluation.
    + apply issuesChain_ordered.
    + intros _. apply issuesChain_ordered.
  - apply (ordered_acyclic _ [0; 1; 2]); [|apply issuesChain_ordered].
    apply (ab_wf issuesChain), NewAnalyzer_spec. vm_compute. reflexivity.
Defined.

(** ** [getTopItems]: what the list holds *)

Lemma firstN_entries limit sorted :
  entryOf <$> firstN limit sorted = take (Z.to_nat limit) sorted.
Proof.
  unfold firstN. rewrite <- list_fmap_compose.
  rewrite <- (list_fmap_id (take _ _)) at 2.
  apply list_fmap_ext. by intros _ [s q] _.
Qed.

Lemma firstN_ids limit sorted :
  ItemID <$> firstN limit sorted = (take (Z.to_nat limit) sorted).*1.
Proof. unfold firstN. by rewrite <- list_fmap_compose. Qed.

(** No key twice, and nothing left out is larger than a listed value. *)
Lemma getTopItems_largest m limit l :
  getTopItems m limit l →
  NoDup (ItemID <$> l) ∧
  (∀ s q x, m !! s = Some q → s ∉ ItemID <$> l → x ∈ l → (q <= Value x)%Q).
Proof.
  intros [ss sorted Hr [Hp Hs]]. unfold range_order in Hr.
  assert (NoDup sorted.*1) as Hnd.
  { rewrite Hp, Hr. apply NoDup_fst_map_to_list. }
  rewrite firstN_ids. split.
  - rewrite fmap_take. apply (sublist_NoDup _ _ Hnd), sublist_take.
  - intros s q x Hm Hout Hx.
    assert ((s, q) ∈ sorted) as Hin.
    { rewrite Hp, Hr. by apply elem_of_map_to_list. }
    apply list_elem_of_lookup in Hin as [j Hj].
    assert (Z.to_nat limit ≤ j)%nat as Hge.
    { destruct (decide (Z.to_nat limit ≤ j)%nat) as [|Hlt]; [done|].
      exfalso. apply Hout, list_elem_of_fmap. exists (s, q). split; [done|].
      apply list_elem_of_lookup. exists j. rewrite lookup_take_lt by lia. done. }
    apply list_elem_of_fmap in Hx as (e & -> & He). simpl.
    apply list_elem_of_lookup in He as [i Hi].
    apply lookup_take_Some in Hi as [Hi Hlt].
    pose proof (StronglySorted_lookup _ _ _ _ _ _ Hs Hi Hj) as Hle.
    simpl in Hle. unfold less in Hle. rewrite Qgtb_false in Hle.
    apply Hle. lia.
Qed.


(** X10.  The list [getTopItems] returns names no key twice, and it holds
    the largest values of the map: no entry left out has a value above
    that of a listed item. *)
Theorem X10_top_items_are_the_largest m limit l :
  getTopItems m limit l →
  NoDup (ItemID <$> l) ∧
  (∀ s q x, m !! s = Some q → s ∉ ItemID <$> l → x ∈ l → (q <= Value x)%Q).
Proof. apply getTopItems_largest. Qed.

Lemma X10_top_items_are_the_largest_witness :
  NoDup (ItemID <$> getTopItems_visiting (map_to_list metricThree) 2) ∧
  (∀ s q x, metricThree !! s = Some q →
            s ∉ ItemID <$> getTopItems_visiting (map_to_list metricThree) 2 →
            x ∈ getTopItems_visiting (map_to_list metricThree) 2 →
            (q <= Value x)%Q).
Proof.
  apply (X10_top_items_are_the_largest metricThree 2).
  apply getTopItems_visiting_run. unfold range_order. reflexivity.
Defined.

(** X11.  A limit of zero or below gives the empty list, never a panic;
    a limit that reaches the size of the map gives every entry of the map
    once; and the list is never longer than the limit or the map. *)
Theorem X11_limit_edge_cases m limit l :
  getTopItems m limit l →
  (limit ≤ 0 → l = []) ∧
  (Z.of_nat (size m) ≤ limit → entryOf <$> l ≡ₚ map_to_list m) ∧
  (length l ≤ size m)%nat ∧ Z.of_nat (length l) ≤ Z.max 0 limit.
Proof.
  intros [ss sorted Hr [Hp Hs]]. unfold range_order in Hr.
  assert (length sorted = size m) as Hlen.
  { rewrite Hp, Hr. apply length_map_to_list. }
  split_and!.
  - intros Hle. unfold firstN.
    replace (Z.to_nat limit) with 0%nat by lia. done.
  - intros Hge. rewrite firstN_entries, take_ge by (unfold kv in *; lia). by rewrite Hp, Hr.
  - unfold firstN. rewrite length_fmap, length_take. unfold kv in *. lia.
  - unfold firstN. rewrite length_fmap, length_take. unfold kv in *. lia.
Qed.

Lemma X11_limit_edge_cases_witness :
  (3 ≤ 0 → getTopItems_visiting (map_to_list metricThree) 3 = []) ∧
  (Z.of_nat (size metricThree) ≤ 3 →
   entryOf <$> getTopItems_visiting (map_to_list metricThree) 3
   ≡ₚ map_to_list metricThree) ∧
  (length (getTopItems_visiting (map_to_list metricThree) 3)
   ≤ size metricThree)%nat ∧
  Z.of_nat (length (getTopItems_visiting (map_to_list metricThree) 3))
  ≤ Z.max 0 3.
Proof.
  apply (X11_limit_edge_cases metricThree 3).
  apply getTopItems_visiting_run. unfold range_order. reflexivity.
Defined.

(** ** The pipeline of cmd/bv: the keystones *)

(** X28.  In the output of the pipeline on issues with unique ids: when
    the graph is acyclic, [Keystones] holds as many items as the limit and
    the number of issues allow, each the id of an issue, none twice, with
    the issue's critical-path score, a whole number between 1 and the
    number of issues, and no issue left out has a larger score than a
    listed one; when the graph has a cycle, [Keystones] is empty. *)
Theorem X28_keystones issues limit out :
  NoDup (ID <$> issues) → pipeline issues limit out →
  (∀ a, NewAnalyzer issues = Some a → topo.acyclic (g a) →
     length (Keystones out) = Nat.min (Z.to_nat limit) (length issues) ∧
     NoDup (ItemID <$> Keystones out) ∧
     (∀ x, x ∈ Keystones out →
        ItemID x ∈ ID <$> issues ∧ Value x = score (Stats out) (ItemID x) ∧
        ∃ z, (Value x == inject_Z z)%Q ∧ 1 ≤ z ≤ Z.of_nat (length issues)) ∧
     (∀ x id, x ∈ Keystones out → id ∈ ID <$> issues →
              id ∉ ItemID <$> Keystones out →
              (score (Stats out) id <= Value x)%Q)) ∧
  (∀ a, NewAnalyzer issues = Some a → topo.cyclic (g a) → Keystones out = []).
Proof.
  intros Hnd (a & k & Ha & Hk & Hgen).
  destruct Hgen as [b ks i h au _ Hks _ _ _]. simpl.
  pose proof (getTopItems_topN _ _ _ Hks) as (Hlen & Hentries & _).
  split.
  - intros a' Ha' Hacyc. assert (a' = a) as -> by congruence.
    destruct (CriticalPathScore_bounds issues a k Ha Hnd Hk Hacyc)
      as (Hkeys & Hwhole & _).
    destruct (getTopItems_largest _ _ _ Hks) as [Hnodup Hlargest].
    split_and!.
    + rewrite Hlen, (size_by_keys _ (ID <$> issues)) by done.
      by rewrite size_list_to_set, length_fmap.
    + done.
    + intros x Hx. specialize (Hentries x Hx). split_and!.
      * apply Hkeys. eauto.
      * unfold score. by rewrite Hentries.
      * by eapply Hwhole.
    + intros x id Hx Hid Hout.
      apply Hkeys in Hid as [q Hq]. unfold score. rewrite Hq. simpl.
      by eapply Hlargest.
  - intros a' Ha' Hcyc. assert (a' = a) as -> by congruence.
    destruct Hk as (_ & Hs & _).
    pose proof (NewAnalyzer_spec _ _ Ha) as Hb.
    pose proof (Sort_ok_Some_iff _ _ (ab_wf _ _ Hb) Hs) as Hsome.
    assert (k_Sort k = None) as Es.
    { destruct (k_Sort k) as [sorted|]; [|done].
      exfalso. apply (proj1 Hsome); eauto. }
    unfold Analyze in Hlen. simpl in Hlen. rewrite Es in Hlen.
    rewrite map_size_empty, Nat.min_0_r in Hlen.
    by apply nil_length_inv.
Qed.

Lemma X28_keystones_witness :
  (∀ a, NewAnalyzer issuesTwo = Some a → topo.acyclic (g a) →
     length (Keystones (insightsTwo "a" "b"))
     = Nat.min (Z.to_nat 50) (length issuesTwo) ∧
     NoDup (ItemID <$> Keystones (insightsTwo "a" "b")) ∧
     (∀ x, x ∈ Keystones (insightsTwo "a" "b") →
        ItemID x ∈ ID <$> issuesTwo ∧
        Value x = score (Stats (insightsTwo "a" "b")) (ItemID x) ∧
        ∃ z, (Value x == inject_Z z)%Q ∧ 1 ≤ z ≤ Z.of_nat (length issuesTwo)) ∧
     (∀ x id, x ∈ Keystones (insightsTwo "a" "b") → id ∈ ID <$> issuesTwo →
              id ∉ ItemID <$> Keystones (insightsTwo "a" "b") →
              (score (Stats (insightsTwo "a" "b")) id <= Value x)%Q)) ∧
  (∀ a, NewAnalyzer issuesTwo = Some a → topo.cyclic (g a) →
        Keystones (insightsTwo "a" "b") = []).
Proof.
  apply (X28_keystones issuesTwo 50 (insightsTwo "a" "b")).
  - by_evaluation.
  - by apply insightsTwo_pipeline.
Defined.

(** * Further properties of package loader *)

(** ** [toModelIssue]: timestamps and errors *)

Lemma parseProtoTime_Some parse s :
  is_Some (loader.parseProtoTime parse s) ↔ timeOk parse s.
Proof.
  unfold loader.parseProtoTime, timeOk. destruct (decide (s = "")) as [->|Hs].
  - split; [by left|eauto].
  - split; [by right|]. by intros [?|?].
Qed.

Lemma parseProtoTime_None parse s :
  loader.parseProtoTime parse s = None ↔ ¬ timeOk parse s.
Proof. rewrite <- parseProtoTime_Some, eq_None_not_Some. done. Qed.

(** X12.  [toModelIssue] fails exactly when a timestamp is neither empty
    nor RFC 3339, and reports the first bad one in the order created,
    updated, closed.  When it succeeds the scalar fields are copied, an
    empty created or updated timestamp becomes the zero time, and
    [ClosedAt] is nil exactly when the closed timestamp is empty. *)
Theorem X12_toModelIssue_timestamps parse lower p :
  (loader.toModelIssue parse lower p = inr loader.InvalidCreatedAt
   ↔ ¬ timeOk parse (loader.p_CreatedAt p)) ∧
  (loader.toModelIssue parse lower p = inr loader.InvalidUpdatedAt
   ↔ timeOk parse (loader.p_CreatedAt p) ∧ ¬ timeOk parse (loader.p_UpdatedAt p)) ∧
  (loader.toModelIssue parse lower p = inr loader.InvalidClosedAt
   ↔ timeOk parse (loader.p_CreatedAt p) ∧ timeOk parse (loader.p_UpdatedAt p) ∧
     ¬ timeOk parse (loader.p_ClosedAt p)) ∧
  ((∃ issue, loader.toModelIssue parse lower p = inl issue)
   ↔ timeOk parse (loader.p_CreatedAt p) ∧ timeOk parse (loader.p_UpdatedAt p) ∧
     timeOk parse (loader.p_ClosedAt p)) ∧
  (∀ issue, loader.toModelIssue parse lower p = inl issue →
     ID issue = loader.p_ID p ∧ Title issue = loader.p_Title p ∧
     Description issue = loader.p_Description p ∧
     Priority issue = loader.p_Priority p ∧
     Assignee issue = loader.p_Assignee p ∧ Labels issue = loader.p_Labels p ∧
     loader.parseProtoTime parse (loader.p_CreatedAt p) = Some (CreatedAt issue) ∧
     loader.parseProtoTime parse (loader.p_UpdatedAt p) = Some (UpdatedAt issue) ∧
     (loader.p_CreatedAt p = "" → CreatedAt issue = zeroTime) ∧
     (loader.p_UpdatedAt p = "" → UpdatedAt issue = zeroTime) ∧
     (ClosedAt issue = None ↔ loader.p_ClosedAt p = "") ∧
     (loader.p_ClosedAt p ≠ "" →
      parse (loader.p_ClosedAt p) = ClosedAt issue)).
Proof.
  pose proof (parseProtoTime_Some parse (loader.p_CreatedAt p)) as Hc.
  pose proof (parseProtoTime_Some parse (loader.p_UpdatedAt p)) as Hu.
  pose proof (parseProtoTime_Some parse (loader.p_ClosedAt p)) as Hz.
  unfold loader.toModelIssue.
  destruct (loader.parseProtoTime parse (loader.p_CreatedAt p)) as [c|] eqn:Ec.
  2:{ assert (¬ timeOk parse (loader.p_CreatedAt p)) as Hno.
      { rewrite <- Hc. by intros [? ?]. }
      split_and!; try (split; [done|tauto]); [|done].
      split; [by intros [? ?]|tauto]. }
  assert (timeOk parse (loader.p_CreatedAt p)) as Hc' by (apply Hc; eauto).
  destruct (loader.parseProtoTime parse (loader.p_UpdatedAt p)) as [u|] eqn:Eu.
  2:{ assert (¬ timeOk parse (loader.p_UpdatedAt p)) as Hno.
      { rewrite <- Hu. by intros [? ?]. }
      split_and!; try (split; [done|tauto]); [|done].
      split; [by intros [? ?]|tauto]. }
  assert (timeOk parse (loader.p_UpdatedAt p)) as Hu' by (apply Hu; eauto).
  destruct (decide (loader.p_ClosedAt p = "")) as [Ez|Ez].
  - assert (timeOk parse (loader.p_ClosedAt p)) as Hz' by (by left).
    split_and!; try (split; [done|tauto]).
    + split; [done|eauto].
    + intros issue [= <-]. simpl. split_and!; try done.
      * intros E. rewrite E in Ec. by injection Ec.
      * intros E. rewrite E in Eu. by injection Eu.
  - destruct (loader.parseProtoTime parse (loader.p_ClosedAt p)) as [z|] eqn:Ecl;
      simpl.
    + assert (timeOk parse (loader.p_ClosedAt p)) as Hz' by (apply Hz; eauto).
      split_and!; try (split; [done|tauto]).
      * split; [done|eauto].
      * intros issue [= <-]. simpl. split_and!; try done.
        -- intros E. rewrite E in Ec. by injection Ec.
        -- intros E. rewrite E in Eu. by injection Eu.
        -- intros _. unfold loader.parseProtoTime in Ecl.
           by rewrite decide_False in Ecl.
    + assert (¬ timeOk parse (loader.p_ClosedAt p)) as Hno.
      { rewrite <- Hz. by intros [? ?]. }
      split_and!; try (split; [done|tauto]); [|done].
      split; [by intros [? ?]|tauto].
Qed.

(** ** [toModelIssue]: the order of the dependencies *)

Lemma filter_all {A} (P : A → Prop) `{!∀ x, Decision (P x)} (l : list A) :
  (∀ x, x ∈ l → P x) → filter P l = l.
Proof.
  induction l as [|x l IH]; intros Hall; [done|].
  rewrite filter_cons_True by (apply Hall; left).
  rewrite IH; [done|]. intros y Hy. apply Hall. by right.
Qed.

Lemma filter_filter_notin (T : list string) d (K : list string) :
  filter (λ x, x ∉ T ++ [d]) K = filter (λ x, x ∉ T) (filter (λ y, y ≠ d) K).
Proof.
  induction K as [|k K IH]; [done|].
  destruct (decide (k = d)) as [->|Hk].
  - rewrite (filter_cons_False _ d) by (intros H; apply H, elem_of_app; right; left).
    rewrite (filter_cons_False (λ y, y ≠ d)) by (by intros ?). done.
  - rewrite (filter_cons_True (λ y, y ≠ d)) by done.
    destruct (decide (k ∈ T)) as [Hin|Hout].
    + rewrite !filter_cons_False; [done|by intros ?|].
      intros H. apply H, elem_of_app. by left.
    + rewrite !filter_cons_True; [by rewrite IH|done|].
      intros [?|?%list_elem_of_singleton]%elem_of_app; done.
Qed.

Lemma filter_notin_ne (T : list string) d (K : list string) :
  d ∈ T → filter (λ x, x ∉ T) (filter (λ y, y ≠ d) K) = filter (λ x, x ∉ T) K.
Proof.
  intros Hd. induction K as [|k K IH]; [done|].
  destruct (decide (k = d)) as [->|Hk].
  - rewrite (filter_cons_False (λ y, y ≠ d)) by (by intros ?).
    by rewrite (filter_cons_False (λ x, x ∉ T)) by (by intros ?).
  - rewrite (filter_cons_True (λ y, y ≠ d)) by done.
    destruct (decide (k ∈ T)).
    + rewrite !(filter_cons_False (λ x, x ∉ T)) by (by intros ?). done.
    + rewrite !(filter_cons_True (λ x, x ∉ T)) by done. by rewrite IH.
Qed.

Lemma flatten_order id l st :
  flatInv id st →
  DependsOnID <$> (foldl (loader.flattenStep id) st l).2
  = (DependsOnID <$> st.2)
    ++ filter (λ x, x ∉ DependsOnID <$> st.2) (keepFirst (filter (λ x, x ≠ "") l)).
Proof.
  revert st. induction l as [|d l IH]; intros st Hst; simpl.
  { by rewrite app_nil_r. }
  destruct (flattenStep_spec id st d Hst) as (Hst1 & _ & _).
  rewrite (IH _ Hst1). unfold loader.flattenStep.
  destruct (decide (d = "")) as [->|Hd].
  { simpl. by rewrite filter_cons_False by (by intros ?). }
  rewrite bool_decide_eq_false_2 by done. simpl.
  rewrite (filter_cons_True (λ x, x ≠ "")) by done. simpl.
  destruct (loader.seenHas st.1 d) eqn:Es; simpl.
  - apply (fi_seen _ _ Hst) in Es.
    rewrite filter_cons_False by (by intros ?).
    by rewrite filter_notin_ne.
  - assert (d ∉ DependsOnID <$> st.2) as Hfresh.
    { intros Hin. apply (fi_seen _ _ Hst) in Hin. congruence. }
    rewrite filter_cons_True by done.
    rewrite fmap_app. simpl. rewrite <- app_assoc. simpl.
    by rewrite filter_filter_notin.
Qed.

(** X13.  The dependencies of a converted issue come in the order of first
    mention: the non-empty ids of [dependsOn], then those of [blockedBy]
    not met before, each as a [blocks] dependency, and last the
    [parent-child] dependency when the parent is non-empty and not
    listed. *)
Theorem X13_dependency_order parse lower p issue :
  loader.toModelIssue parse lower p = inl issue →
  let listed := filter (λ x, x ≠ "") (loader.p_DependsOn p ++ loader.p_BlockedBy p) in
  let parent := loader.p_Parent p in
  Dependencies issue
  = ((λ d, mkDep (loader.p_ID p) d DepBlocks) <$> keepFirst listed)
    ++ (if decide (parent ≠ "" ∧ parent ∉ listed)
        then [mkDep (loader.p_ID p) parent DepParentChild] else []).
Proof.
  intros H. destruct (toModelIssue_Dependencies _ _ _ _ H) as [-> _]. simpl.
  unfold loader.flatten. rewrite <- foldl_app.
  pose proof (flatten_order (loader.p_ID p)
                (loader.p_DependsOn p ++ loader.p_BlockedBy p) (∅, [])
                (flatInv_start _)) as Hord.
  destruct (flatten_fold (loader.p_ID p)
              (loader.p_DependsOn p ++ loader.p_BlockedBy p) (∅, [])
              (flatInv_start _)) as (Hinv & Hin & _).
  simpl in Hord, Hin.
  rewrite filter_all in Hord by (intros x _; apply not_elem_of_nil).
  destruct (foldl _ _ _) as [seen deps] eqn:Efold. simpl in *.
  assert (deps = (λ d, mkDep (loader.p_ID p) d DepBlocks)
                   <$> keepFirst (filter (λ x, x ≠ "")
                         (loader.p_DependsOn p ++ loader.p_BlockedBy p))) as ->.
  { rewrite <- Hord, <- list_fmap_compose.
    rewrite <- (list_fmap_id deps) at 1. apply list_fmap_ext.
    intros i dep Hdep. simpl.
    apply (fi_shape _ _ Hinv), list_elem_of_lookup. eauto. }
  assert (loader.seenHas seen (loader.p_Parent p) = true
          ↔ loader.p_Parent p ∈ filter (λ x, x ≠ "")
              (loader.p_DependsOn p ++ loader.p_BlockedBy p)) as Hseen.
  { rewrite (fi_seen _ _ Hinv). simpl. rewrite Hin, list_elem_of_filter.
    split; [intros [[]%elem_of_nil|?]; done|by right]. }
  destruct (decide (loader.p_Parent p = "")) as [Ep|Ep].
  - rewrite bool_decide_eq_false_2 by (by intros ?). simpl.
    rewrite decide_False by (by intros [? _]). by rewrite app_nil_r.
  - rewrite bool_decide_eq_true_2 by done. simpl.
    destruct (loader.seenHas seen (loader.p_Parent p)) eqn:Es; simpl.
    + rewrite decide_False; [by rewrite app_nil_r|].
      intros [_ Hno]. by apply Hno, Hseen.
    + rewrite decide_True; [done|]. split; [done|].
      intros Hyes%Hseen. congruence.
Qed.

Lemma X13_dependency_order_witness :
  let listed :=
    filter (λ x, x ≠ "") (loader.p_DependsOn protoTest ++ loader.p_BlockedBy protoTest) in
  let parent := loader.p_Parent protoTest in
  Dependencies (mkIssueOf protoTest)
  = ((λ d, mkDep (loader.p_ID protoTest) d DepBlocks) <$> keepFirst listed)
    ++ (if decide (parent ≠ "" ∧ parent ∉ listed)
        then [mkDep (loader.p_ID protoTest) parent DepParentChild] else []).
Proof.
  apply (X13_dependency_order (λ _, None) (λ s, s) protoTest).
  vm_compute. reflexivity.
Defined.

(** ** [mapProtoStatus] and [mapProtoType]: table and fallback *)

Lemma lookup_list_to_map_inv {A} (l : list (string * A)) s v :
  (list_to_map l : gmap string A) !! s = Some v → (s, v) ∈ l.
Proof. apply elem_of_list_to_map_2. Qed.

(** X14.  The two enum tables hold nothing the fallback rule would not
    give: when [strings.ToLower] lower-cases ASCII strings byte by byte,
    [mapProtoStatus] and [mapProtoType] are, on every input, the prefix
    stripped and the rest lower-cased. *)
Theorem X14_enum_tables_follow_fallback lower :
  (∀ s, isASCII s = true → lower s = ToLowerASCII s) →
  (∀ s, loader.mapProtoStatus lower s
        = lower (loader.TrimPrefix s "ISSUE_STATUS_")) ∧
  (∀ s, loader.mapProtoType lower s
        = lower (loader.TrimPrefix s "ISSUE_TYPE_")).
Proof.
  intros Hlower. split; intros s.
  - unfold loader.mapProtoStatus.
    destruct (loader.protoStatusMap !! s) as [v|] eqn:E; [|done].
    apply lookup_list_to_map_inv in E.
    repeat (apply elem_of_cons in E as [E|E];
            [injection E as -> ->; by rewrite Hlower|]).
    by apply elem_of_nil in E.
  - unfold loader.mapProtoType.
    destruct (loader.protoTypeMap !! s) as [v|] eqn:E; [|done].
    apply lookup_list_to_map_inv in E.
    repeat (apply elem_of_cons in E as [E|E];
            [injection E as -> ->; by rewrite Hlower|]).
    by apply elem_of_nil in E.
Qed.

Lemma X14_enum_tables_follow_fallback_witness :
  (∀ s, loader.mapProtoStatus ToLowerASCII s
        = ToLowerASCII (loader.TrimPrefix s "ISSUE_STATUS_")) ∧
  (∀ s, loader.mapProtoType ToLowerASCII s
        = ToLowerASCII (loader.TrimPrefix s "ISSUE_TYPE_")).
Proof.
  apply (X14_enum_tables_follow_fallback ToLowerASCII). intros s _. reflexivity.
Defined.

(** ** [loadIssuesFromURL]: the loop over the records *)

Section load_loop.
Context (parse : string → option Time) (lower : string → string).
Context (normalize : Status → Status) (validate : Issue → option string).

Lemma loadStep_spec opts st p :
  (loadStep parse lower normalize validate opts st p).1
  = st.1 ++ option_list (accepted parse lower normalize validate opts p) ∧
  ∃ ws, (loadStep parse lower normalize validate opts st p).2 = st.2 ++ ws ∧
        (length (option_list (accepted parse lower normalize validate opts p))
         + length ws ≤ 1)%nat ∧
        (WarningHandler opts = false → ws = []) ∧
        (WarningHandler opts = true → IssueFilter opts = None →
         (length (option_list (accepted parse lower normalize validate opts p))
          + length ws = 1)%nat).
Proof.
  unfold loadStep, accepted, warn.
  destruct (loader.toModelIssue parse lower p) as [issue|e]; simpl.
  - destruct (validate _) as [reason|]; simpl.
    + split; [by rewrite app_nil_r|].
      destruct (WarningHandler opts); simpl.
      * eexists. split; [done|]. simpl. split_and!; [lia|done|done].
      * exists []. rewrite app_nil_r. simpl. split_and!; [done|lia|done|done].
    + destruct (IssueFilter opts) as [keep|]; simpl.
      * destruct (keep _); simpl.
        -- split; [done|]. exists []. rewrite app_nil_r. simpl.
           split_and!; [done|lia|done|done].
        -- split; [by rewrite app_nil_r|]. exists []. rewrite app_nil_r. simpl.
           split_and!; [done|lia|done|done].
      * split; [done|]. exists []. rewrite app_nil_r. simpl.
        split_and!; [done|lia|done|done].
  - split; [by rewrite app_nil_r|].
    destruct (WarningHandler opts); simpl.
    + eexists. split; [done|]. simpl. split_and!; [lia|done|done].
    + exists []. rewrite app_nil_r. simpl. split_and!; [done|lia|done|done].
Qed.

Lemma loadLoop_spec opts records :
  (loadLoop parse lower normalize validate opts records).1
  = omap (accepted parse lower normalize validate opts) records ∧
  (length (loadLoop parse lower normalize validate opts records).1
   + length (loadLoop parse lower normalize validate opts records).2
   ≤ length records)%nat ∧
  (WarningHandler opts = false →
   (loadLoop parse lower normalize validate opts records).2 = []) ∧
  (WarningHandler opts = true → IssueFilter opts = None →
   (length (loadLoop parse lower normalize validate opts records).1
    + length (loadLoop parse lower normalize validate opts records).2
    = length records)%nat).
Proof.
  unfold loadLoop.
  induction records as [|p records (IH1 & IH2 & IH3 & IH4)] using rev_ind.
  { done. }
  rewrite foldl_snoc, omap_app, length_app. simpl.
  destruct (loadStep_spec opts
              (foldl (loadStep parse lower normalize validate opts) ([], []) records) p)
    as (E1 & ws & E2 & Hle & Hoff & Hon).
  rewrite E1, E2, IH1, !length_app.
  rewrite IH1 in IH2, IH4.
  assert (option_list (accepted parse lower normalize validate opts p)
          = match accepted parse lower normalize validate opts p with
            | Some y => [y] | None => []
            end) as Hol by (by destruct (accepted _ _ _ _ _ _)).
  rewrite <- Hol. split_and!.
  - done.
  - lia.
  - intros Hoff'. by rewrite (IH3 Hoff'), (Hoff Hoff').
  - intros Hon1 Hon2. specialize (IH4 Hon1 Hon2). specialize (Hon Hon1 Hon2). lia.
Qed.

Lemma accepted_Some opts p issue :
  accepted parse lower normalize validate opts p = Some issue →
  validate issue = None ∧
  (∀ keep, IssueFilter opts = Some keep → keep issue = true) ∧
  ID issue = loader.p_ID p ∧
  ∃ raw, loader.toModelIssue parse lower p = inl raw ∧
         issue = withStatus raw (normalize (Status_ raw)).
Proof.
  unfold accepted.
  destruct (loader.toModelIssue parse lower p) as [raw|e] eqn:Eraw; [|done].
  simpl. destruct (validate _) as [reason|] eqn:Ev; [done|].
  assert (ID raw = loader.p_ID p) as Hid.
  { by destruct (toModelIssue_Dependencies _ _ _ _ Eraw) as [_ ?]. }
  destruct (IssueFilter opts) as [keep|].
  - destruct (keep _) eqn:Ek; [|done]. intros [= <-].
    split_and!; [done| |done|by exists raw]. by intros ? [= <-].
  - intros [= <-]. split_and!; [done|done|done|by exists raw].
Qed.

End load_loop.

Lemma sublist_omap {A B} (f : A → option B) (g : A → B) (l : list A) :
  (∀ x y, f x = Some y → y = g x) → omap f l `sublist_of` g <$> l.
Proof.
  intros H. induction l as [|x l IH]; simpl; [constructor|].
  destruct (f x) as [y|] eqn:E.
  - rewrite (H _ _ E). by constructor.
  - by constructor.
Qed.

(** X15.  The issues [loadIssuesFromURL] collects are, in the order of the
    wire records, the records that convert, validate after status
    normalisation and pass the filter: every issue returned is the
    normalised conversion of a record, is valid and passes the filter, and
    no record is kept twice or out of order. *)
Theorem X15_loaded_issues parse lower normalize validate opts records :
  (loadLoop parse lower normalize validate opts records).1
  = omap (accepted parse lower normalize validate opts) records ∧
  (∀ issue, issue ∈ (loadLoop parse lower normalize validate opts records).1 →
     validate issue = None ∧
     (∀ keep, IssueFilter opts = Some keep → keep issue = true) ∧
     ∃ p raw, p ∈ records ∧ loader.toModelIssue parse lower p = inl raw ∧
              issue = withStatus raw (normalize (Status_ raw))) ∧
  ID <$> (loadLoop parse lower normalize validate opts records).1
    `sublist_of` loader.p_ID <$> records.
Proof.
  destruct (loadLoop_spec parse lower normalize validate opts records) as (-> & _).
  split_and!.
  - done.
  - intros issue (p & Hp & Hacc)%list_elem_of_omap.
    destruct (accepted_Some _ _ _ _ _ _ _ Hacc) as (? & ? & _ & raw & ? & ?).
    split_and!; [done..|]. by exists p, raw.
  - rewrite list_fmap_omap. apply sublist_omap. intros p s. simpl.
    destruct (accepted _ _ _ _ _ p) as [issue|] eqn:Hacc; [|done].
    simpl. intros [= <-].
    by destruct (accepted_Some _ _ _ _ _ _ _ Hacc) as (_ & _ & ? & _).
Qed.

(** X16.  Every wire record ends in at most one of the two places, the
    result or the warnings; with a warning handler and no filter it ends
    in exactly one, so that no record is dropped silently.  Without
    handler nothing is reported, and the handler has no influence on the
    issues returned. *)
Theorem X16_every_record_accounted_for parse lower normalize validate opts records :
  (length (loadLoop parse lower normalize validate opts records).1
   + length (loadLoop parse lower normalize validate opts records).2
   ≤ length records)%nat ∧
  (WarningHandler opts = true → IssueFilter opts = None →
   (length (loadLoop parse lower normalize validate opts records).1
    + length (loadLoop parse lower normalize validate opts records).2
    = length records)%nat) ∧
  (WarningHandler opts = false →
   (loadLoop parse lower normalize validate opts records).2 = []) ∧
  (∀ handler,
     (loadLoop parse lower normalize validate
        {| WarningHandler := handler; IssueFilter := IssueFilter opts |} records).1
     = (loadLoop parse lower normalize validate opts records).1).
Proof.
  destruct (loadLoop_spec parse lower normalize validate opts records)
    as (E & Hle & Hoff & Hon).
  split_and!; [done..|].
  intros handler.
  destruct (loadLoop_spec parse lower normalize validate
              {| WarningHandler := handler; IssueFilter := IssueFilter opts |} records)
    as (-> & _).
  by rewrite E.
Qed.

(** ** [loadIssuesFromURL]: the request and the response *)

Lemma TrimRight_snoc s c :
  TrimRight (s +:+ String c EmptyString) c = TrimRight s c.
Proof.
  induction s as [|a s IH].
  - simpl. by rewrite decide_True.
  - change (String a s +:+ String c EmptyString)
      with (String a (s +:+ String c EmptyString)).
    simpl. by rewrite IH.
Qed.

(** X17.  A trailing slash of the base URL makes no difference.  Issues
    are returned only for a response with status 200 whose body is read
    and parsed, and they are then what the loop makes of the records; any
    other status gives the error with the first 1024 bytes of the body,
    whatever the body holds; and an error comes with no warning. *)
Theorem X17_request_and_response parse lower unmarshal newRequest normalize
    validate baseURL opts client :
  loadIssuesFromURL parse lower unmarshal newRequest normalize validate
    (baseURL +:+ "/") opts client
  = loadIssuesFromURL parse lower unmarshal newRequest normalize validate
      baseURL opts client ∧
  (∀ issues,
     (loadIssuesFromURL parse lower unmarshal newRequest normalize validate
        baseURL opts client).1 = inl issues →
     ∃ resp records,
       client (requestOf baseURL) = Some resp ∧
       http.StatusCode resp = 200 ∧ http.BodyErr resp = false ∧
       unmarshal (http.Body resp) = Some records ∧
       loadIssuesFromURL parse lower unmarshal newRequest normalize validate
         baseURL opts client
       = (inl (loadLoop parse lower normalize validate opts records).1,
          (loadLoop parse lower normalize validate opts records).2)) ∧
  (∀ resp, newRequest (requestOf baseURL) = true →
           client (requestOf baseURL) = Some resp →
           http.StatusCode resp ≠ 200 →
     loadIssuesFromURL parse lower unmarshal newRequest normalize validate
       baseURL opts client
     = (inr (DaemonReturned (http.StatusCode resp)
               (String.substring 0 1024 (http.Body resp))), [])) ∧
  (∀ e,
     (loadIssuesFromURL parse lower unmarshal newRequest normalize validate
        baseURL opts client).1 = inr e →
     (loadIssuesFromURL parse lower unmarshal newRequest normalize validate
        baseURL opts client).2 = []).
Proof.
  split_and!.
  - unfold loadIssuesFromURL, requestOf, endpointOf.
    change "/" with (String slash EmptyString). by rewrite TrimRight_snoc.
  - intros issues. unfold loadIssuesFromURL.
    destruct (newRequest (requestOf baseURL)); simpl; [|done].
    destruct (client (requestOf baseURL)) as [resp|]; [|done].
    destruct (decide (http.StatusCode resp ≠ http.StatusOK)) as [|Hok]; [done|].
    destruct (http.BodyErr resp) eqn:Eb; [done|].
    destruct (unmarshal (http.Body resp)) as [records|] eqn:Eu; [|done].
    simpl. intros _. exists resp, records. split_and!; try done.
    unfold http.StatusOK in Hok. by destruct (decide (http.StatusCode resp = 200)).
  - intros resp Hn Hc Hs. unfold loadIssuesFromURL. rewrite Hn, Hc. simpl.
    by rewrite decide_True.
  - intros e. unfold loadIssuesFromURL.
    destruct (newRequest (requestOf baseURL)); simpl; [|done].
    destruct (client (requestOf baseURL)) as [resp|]; [|done].
    destruct (decide (http.StatusCode resp ≠ http.StatusOK)); [done|].
    destruct (http.BodyErr resp); [done|].
    destruct (unmarshal (http.Body resp)) as [records|]; [|done].
    done.
Qed.

(** * cmd/bv *)

(** ** [formatCycle] *)

Lemma append_cons a (s t : string) : String a s +:+ t = String a (s +:+ t).
Proof. done. Qed.

Lemma append_assoc (s t u : string) : (s +:+ t) +:+ u = s +:+ (t +:+ u).
Proof.
  induction s as [|a s IH]; [done|]. by rewrite !append_cons, IH.
Qed.

Lemma concat_cons sep x y l :
  String.concat sep (x :: y :: l) = x +:+ (sep +:+ String.concat sep (y :: l)).
Proof. done. Qed.

Lemma formatCycle_loop sep first rest :
  foldl (λ result c, result +:+ (sep +:+ c)) first rest
  = String.concat sep (first :: rest).
Proof.
  revert first. induction rest as [|c rest IH]; intros first; [done|].
  simpl foldl. rewrite IH. destruct rest as [|d rest].
  - done.
  - rewrite !concat_cons. by rewrite !append_assoc.
Qed.

Lemma concat_snoc sep x l y :
  String.concat sep ((x :: l) ++ [y]) = String.concat sep (x :: l) +:+ (sep +:+ y).
Proof.
  revert x. induction l as [|z l IH]; intros x; [done|].
  change ((x :: z :: l) ++ [y]) with (x :: ((z :: l) ++ [y])).
  change ((z :: l) ++ [y]) with (z :: (l ++ [y])) at 1.
  rewrite concat_cons. change (z :: l ++ [y]) with ((z :: l) ++ [y]).
  rewrite IH, concat_cons. by rewrite !append_assoc.
Qed.

(** X18.  [formatCycle] shows a non-empty cycle closed: its elements
    joined by the arrow, followed by the arrow and the first element once
    more; the empty cycle is shown as "(empty)". *)
Theorem X18_formatCycle_closes_the_cycle cycle :
  formatCycle cycle
  = match cycle with
    | [] => "(empty)"
    | first :: _ => String.concat " → " (cycle ++ [first])
    end.
Proof.
  destruct cycle as [|first rest]; [done|].
  unfold formatCycle. by rewrite formatCycle_loop, concat_snoc.
Qed.

(** ** [applyRecipeFilters] *)

Lemma filter_loop {A} (keep : A → bool) (l : list A) :
  foldl (λ result x, if keep x then result ++ [x] else result) [] l
  = filter (λ x, keep x = true) l.
Proof.
  induction l as [|x l IH] using rev_ind; [done|].
  rewrite foldl_snoc, IH, filter_app.
  destruct (keep x) eqn:E.
  - by rewrite filter_cons_True.
  - rewrite filter_cons_False by (by rewrite E). by rewrite app_nil_r.
Qed.

Lemma openBlockersOf_spec issues id :
  default false (openBlockersOf issues !! id) = true
  ↔ ∃ issue, issue ∈ issues ∧ ID issue = id ∧ Status_ issue ≠ StatusClosed.
Proof.
  unfold openBlockersOf.
  induction issues as [|x issues IH] using rev_ind.
  - simpl. rewrite lookup_empty. simpl. split; [done|].
    by intros (? & ?%elem_of_nil & _).
  - rewrite foldl_snoc. setoid_rewrite elem_of_app.
    setoid_rewrite list_elem_of_singleton.
    destruct (decide (Status_ x ≠ StatusClosed)) as [Hopen|Hclosed].
    + destruct (decide (id = ID x)) as [->|Hne].
      * rewrite lookup_insert_eq. simpl. split; [|done]. intros _. exists x. eauto.
      * rewrite lookup_insert_ne by done. rewrite IH. split.
        -- intros (issue & ? & ? & ?). exists issue. eauto.
        -- intros (issue & [?| ->] & ? & ?); [by exists issue|congruence].
    + rewrite IH. split.
      * intros (issue & ? & ? & ?). exists issue. eauto.
      * intros (issue & [?| ->] & ? & ?); [by exists issue|done].
Qed.

Lemma hasOpenBlockers_spec issues issue :
  hasOpenBlockers (openBlockersOf issues) issue = true
  ↔ ∃ dep blocker, dep ∈ Dependencies issue ∧ Type_ dep = DepBlocks ∧
                   blocker ∈ issues ∧ ID blocker = DependsOnID dep ∧
                   Status_ blocker ≠ StatusClosed.
Proof.
  unfold hasOpenBlockers. rewrite existsb_exists. split.
  - intros (dep & Hdep%list_elem_of_In & [Ht Hb]%andb_true_iff).
    apply bool_decide_eq_true in Ht.
    apply openBlockersOf_spec in Hb as (blocker & ? & ? & ?).
    by exists dep, blocker.
  - intros (dep & blocker & Hdep & Ht & Hin & Hid & Hopen).
    exists dep. split; [by apply list_elem_of_In|].
    apply andb_true_iff. split; [by apply bool_decide_eq_true|].
    apply openBlockersOf_spec. by exists blocker.
Qed.

Section recipes_facts.
Context (now : Time) (parseRel : string → Time → option Time).
Context (equalFold : string → string → bool) (lower : string → string).
Context (contains : string → string → bool).

Lemma applyRecipeFilters_filter issues r :
  applyRecipeFilters now parseRel equalFold lower contains issues (Some r)
  = filter (λ issue, keeps now parseRel equalFold lower contains
                       (recipe.Filters r) (openBlockersOf issues) issue = true)
           issues.
Proof. unfold applyRecipeFilters. apply filter_loop. Qed.

Lemma keeps_noFilters ob issue :
  keeps now parseRel equalFold lower contains noFilters ob issue = true.
Proof. done. Qed.

End recipes_facts.

(** X19.  [applyRecipeFilters] only removes: the result is a subsequence
    of the input, in the input's order, and holds exactly the issues that
    pass every filter, the blockers being looked up among all issues of
    the input.  Without recipe, and with a recipe that sets no filter, the
    list is returned as it is. *)
Theorem X19_recipe_filters_only_remove now parseRel equalFold lower contains issues r :
  applyRecipeFilters now parseRel equalFold lower contains issues r
    `sublist_of` issues ∧
  (∀ rcp, r = Some rcp →
     applyRecipeFilters now parseRel equalFold lower contains issues r
     = filter (λ issue, keeps now parseRel equalFold lower contains
                          (recipe.Filters rcp) (openBlockersOf issues) issue = true)
              issues) ∧
  (r = None →
   applyRecipeFilters now parseRel equalFold lower contains issues r = issues) ∧
  (∀ rcp, r = Some rcp → recipe.Filters rcp = noFilters →
     applyRecipeFilters now parseRel equalFold lower contains issues r = issues).
Proof.
  split_and!.
  - destruct r as [rcp|]; [|done].
    rewrite applyRecipeFilters_filter. apply sublist_filter.
  - intros rcp ->. apply applyRecipeFilters_filter.
  - by intros ->.
  - intros rcp -> Hf. rewrite applyRecipeFilters_filter, Hf.
    apply filter_all. intros issue _. apply keeps_noFilters.
Qed.

(** X20.  With [Actionable] set to true an issue is kept only if none of
    its [blocks] dependencies leads to an issue of the input that is not
    closed; dependencies of another type, on a closed issue or on an id
    that no issue of the input has do not count.  Asking for
    [HasBlockers] false selects the same issues, and asking for
    [HasBlockers] true together with [Actionable] selects none. *)
Theorem X20_actionable now parseRel equalFold lower contains issues f :
  recipe.HasBlockers f = None → recipe.Actionable f = None →
  (∀ issue,
     issue ∈ applyRecipeFilters now parseRel equalFold lower contains issues
               (recipeOf (withBlockers f None (Some true)))
     ↔ issue ∈ applyRecipeFilters now parseRel equalFold lower contains issues
                 (recipeOf f) ∧
       ∀ dep blocker, dep ∈ Dependencies issue → Type_ dep = DepBlocks →
                      blocker ∈ issues → ID blocker = DependsOnID dep →
                      Status_ blocker = StatusClosed) ∧
  applyRecipeFilters now parseRel equalFold lower contains issues
    (recipeOf (withBlockers f (Some false) None))
  = applyRecipeFilters now parseRel equalFold lower contains issues
      (recipeOf (withBlockers f None (Some true))) ∧
  applyRecipeFilters now parseRel equalFold lower contains issues
    (recipeOf (withBlockers f (Some true) (Some true))) = [].
Proof.
  intros Hh Ha. unfold recipeOf. rewrite !applyRecipeFilters_filter. simpl.
  assert (∀ ob issue hb ac,
            keeps now parseRel equalFold lower contains (withBlockers f hb ac) ob issue
            = keeps now parseRel equalFold lower contains f ob issue
              && hasBlockersFilter (withBlockers f hb ac) ob issue
              && actionableFilter (withBlockers f hb ac) ob issue) as Hsplit.
  { intros ob issue hb ac. unfold keeps at 1 2.
    unfold statusFilter, priorityFilter, tagsFilter, excludeTagsFilter,
      titleFilter, idPrefixFilter. simpl.
    unfold hasBlockersFilter at 2. unfold actionableFilter at 2.
    rewrite Hh, Ha. simpl.
    repeat (match goal with |- context [?b && true] => rewrite (andb_true_r b) end).
    destruct (hasBlockersFilter (withBlockers f hb ac) ob issue),
             (actionableFilter (withBlockers f hb ac) ob issue);
      rewrite ?andb_true_r, ?andb_false_r; try done;
      repeat (match goal with
              | |- context [?b && false] => rewrite (andb_false_r b)
              | |- context [false && ?b] => rewrite (andb_false_l b)
              end); done. }
  split_and!.
  - intros issue. rewrite !list_elem_of_filter, Hsplit.
    unfold hasBlockersFilter, actionableFilter. simpl.
    rewrite andb_true_r, andb_true_iff, negb_true_iff.
    rewrite <- not_true_iff_false, hasOpenBlockers_spec. split.
    + intros [[Hk Hno] Hin]. split; [done|].
      intros dep blocker Hdep Ht Hb Hid.
      destruct (decide (Status_ blocker = StatusClosed)) as [|Hopen]; [done|].
      exfalso. apply Hno. by exists dep, blocker.
    + intros [[Hk Hin] Hall]. split; [|done]. split; [done|].
      intros (dep & blocker & Hdep & Ht & Hb & Hid & Hopen).
      apply Hopen. by eapply Hall.
  - apply list_filter_iff. intros issue. rewrite !Hsplit.
    unfold hasBlockersFilter, actionableFilter. simpl.
    destruct (hasOpenBlockers _ issue); simpl;
      rewrite ?andb_true_r, ?andb_false_r; done.
  - apply filter_none. intros issue _. rewrite Hsplit.
    unfold hasBlockersFilter, actionableFilter. simpl.
    destruct (hasOpenBlockers _ issue); simpl;
      rewrite ?andb_true_r, ?andb_false_r; done.
Qed.

Lemma X20_actionable_witness :
  (∀ issue,
     issue ∈ applyRecipeFilters 0 (λ _ _, None) String.eqb (λ s, s) String.eqb
               issuesBlocked (recipeOf (withBlockers noFilters None (Some true)))
     ↔ issue ∈ applyRecipeFilters 0 (λ _ _, None) String.eqb (λ s, s) String.eqb
                 issuesBlocked (recipeOf noFilters) ∧
       ∀ dep blocker, dep ∈ Dependencies issue → Type_ dep = DepBlocks →
                      blocker ∈ issuesBlocked → ID blocker = DependsOnID dep →
                      Status_ blocker = StatusClosed) ∧
  applyRecipeFilters 0 (λ _ _, None) String.eqb (λ s, s) String.eqb issuesBlocked
    (recipeOf (withBlockers noFilters (Some false) None))
  = applyRecipeFilters 0 (λ _ _, None) String.eqb (λ s, s) String.eqb issuesBlocked
      (recipeOf (withBlockers noFilters None (Some true))) ∧
  applyRecipeFilters 0 (λ _ _, None) String.eqb (λ s, s) String.eqb issuesBlocked
    (recipeOf (withBlockers noFilters (Some true) (Some true))) = [].
Proof.
  apply (X20_actionable 0 (λ _ _, None) String.eqb (λ s, s) String.eqb
           issuesBlocked noFilters); reflexivity.
Defined.

(** X21.  The date filters are lenient and inclusive: a threshold that
    does not parse filters nothing, an issue whose timestamp is the zero
    time passes every date filter, and so does an issue whose timestamp
    equals the threshold. *)
Theorem X21_date_filters now parseRel spec t :
  (parseRel spec now = None →
   notBefore now parseRel spec t = true ∧ notAfter now parseRel spec t = true) ∧
  notBefore now parseRel spec zeroTime = true ∧
  notAfter now parseRel spec zeroTime = true ∧
  (parseRel spec now = Some t →
   notBefore now parseRel spec t = true ∧ notAfter now parseRel spec t = true) ∧
  (∀ threshold, spec ≠ "" → parseRel spec now = Some threshold → t ≠ zeroTime →
     (notBefore now parseRel spec t = true ↔ threshold ≤ t) ∧
     (notAfter now parseRel spec t = true ↔ t ≤ threshold)).
Proof.
  unfold notBefore, notAfter, IsZero, Before, After. split_and!.
  - intros ->. by destruct (decide (spec ≠ "")).
  - destruct (decide (spec ≠ "")); [|done]. by destruct (parseRel spec now).
  - destruct (decide (spec ≠ "")); [|done]. by destruct (parseRel spec now).
  - intros ->. destruct (decide (spec ≠ "")); [|done].
    rewrite !(bool_decide_eq_false_2 (t < t)) by lia.
    by rewrite !andb_false_r.
  - intros threshold Hs -> Ht. rewrite !decide_True by done.
    rewrite (bool_decide_eq_false_2 (t = zeroTime)) by done. simpl.
    rewrite !negb_true_iff, !bool_decide_eq_false. lia.
Qed.

(** * Strings: the version, the filter value and the test helpers *)

(** ** Package version *)

(** X22.  The resolved version is never empty and never panics.  A
    version set by the linker wins; otherwise the version comes from the
    build information or is the fallback, and then it starts with the
    letter v.  [versionFromBuildInfo] gives the empty string or the module
    version, prefixed with v when it has none, and never a pseudo-version
    or a dirty build. *)
Theorem X22_version_resolution contains hasSuffix ldflags info :
  (∃ v, version.init contains hasSuffix ldflags info = Some v ∧ v ≠ "" ∧
        (ldflags ≠ "" → v = ldflags) ∧
        (ldflags = "" → String.prefix "v" v = true)) ∧
  (∃ b, version.versionFromBuildInfo contains hasSuffix info = Some b ∧
        (b = "" ∨ String.prefix "v" b = true) ∧
        (b ≠ "" → ∃ m, info = Some m ∧ (b = m ∨ b = "v" +:+ m) ∧
                       m ≠ "(devel)" ∧ contains m "-0." = false ∧
                       hasSuffix m "+dirty" = false)).
Proof.
  assert (∃ b, version.versionFromBuildInfo contains hasSuffix info = Some b ∧
        (b = "" ∨ String.prefix "v" b = true) ∧
        (b ≠ "" → ∃ m, info = Some m ∧ (b = m ∨ b = "v" +:+ m) ∧
                       m ≠ "(devel)" ∧ contains m "-0." = false ∧
                       hasSuffix m "+dirty" = false)) as Hb.
  { assert (∀ r : option string, r = Some "" →
              ∃ b, r = Some b ∧ (b = "" ∨ String.prefix "v" b = true) ∧
                   (b ≠ "" → ∃ m, info = Some m ∧ (b = m ∨ b = "v" +:+ m) ∧
                       m ≠ "(devel)" ∧ contains m "-0." = false ∧
                       hasSuffix m "+dirty" = false)) as Hempty.
    { intros r ->. exists "". split_and!; [done|by left|]. by intros []. }
    unfold version.versionFromBuildInfo. destruct info as [m|]; [|by apply Hempty].
    destruct (decide (m = "" ∨ m = "(devel)")) as [|Hm]; [by apply Hempty|].
    destruct (contains m "-0.") eqn:Ec; simpl; [by apply Hempty|].
    destruct (hasSuffix m "+dirty") eqn:Es; simpl; [by apply Hempty|].
    clear Hempty.
    destruct m as [|c m]; [by destruct Hm; left|].
    destruct (decide (c ≠ Ascii.ascii_of_nat 118)) as [Hc|Hc].
    - eexists. split; [done|]. split; [by right|]. intros _.
      eexists. split_and!; [done|by right|tauto|done|done].
    - apply dec_stable in Hc as ->. eexists. split; [done|].
      split; [right; simpl; by destruct m|]. intros _.
      eexists. split_and!; [done|by left|tauto|done|done]. }
  split; [|done]. destruct Hb as (b & Eb & Hv & _).
  unfold version.init. destruct (decide (ldflags ≠ "")) as [Hl|Hl].
  - exists ldflags. by split_and!.
  - apply dec_stable in Hl as ->. rewrite Eb. simpl.
    destruct (decide (b ≠ "")) as [Hne|He].
    + exists b. split_and!; [done|done|done|]. intros _. by destruct Hv.
    + eexists. split_and!; done.
Qed.

(** ** Occurrence in a string *)

Lemma append_nil_r (s : string) : s +:+ "" = s.
Proof. induction s as [|a s IH]; [done|]. by rewrite append_cons, IH. Qed.

Lemma length_append (s t : string) :
  String.length (s +:+ t) = (String.length s + String.length t)%nat.
Proof. induction s as [|a s IH]; [done|]. rewrite append_cons. simpl. by rewrite IH. Qed.

Lemma occursIn_refl s : occursIn s s.
Proof. exists "", "". by rewrite append_nil_r. Qed.

Lemma occursIn_app_l sub s t : occursIn sub s → occursIn sub (s +:+ t).
Proof.
  intros (pre & post & ->). exists pre, (post +:+ t). by rewrite !append_assoc.
Qed.

Lemma occursIn_app_r sub s t : occursIn sub t → occursIn sub (s +:+ t).
Proof.
  intros (pre & post & ->). exists (s +:+ pre), post. by rewrite !append_assoc.
Qed.

Lemma occursIn_concat sep sub l : sub ∈ l → occursIn sub (String.concat sep l).
Proof.
  induction l as [|x l IH]; [by intros ?%elem_of_nil|].
  intros [->|Hin]%elem_of_cons.
  - destruct l as [|y l]; [apply occursIn_refl|].
    rewrite concat_cons. apply occursIn_app_l, occursIn_refl.
  - destruct l as [|y l]; [by apply elem_of_nil in Hin|].
    rewrite concat_cons. by apply occursIn_app_r, occursIn_app_r, IH.
Qed.

(** X23.  The filter value of a list item begins with the title, and the
    id, the status, the type, the assignee and every label of the issue
    occur in it, so that a search for any of them finds the item. *)
Theorem X23_filter_value_covers_the_fields i :
  String.prefix (Title (Issue_ i)) (FilterValue i) = true ∧
  occursIn (ID (Issue_ i)) (FilterValue i) ∧
  occursIn (Status_ (Issue_ i)) (FilterValue i) ∧
  occursIn (IssueType_ (Issue_ i)) (FilterValue i) ∧
  occursIn (Assignee (Issue_ i)) (FilterValue i) ∧
  (∀ label, label ∈ Labels (Issue_ i) → occursIn label (FilterValue i)).
Proof.
  unfold FilterValue.
  set (base := (((((Title (Issue_ i) +:+ " ") +:+ ID (Issue_ i)) +:+ " ")
                 +:+ Status_ (Issue_ i)) +:+ " ") +:+ IssueType_ (Issue_ i)).
  set (withAssignee := if decide (Assignee (Issue_ i) ≠ "")
                       then (base +:+ " ") +:+ Assignee (Issue_ i) else base).
  assert (∀ sub, occursIn sub base → occursIn sub withAssignee) as Hup1.
  { intros sub H. unfold withAssignee. destruct (decide _); [|done].
    by apply occursIn_app_l, occursIn_app_l. }
  assert (∀ sub, occursIn sub withAssignee →
                 occursIn sub (if bool_decide (0 < length (Labels (Issue_ i)))%nat
                               then (withAssignee +:+ " ")
                                    +:+ String.concat " " (Labels (Issue_ i))
                               else withAssignee)) as Hup2.
  { intros sub H. destruct (bool_decide _); [|done].
    by apply occursIn_app_l, occursIn_app_l. }
  assert (∃ rest, (if bool_decide (0 < length (Labels (Issue_ i)))%nat
                   then (withAssignee +:+ " ")
                        +:+ String.concat " " (Labels (Issue_ i))
                   else withAssignee) = Title (Issue_ i) +:+ rest) as [rest Hrest].
  { assert (∃ r, base = Title (Issue_ i) +:+ r) as [r0 E0].
    { unfold base. eexists. by rewrite !append_assoc. }
    assert (∃ r, withAssignee = Title (Issue_ i) +:+ r) as [r1 E1].
    { unfold withAssignee. destruct (decide _); [|by eauto].
      rewrite E0. eexists. by rewrite !append_assoc. }
    destruct (bool_decide _); [|by eauto].
    rewrite E1. eexists. by rewrite !append_assoc. }
  split_and!.
  - rewrite Hrest. generalize (Title (Issue_ i)). intros t.
    induction t as [|a t IH]; [by destruct rest|].
    rewrite append_cons. simpl. rewrite IH.
    by destruct (Ascii.ascii_dec a a).
  - apply Hup2, Hup1. unfold base.
    do 4 apply occursIn_app_l. apply occursIn_app_r, occursIn_refl.
  - apply Hup2, Hup1. unfold base.
    do 2 apply occursIn_app_l. apply occursIn_app_r, occursIn_refl.
  - apply Hup2, Hup1. unfold base. apply occursIn_app_r, occursIn_refl.
  - apply Hup2. unfold withAssignee.
    destruct (decide (Assignee (Issue_ i) ≠ "")) as [|E].
    + apply occursIn_app_r, occursIn_refl.
    + apply dec_stable in E as ->. by exists "", base.
  - intros label Hl.
    rewrite bool_decide_eq_true_2
      by (destruct (Labels (Issue_ i)); [by apply elem_of_nil in Hl|simpl; lia]).
    by apply occursIn_app_r, occursIn_concat.
Qed.

(** ** The test helpers [contains] and [searchSubstr] *)

Lemma substring_prefix (sub post : string) :
  String.substring 0 (String.length sub) (sub +:+ post) = sub.
Proof.
  induction sub as [|a sub IH].
  - by destruct post.
  - rewrite append_cons. simpl. by rewrite IH.
Qed.

Lemma substring_skip (pre s : string) n :
  String.substring (String.length pre) n (pre +:+ s) = String.substring 0 n s.
Proof. induction pre as [|a pre IH]; [done|]. rewrite append_cons. simpl. apply IH. Qed.

Lemma substring_0_split (s : string) n :
  (n ≤ String.length s)%nat → ∃ post, s = String.substring 0 n s +:+ post.
Proof.
  revert s. induction n as [|n IH]; intros s Hn.
  - exists s. by destruct s.
  - destruct s as [|a s]; simpl in Hn; [lia|].
    destruct (IH s) as [post E]; [lia|].
    exists post. simpl. rewrite append_cons. by rewrite <- E.
Qed.

Lemma substring_split (s : string) i n :
  (i + n ≤ String.length s)%nat →
  ∃ pre post, s = pre +:+ (String.substring i n s +:+ post) ∧ String.length pre = i.
Proof.
  revert s. induction i as [|i IH]; intros s Hn.
  - destruct (substring_0_split s n) as [post E]; [lia|]. by exists "", post.
  - destruct s as [|a s]; simpl in Hn; [lia|].
    destruct (IH s) as (pre & post & E & Hlen); [lia|].
    exists (String a pre), post. simpl. rewrite append_cons.
    split; [by rewrite <- E|by rewrite Hlen].
Qed.

Lemma searchSubstr_spec s substr :
  searchSubstr s substr = true ↔ occursIn substr s.
Proof.
  unfold searchSubstr. rewrite existsb_exists. split.
  - intros (i & Hi%in_seq & Heq%String.eqb_eq).
    destruct (substring_split s i (String.length substr)) as (pre & post & E & _);
      [lia|].
    exists pre, post. by rewrite Heq in E.
  - intros (pre & post & ->). exists (String.length pre). split.
    + apply in_seq. rewrite !length_append. lia.
    + apply String.eqb_eq. by rewrite substring_skip, substring_prefix.
Qed.

(** X24.  The test helper [contains] holds exactly when the second string
    occurs in the first; the empty string occurs in every string; and the
    length test in front of the search changes nothing. *)
Theorem X24_contains_is_occurrence s substr :
  (contains s substr = true ↔ occursIn substr s) ∧
  contains s "" = true ∧
  contains s substr = searchSubstr s substr.
Proof.
  assert (searchSubstr s substr = true → (String.length substr ≤ String.length s)%nat)
    as Hlen.
  { intros (pre & post & ->)%searchSubstr_spec. rewrite !length_append. lia. }
  assert (contains s substr = searchSubstr s substr) as Heq.
  { unfold contains. destruct (searchSubstr s substr) eqn:E.
    - by rewrite bool_decide_eq_true_2 by (by apply Hlen).
    - by rewrite andb_false_r. }
  split_and!; [|  |done].
  - rewrite Heq. apply searchSubstr_spec.
  - unfold contains. rewrite bool_decide_eq_true_2 by (simpl; lia). simpl.
    apply searchSubstr_spec. by exists "", s.
Qed.

(** ** [applyRecipeSort] *)

Lemma StronglySorted_mono {A} (R R' : relation A) l :
  (∀ x y, R x y → R' x y) → StronglySorted R l → StronglySorted R' l.
Proof.
  intros HR. induction 1 as [|x l Hs IH Hx]; constructor; [done|].
  eapply Forall_impl; [exact Hx|]. intros y. apply HR.
Qed.

Lemma sinkLeft_pass {A} (lt : A → A → bool) x P S :
  (∀ y, y ∈ P → lt x y = true) → sinkLeft lt x (P ++ S) = P ++ sinkLeft lt x S.
Proof.
  induction P as [|y P IH]; intros HP; [done|]. simpl.
  rewrite (HP y) by left. rewrite IH; [done|]. intros z Hz. apply HP. by right.
Qed.

Lemma sinkLeft_stop {A} (lt : A → A → bool) x S :
  (∀ y, head S = Some y → lt x y = false) → sinkLeft lt x S = x :: S.
Proof. destruct S as [|y S]; [done|]. intros H. simpl. by rewrite (H y). Qed.

Section insertion_more.
Context {A : Type} (lt : A → A → bool).
Hypothesis lt_asym : ∀ x y, lt x y = true → lt y x = false.
Hypothesis ge_trans : ∀ x y z, lt x y = false → lt y z = false → lt x z = false.

(** A sorted reversed prefix splits into the elements the new one
    passes and those it does not. *)
Lemma sorted_split x rp :
  StronglySorted (λ a b, lt a b = false) rp →
  ∃ G L, rp = G ++ L ∧ (∀ y, y ∈ G → lt x y = true) ∧ (∀ y, y ∈ L → lt x y = false).
Proof.
  induction 1 as [|y rp Hs (G & L & -> & HG & HL) Hy].
  - exists [], []. split_and!; [done|by intros ? ?%elem_of_nil..].
  - destruct (lt x y) eqn:E.
    + exists (y :: G), L. split_and!; [done| |done].
      intros z [->|?]%elem_of_cons; auto.
    + exists [], (y :: G ++ L). split_and!; [done|by intros ? ?%elem_of_nil|].
      intros z [->|Hz]%elem_of_cons; [done|].
      rewrite Forall_forall in Hy. eapply ge_trans; [exact E|]. by apply Hy.
Qed.

Lemma sinkLeft_negated x rp :
  StronglySorted (λ a b, lt a b = false) rp →
  sinkLeft (λ a b, negb (lt a b)) x (reverse rp) = reverse (sinkLeft lt x rp).
Proof.
  intros Hs. destruct (sorted_split x rp Hs) as (G & L & -> & HG & HL).
  rewrite (sinkLeft_pass lt x G L HG).
  rewrite (sinkLeft_stop lt x L).
  2:{ intros y Hy. apply HL. destruct L; simplify_eq/=. left. }
  rewrite !reverse_app, reverse_cons, <- app_assoc. simpl.
  rewrite (sinkLeft_pass (λ a b, negb (lt a b)) x (reverse L)).
  2:{ intros y Hy. rewrite elem_of_reverse in Hy. by rewrite (HL y Hy). }
  f_equal. apply (sinkLeft_stop (λ a b, negb (lt a b))).
  intros y Hy. rewrite (HG y); [done|].
  apply elem_of_reverse, list_elem_of_lookup. exists 0%nat.
  by rewrite <- head_lookup.
Qed.

Lemma insertion_prefix_sorted l :
  StronglySorted (λ a b, lt a b = false) (foldl (λ rp x, sinkLeft lt x rp) [] l).
Proof.
  induction l as [|x l IH] using rev_ind; [constructor|].
  rewrite foldl_snoc. by apply sinkLeft_sorted.
Qed.

(** Sorting with the negated comparison gives the mirror image. *)
Lemma insertionSort_negated l :
  insertionSort (λ a b, negb (lt a b)) l = reverse (insertionSort lt l).
Proof.
  unfold insertionSort. f_equal.
  induction l as [|x l IH] using rev_ind; [done|].
  rewrite !foldl_snoc, IH. apply sinkLeft_negated, insertion_prefix_sorted.
Qed.

(** Elements that compare equal to [k] keep their order. *)
Lemma sinkLeft_stable k x rp :
  filter (λ z, lt k z = false ∧ lt z k = false) (sinkLeft lt x rp)
  = filter (λ z, lt k z = false ∧ lt z k = false) (x :: rp).
Proof.
  induction rp as [|h rp IH]; [done|]. simpl sinkLeft.
  destruct (lt x h) eqn:E; [|done].
  destruct (decide (lt k h = false ∧ lt h k = false)) as [Hh|Hh].
  - rewrite (filter_cons_True _ h) by done. rewrite IH.
    assert (¬ (lt k x = false ∧ lt x k = false)) as Hx.
    { intros [H1 H2]. destruct Hh as [H3 H4].
      pose proof (ge_trans _ _ _ H2 H3). congruence. }
    rewrite !(filter_cons_False _ x) by done.
    by rewrite (filter_cons_True _ h).
  - rewrite (filter_cons_False _ h) by done. rewrite IH.
    destruct (decide (lt k x = false ∧ lt x k = false)).
    + rewrite !(filter_cons_True _ x) by done.
      by rewrite (filter_cons_False _ h).
    + rewrite !(filter_cons_False _ x) by done.
      by rewrite (filter_cons_False _ h).
Qed.

Lemma insertionSort_stable k l :
  filter (λ z, lt k z = false ∧ lt z k = false) (insertionSort lt l)
  = filter (λ z, lt k z = false ∧ lt z k = false) l.
Proof.
  unfold insertionSort. rewrite filter_reverse.
  rewrite <- (reverse_involutive (filter _ l)). f_equal.
  induction l as [|x l IH] using rev_ind; [done|].
  rewrite foldl_snoc, sinkLeft_stable, filter_app, reverse_app.
  destruct (decide (lt k x = false ∧ lt x k = false)).
  - rewrite !filter_cons_True by done. simpl. by rewrite IH.
  - rewrite !filter_cons_False by done. simpl. by rewrite IH.
Qed.

Lemma insertionSort_never l :
  (∀ x y, lt x y = false) → insertionSort lt l = l.
Proof.
  intros Hnever. unfold insertionSort.
  rewrite <- (reverse_involutive l) at 2. f_equal.
  induction l as [|x l IH] using rev_ind; [done|].
  rewrite foldl_snoc, IH, reverse_app. simpl.
  apply sinkLeft_stop. intros y _. apply Hnever.
Qed.

End insertion_more.

Lemma ltb_asym (s t : string) : String.ltb s t = true → String.ltb t s = false.
Proof.
  unfold String.ltb. rewrite (String.compare_antisym t s).
  by destruct (String.compare s t).
Qed.

Lemma ltb_false (s t : string) : String.ltb s t = false ↔ String.le t s.
Proof.
  unfold String.le, String.leb, String.ltb. rewrite (String.compare_antisym t s).
  destruct (String.compare s t); simpl; split; done.
Qed.

Lemma ltb_ge_trans (s t u : string) :
  String.ltb s t = false → String.ltb t u = false → String.ltb s u = false.
Proof.
  rewrite !ltb_false. intros H1 H2. by etrans.
Qed.

(** A known field compares keys by a strict order. *)
Lemma fieldLess_order lower field :
  field ∈ sortFields →
  ∃ lt : Issue → Issue → bool,
    (∀ x y, fieldLess lower field x y = Some (lt x y)) ∧
    (∀ x y, lt x y = true → lt y x = false) ∧
    (∀ x y z, lt x y = false → lt y z = false → lt x z = false).
Proof.
  unfold sortFields, fieldLess. intros Hf.
  repeat (apply elem_of_cons in Hf as [->|Hf]); [..|by apply elem_of_nil in Hf];
    simpl; eexists; (split; [intros x y; reflexivity|]); unfold Before; split.
  - intros x y. rewrite bool_decide_eq_true, bool_decide_eq_false. lia.
  - intros x y z. rewrite !bool_decide_eq_false. lia.
  - intros x y. rewrite bool_decide_eq_true, bool_decide_eq_false. lia.
  - intros x y z. rewrite !bool_decide_eq_false. lia.
  - intros x y. rewrite bool_decide_eq_true, bool_decide_eq_false. lia.
  - intros x y z. rewrite !bool_decide_eq_false. lia.
  - intros x y. apply ltb_asym.
  - intros x y z. apply ltb_ge_trans.
  - intros x y. apply ltb_asym.
  - intros x y z. apply ltb_ge_trans.
  - intros x y. apply ltb_asym.
  - intros x y z. apply ltb_ge_trans.
Qed.

Lemma fieldLess_unknown lower field x y :
  field ∉ sortFields → fieldLess lower field x y = None.
Proof.
  unfold sortFields, fieldLess. intros Hf.
  repeat (destruct (decide _) as [->|?];
          [exfalso; apply Hf; by_evaluation|]).
  done.
Qed.

(** X25.  Ascending order of up to 20 issues by a known field: the
    result holds the same issues, no issue stands before one with a
    smaller key, and issues with equal keys keep the order of the input.
    The direction is ascending unless it is [desc], or empty for the
    fields [created] and [updated]. *)
Theorem X25_ascending_sort_is_stable lower stable issues field direction :
  (length issues ≤ 20)%nat → field ∈ sortFields →
  ascendingOf {| recipe.Field := field; recipe.Direction := direction |} = true →
  applyRecipeSort lower stable issues (sortBy field direction) ≡ₚ issues ∧
  StronglySorted (λ x y, fieldLess lower field y x = Some false)
    (applyRecipeSort lower stable issues (sortBy field direction)) ∧
  (∀ k, filter (sameKey lower field k)
          (applyRecipeSort lower stable issues (sortBy field direction))
        = filter (sameKey lower field k) issues) ∧
  (direction ≠ "desc" ∧
   (direction = "" → field ≠ "created" ∧ field ≠ "updated")).
Proof.
  intros Hlen Hf Hasc.
  destruct (fieldLess_order lower field Hf) as (lt & Hlt & Hasym & Htrans).
  assert (field ≠ "") as Hne.
  { intros ->. revert Hf. unfold sortFields. by_evaluation. }
  unfold applyRecipeSort, sortBy. simpl. rewrite decide_False by done.
  unfold sort_SliceStable. rewrite bool_decide_eq_true_2 by done.
  assert (∀ l, insertionSort
                 (sortClosure lower {| recipe.Field := field;
                                       recipe.Direction := direction |}) l
               = insertionSort lt l) as Hsame.
  { intros l. unfold insertionSort. f_equal. revert l.
    assert (∀ l rp, foldl (λ rp x, sinkLeft (sortClosure lower
                       {| recipe.Field := field; recipe.Direction := direction |})
                       x rp) rp l
                    = foldl (λ rp x, sinkLeft lt x rp) rp l) as Hfold.
    { induction l as [|x l IH]; intros rp; [done|]. simpl. rewrite <- IH. f_equal.
      clear IH. induction rp as [|y rp IHrp]; [done|]. simpl.
      unfold sortClosure at 1. simpl. rewrite Hlt, Hasc.
      destruct (lt x y); [by rewrite IHrp|done]. }
    intros l. apply Hfold. }
  rewrite Hsame.
  destruct (insertionSort_post lt Hasym Htrans issues) as [Hperm Hsorted].
  assert (direction ≠ "desc" ∧
          (direction = "" → field ≠ "created" ∧ field ≠ "updated")) as [Hd1 Hd2].
  { unfold ascendingOf in Hasc. simpl in Hasc.
    destruct (decide (direction = "")) as [->|Hd].
    - split; [done|]. intros _.
      destruct (decide (field = "created" ∨ field = "updated")) as [Hcu|Hcu]; [|tauto].
      rewrite (bool_decide_eq_true_2 ((_ ∨ _) ∧ _)) in Hasc by done. done.
    - rewrite (bool_decide_eq_false_2 (_ ∧ direction = "")) in Hasc by tauto.
      rewrite ?(bool_decide_eq_false_2 (_ ∧ direction = "")) in Hasc by tauto.
      apply bool_decide_eq_true in Hasc. split; [done|]. by intros ?. }
  split_and!.
  - done.
  - eapply StronglySorted_mono; [|exact Hsorted].
    intros x y Hxy. simpl in Hxy. by rewrite Hlt, Hxy.
  - intros k.
    rewrite (list_filter_iff (sameKey lower field k)
               (λ z, lt k z = false ∧ lt z k = false)).
    2:{ intros z. unfold sameKey. rewrite !Hlt. split.
        - by intros [[= ->] [= ->]].
        - by intros [-> ->]. }
    rewrite (insertionSort_stable lt Htrans k issues).
    apply list_filter_iff. intros z. unfold sameKey. rewrite !Hlt. split.
    + by intros [-> ->].
    + by intros [[= ->] [= ->]].
  - done.
  - done.
Qed.

Lemma X25_ascending_sort_is_stable_witness :
  applyRecipeSort (λ s, s) (λ _ l, l) issuesPrio (sortBy "priority" "") ≡ₚ issuesPrio ∧
  StronglySorted (λ x y, fieldLess (λ s, s) "priority" y x = Some false)
    (applyRecipeSort (λ s, s) (λ _ l, l) issuesPrio (sortBy "priority" "")) ∧
  (∀ k, filter (sameKey (λ s, s) "priority" k)
          (applyRecipeSort (λ s, s) (λ _ l, l) issuesPrio (sortBy "priority" ""))
        = filter (sameKey (λ s, s) "priority" k) issuesPrio) ∧
  ("" ≠ "desc" ∧ ("" = "" → "priority" ≠ "created" ∧ "priority" ≠ "updated")).
Proof.
  apply (X25_ascending_sort_is_stable (λ s, s) (λ _ l, l) issuesPrio "priority" "").
  - simpl. lia.
  - by_evaluation.
  - reflexivity.
Defined.

(** X26.  Descending order of up to 20 issues by a known field is the
    mirror image of the ascending order: the closure negates the
    comparison, so issues with equal keys come out in the reverse of
    their input order, although the sort is [sort.SliceStable]. *)
Theorem X26_descending_sort_reverses_ties lower stable issues field :
  (length issues ≤ 20)%nat → field ∈ sortFields →
  applyRecipeSort lower stable issues (sortBy field "desc")
  = reverse (applyRecipeSort lower stable issues (sortBy field "asc")) ∧
  (∀ k, filter (sameKey lower field k)
          (applyRecipeSort lower stable issues (sortBy field "desc"))
        = reverse (filter (sameKey lower field k) issues)).
Proof.
  intros Hlen Hf.
  destruct (fieldLess_order lower field Hf) as (lt & Hlt & Hasym & Htrans).
  assert (field ≠ "") as Hne.
  { intros ->. revert Hf. unfold sortFields. by_evaluation. }
  assert (∀ (c : Issue → Issue → bool) (c' : Issue → Issue → bool) l,
            (∀ x y, c x y = c' x y) → insertionSort c l = insertionSort c' l) as Hext.
  { intros c c' l Hcc. unfold insertionSort. f_equal.
    assert (∀ l rp, foldl (λ rp x, sinkLeft c x rp) rp l
                    = foldl (λ rp x, sinkLeft c' x rp) rp l) as Hfold.
    { clear l. induction l as [|x l IH]; intros rp; [done|]. simpl.
      rewrite <- IH. f_equal. clear IH.
      induction rp as [|y rp IHrp]; [done|]. simpl. rewrite Hcc.
      destruct (c' x y); [by rewrite IHrp|done]. }
    apply Hfold. }
  assert (applyRecipeSort lower stable issues (sortBy field "asc")
          = insertionSort lt issues) as Easc.
  { unfold applyRecipeSort, sortBy. simpl. rewrite decide_False by done.
    unfold sort_SliceStable. rewrite bool_decide_eq_true_2 by done.
    apply Hext. intros x y. unfold sortClosure. simpl. rewrite Hlt.
    unfold ascendingOf. simpl.
    rewrite (bool_decide_eq_false_2 (_ ∧ "asc" = "")) by (by intros [_ ?]).
    by rewrite (bool_decide_eq_false_2 (_ ∧ "asc" = "")) by (by intros [_ ?]). }
  assert (applyRecipeSort lower stable issues (sortBy field "desc")
          = insertionSort (λ a b, negb (lt a b)) issues) as Edesc.
  { unfold applyRecipeSort, sortBy. simpl. rewrite decide_False by done.
    unfold sort_SliceStable. rewrite bool_decide_eq_true_2 by done.
    apply Hext. intros x y. unfold sortClosure. simpl. rewrite Hlt.
    unfold ascendingOf. simpl.
    rewrite (bool_decide_eq_false_2 (_ ∧ "desc" = "")) by (by intros [_ ?]).
    by rewrite (bool_decide_eq_false_2 (_ ∧ "desc" = "")) by (by intros [_ ?]). }
  rewrite Edesc, Easc, (insertionSort_negated lt Hasym Htrans). split; [done|].
  intros k. rewrite filter_reverse. f_equal.
  rewrite (list_filter_iff (sameKey lower field k)
             (λ z, lt k z = false ∧ lt z k = false)).
  2:{ intros z. unfold sameKey. rewrite !Hlt. split.
      - by intros [[= ->] [= ->]].
      - by intros [-> ->]. }
  rewrite (insertionSort_stable lt Htrans k issues).
  apply list_filter_iff. intros z. unfold sameKey. rewrite !Hlt. split.
  - by intros [-> ->].
  - by intros [[= ->] [= ->]].
Qed.

Lemma X26_descending_sort_reverses_ties_witness :
  applyRecipeSort (λ s, s) (λ _ l, l) issuesPrio (sortBy "priority" "desc")
  = reverse (applyRecipeSort (λ s, s) (λ _ l, l) issuesPrio (sortBy "priority" "asc")) ∧
  (∀ k, filter (sameKey (λ s, s) "priority" k)
          (applyRecipeSort (λ s, s) (λ _ l, l) issuesPrio (sortBy "priority" "desc"))
        = reverse (filter (sameKey (λ s, s) "priority" k) issuesPrio)).
Proof.
  apply (X26_descending_sort_reverses_ties (λ s, s) (λ _ l, l) issuesPrio "priority").
  - simpl. lia.
  - by_evaluation.
Defined.

(** X27.  [applyRecipeSort] returns the issues as they are when there is
    no recipe or the sort field is empty, and, for up to 20 issues, when
    the field is none of the six the switch knows, whatever the
    direction. *)
Theorem X27_sort_leaves_order lower stable issues r :
  (r = None → applyRecipeSort lower stable issues r = issues) ∧
  (∀ rcp, r = Some rcp → recipe.Field (recipe.Sort rcp) = "" →
          applyRecipeSort lower stable issues r = issues) ∧
  (∀ rcp, r = Some rcp → recipe.Field (recipe.Sort rcp) ∉ sortFields →
          (length issues ≤ 20)%nat →
          applyRecipeSort lower stable issues r = issues).
Proof.
  split_and!.
  - by intros ->.
  - intros rcp -> Hf. unfold applyRecipeSort. by rewrite decide_True.
  - intros rcp -> Hf Hlen. unfold applyRecipeSort.
    destruct (decide _); [done|].
    unfold sort_SliceStable. rewrite bool_decide_eq_true_2 by done.
    apply insertionSort_never. intros x y. unfold sortClosure.
    by rewrite fieldLess_unknown.
Qed.

(** * The graph viewer *)

(** ** The cycle navigator *)

Lemma rem_wrap a n : 0 ≤ a < n → Z.rem (a + n) n = a.
Proof.
  intros H. rewrite Z.rem_mod_nonneg by lia.
  symmetry. apply (Z.mod_unique _ _ 1); lia.
Qed.

Lemma highlightCycle_index st index :
  navigator.active st = true → (0 < length (navigator.cycles st))%nat →
  (navigator.highlightCycle st index).1
  = {| navigator.active := true; navigator.cycles := navigator.cycles st;
       navigator.currentIndex :=
         Z.max 0 (Z.min index (Z.of_nat (length (navigator.cycles st)) - 1)) |}.
Proof.
  intros Ha Hn. unfold navigator.highlightCycle. rewrite Ha. simpl.
  rewrite bool_decide_eq_false_2 by lia.
  by destruct (navigator.cycles st !! _) as [[|]|].
Qed.

Lemma highlightCycle_shown st index :
  navigator.active st = true → (0 < length (navigator.cycles st))%nat →
  Forall (λ c, c ≠ []) (navigator.cycles st) →
  ∃ c, navigator.cycles st
         !! Z.to_nat (Z.max 0 (Z.min index (Z.of_nat (length (navigator.cycles st)) - 1)))
       = Some c ∧
       (navigator.highlightCycle st index).2
       = Some {| navigator.index :=
                   Z.max 0 (Z.min index (Z.of_nat (length (navigator.cycles st)) - 1));
                 navigator.cycle := c;
                 navigator.path := navigator.formatCyclePath c |}.
Proof.
  intros Ha Hn Hne. unfold navigator.highlightCycle. rewrite Ha. simpl.
  rewrite bool_decide_eq_false_2 by lia.
  destruct (lookup_lt_is_Some_2 (navigator.cycles st)
              (Z.to_nat (Z.max 0 (Z.min index
                 (Z.of_nat (length (navigator.cycles st)) - 1))))) as [c Hc]; [lia|].
  exists c. split; [done|]. rewrite Hc.
  rewrite Forall_forall in Hne.
  destruct c as [|x c]; [|done].
  exfalso. apply (Hne []); [|done]. apply list_elem_of_lookup. eauto.
Qed.

(** X29.  In an active navigator whose index points at one of its
    cycles: [highlightCycle] clamps any index into the range;
    [nextCycle] steps to the following cycle and from the last to the
    first, [prevCycle] steps back and from the first to the last, and each
    undoes the other; and when no cycle is empty, as
    [initCycleNavigator] leaves them, [nextCycle] reports the cycle it
    stepped to, with its closed path. *)
Theorem X29_cycle_navigation st :
  navigator.active st = true →
  0 ≤ navigator.currentIndex st < Z.of_nat (length (navigator.cycles st)) →
  (∀ index,
     0 ≤ navigator.currentIndex (navigator.highlightCycle st index).1
       < Z.of_nat (length (navigator.cycles st))) ∧
  navigator.currentIndex (navigator.nextCycle st).1
  = (if decide (navigator.currentIndex st + 1
                = Z.of_nat (length (navigator.cycles st)))
     then 0 else navigator.currentIndex st + 1) ∧
  navigator.currentIndex (navigator.prevCycle st).1
  = (if decide (navigator.currentIndex st = 0)
     then Z.of_nat (length (navigator.cycles st)) - 1
     else navigator.currentIndex st - 1) ∧
  (navigator.prevCycle (navigator.nextCycle st).1).1 = st ∧
  (navigator.nextCycle (navigator.prevCycle st).1).1 = st ∧
  (Forall (λ c, c ≠ []) (navigator.cycles st) →
   ∃ c, navigator.cycles st
          !! Z.to_nat (navigator.currentIndex (navigator.nextCycle st).1) = Some c ∧
        (navigator.nextCycle st).2
        = Some {| navigator.index :=
                    navigator.currentIndex (navigator.nextCycle st).1;
                  navigator.cycle := c;
                  navigator.path := navigator.formatCyclePath c |}).
Proof.
  intros Ha Hcur.
  assert (0 < length (navigator.cycles st))%nat as Hn by lia.
  set (n := Z.of_nat (length (navigator.cycles st))) in *.
  assert (∀ s, navigator.active s = true →
               navigator.cycles s = navigator.cycles st →
               0 ≤ navigator.currentIndex s < n →
               (navigator.nextCycle s).1
               = {| navigator.active := true; navigator.cycles := navigator.cycles st;
                    navigator.currentIndex :=
                      if decide (navigator.currentIndex s + 1 = n)
                      then 0 else navigator.currentIndex s + 1 |}) as Hnx.
  { intros s Has Hcs Hs. unfold navigator.nextCycle. rewrite Has. simpl.
    rewrite Hcs, bool_decide_eq_false_2 by lia.
    rewrite highlightCycle_index by (rewrite ?Hcs; done). rewrite Hcs. f_equal.
    fold n. destruct (decide _) as [E|E].
    - rewrite E, Z.rem_same by lia. lia.
    - rewrite Z.rem_small by lia. lia. }
  assert (∀ s, navigator.active s = true →
               navigator.cycles s = navigator.cycles st →
               0 ≤ navigator.currentIndex s < n →
               (navigator.prevCycle s).1
               = {| navigator.active := true; navigator.cycles := navigator.cycles st;
                    navigator.currentIndex :=
                      if decide (navigator.currentIndex s = 0)
                      then n - 1 else navigator.currentIndex s - 1 |}) as Hpv.
  { intros s Has Hcs Hs. unfold navigator.prevCycle. rewrite Has. simpl.
    rewrite Hcs, bool_decide_eq_false_2 by lia.
    rewrite highlightCycle_index by (rewrite ?Hcs; done). rewrite Hcs. f_equal.
    fold n. destruct (decide _) as [E|E].
    - rewrite E. simpl. rewrite Z.rem_small by lia. lia.
    - rewrite rem_wrap by lia. lia. }
  assert (st = {| navigator.active := true; navigator.cycles := navigator.cycles st;
                  navigator.currentIndex := navigator.currentIndex st |}) as Hst.
  { destruct st as [act cs cur]. simpl in *. by subst act. }
  split_and!.
  - intros index. rewrite highlightCycle_index by done. simpl. fold n. lia.
  - by rewrite (Hnx st).
  - by rewrite (Hpv st).
  - rewrite (Hnx st) by done. rewrite Hpv; simpl; [|done|done|].
    + etrans; [|symmetry; exact Hst]. f_equal. repeat destruct (decide _); lia.
    + destruct (decide _); lia.
  - rewrite (Hpv st) by done. rewrite Hnx; simpl; [|done|done|].
    + etrans; [|symmetry; exact Hst]. f_equal. repeat destruct (decide _); lia.
    + destruct (decide _); lia.
  - intros Hne. unfold navigator.nextCycle. rewrite Ha. simpl.
    rewrite bool_decide_eq_false_2 by lia.
    destruct (highlightCycle_shown st
                (Z.rem (navigator.currentIndex st + 1) n) Ha Hn Hne) as (c & Hc & Hs).
    rewrite highlightCycle_index by done. simpl. exists c. by split.
Qed.

Lemma X29_cycle_navigation_witness :
  (∀ index,
     0 ≤ navigator.currentIndex (navigator.highlightCycle navigatorThree index).1
       < Z.of_nat (length (navigator.cycles navigatorThree))) ∧
  navigator.currentIndex (navigator.nextCycle navigatorThree).1
  = (if decide (navigator.currentIndex navigatorThree + 1
                = Z.of_nat (length (navigator.cycles navigatorThree)))
     then 0 else navigator.currentIndex navigatorThree + 1) ∧
  navigator.currentIndex (navigator.prevCycle navigatorThree).1
  = (if decide (navigator.currentIndex navigatorThree = 0)
     then Z.of_nat (length (navigator.cycles navigatorThree)) - 1
     else navigator.currentIndex navigatorThree - 1) ∧
  (navigator.prevCycle (navigator.nextCycle navigatorThree).1).1 = navigatorThree ∧
  (navigator.nextCycle (navigator.prevCycle navigatorThree).1).1 = navigatorThree ∧
  (Forall (λ c, c ≠ []) (navigator.cycles navigatorThree) →
   ∃ c, navigator.cycles navigatorThree
          !! Z.to_nat (navigator.currentIndex (navigator.nextCycle navigatorThree).1)
        = Some c ∧
        (navigator.nextCycle navigatorThree).2
        = Some {| navigator.index :=
                    navigator.currentIndex (navigator.nextCycle navigatorThree).1;
                  navigator.cycle := c;
                  navigator.path := navigator.formatCyclePath c |}).
Proof.
  apply (X29_cycle_navigation navigatorThree).
  - reflexivity.
  - simpl. lia.
Defined.

(** ** [truncate] *)

(** X30.  [truncate] leaves a string that fits as it is; a longer one is
    cut to exactly [maxLen] code units, the last three being dots, when
    [maxLen] is at least 3; for a smaller [maxLen] the result is the
    three dots alone, longer than asked for. *)
Theorem X30_truncate str maxLen :
  (Z.of_nat (length str) ≤ maxLen → truncate str maxLen = str) ∧
  (3 ≤ maxLen < Z.of_nat (length str) →
   truncate str maxLen = take (Z.to_nat (maxLen - 3)) str ++ dots ∧
   Z.of_nat (length (truncate str maxLen)) = maxLen) ∧
  (maxLen < 3 → maxLen < Z.of_nat (length str) → str ≠ [] →
   truncate str maxLen = dots) ∧
  (length (truncate str maxLen) ≤ Nat.max 3 (length str))%nat.
Proof.
  unfold truncate. split_and!.
  - intros Hle. rewrite (bool_decide_eq_true_2 (_ ≤ _)) by done.
    by rewrite orb_true_r.
  - intros [H3 Hlt].
    rewrite (bool_decide_eq_false_2 (_ ≤ _)) by lia.
    rewrite (bool_decide_eq_false_2 (length str = 0%nat)) by lia. simpl.
    split; [done|]. rewrite length_app, length_take. simpl. lia.
  - intros H3 Hlt Hne.
    rewrite (bool_decide_eq_false_2 (_ ≤ _)) by lia.
    rewrite (bool_decide_eq_false_2 (length str = 0%nat))
      by (by destruct str). simpl.
    by replace (Z.to_nat (maxLen - 3)) with 0%nat by lia.
  - destruct (bool_decide (length str = 0%nat) || bool_decide (_ ≤ _)) eqn:E; [lia|].
    apply orb_false_iff in E as [_ E]. apply bool_decide_eq_false in E.
    rewrite length_app, length_take. simpl. lia.
Qed.
